(** * linkWatch: a shallow embedding of the checker, the store and the URL model

    The development follows the Go sources:
    - [internal/checker]  (Checker, scheduler, scheduleChecks, checkTarget,
      acquireHostSemaphore, releaseHostSemaphore, performCheck, Shutdown),
    - [internal/store]    (SQLiteStore and its queries),
    - [internal/http]     (parseCursorToken, buildCursorToken),
    - [internal/model]    (Canonicalize, normalizePath, sortQueryParams).

    Go strings are byte sequences and are represented by [string]; a Go [int]
    is a [Z]; a nil-able pointer is an [option]. *)

From Stdlib Require Import ZArith Ascii String List Lia Bool.
From stdpp Require Import base option list sorting gmap strings fin_maps.

Local Open Scope Z_scope.

(** ** Characters and decimal digits *)

Module Chars.

Definition of_Z (n : Z) : ascii := ascii_of_N (Z.to_N n).
Definition to_Z (c : ascii) : Z := Z.of_N (N_of_ascii c).

(** The decimal digit [d] (0..9) as a character. *)
Definition digit (d : Z) : ascii := of_Z (48 + d).

(** The value of a decimal digit character, if it is one. *)
Definition digit_val (c : ascii) : option Z :=
  let n := to_Z c in
  if (48 <=? n) && (n <=? 57) then Some (n - 48) else None.

Definition is_upper (c : ascii) : bool :=
  let n := to_Z c in (65 <=? n) && (n <=? 90).

Definition is_lower (c : ascii) : bool :=
  let n := to_Z c in (97 <=? n) && (n <=? 122).

Definition is_digit (c : ascii) : bool :=
  let n := to_Z c in (48 <=? n) && (n <=? 57).

(** [strings.ToLower] on one ASCII byte. *)
Definition lower (c : ascii) : ascii :=
  if is_upper c then of_Z (to_Z c + 32) else c.

End Chars.

(** ** Go's [time.Time], as far as the program uses it

    The program creates times with [time.Now()] and [time.Time{}], tests them
    with [IsZero], prints them with [Format(time.RFC3339)] and reads them with
    [time.Parse(time.RFC3339, _)].  A time is represented by its wall-clock
    fields together with the zone offset (minutes east of UTC) it is shown
    in; Go's monotonic clock reading and zone names are not represented. *)

Module GoTime.

Record Time := mkTime {
  year : Z; month : Z; day : Z;
  hour : Z; minute : Z; second : Z;
  nanosecond : Z;
  zone : Z
}.

(** [time.Time{}]: January 1, year 1, 00:00:00.000000000 UTC. *)
Definition zero : Time := mkTime 1 1 1 0 0 0 0 0.

Definition is_leap (y : Z) : bool :=
  (y mod 4 =? 0) && (negb (y mod 100 =? 0) || (y mod 400 =? 0)).

Definition days_in (y m : Z) : Z :=
  if m =? 2 then (if is_leap y then 29 else 28)
  else if (m =? 4) || (m =? 6) || (m =? 9) || (m =? 11) then 30
  else 31.

(** Well-formed wall-clock fields. *)
Definition valid (t : Time) : bool :=
  (1 <=? month t) && (month t <=? 12) &&
  (1 <=? day t) && (day t <=? days_in (year t) (month t)) &&
  (0 <=? hour t) && (hour t <=? 23) &&
  (0 <=? minute t) && (minute t <=? 59) &&
  (0 <=? second t) && (second t <=? 59) &&
  (0 <=? nanosecond t) && (nanosecond t <=? 999999999) &&
  (-1440 <? zone t) && (zone t <? 1440).

(** [t.IsZero()]: the instant is the zero instant, whatever zone it is shown
    in.  Shown [zone] minutes east of UTC, the zero instant is [zone mod
    1440] minutes into the day that lies [zone / 1440] days after January 1
    of year 1; the offsets the program meets are within 25 hours. *)
Definition IsZero (t : Time) : bool :=
  (nanosecond t =? 0) && (second t =? 0) &&
  (hour t * 60 + minute t =? zone t mod 1440) &&
  (let shift := zone t / 1440 in
   if shift =? 0 then (year t =? 1) && (month t =? 1) && (day t =? 1)
   else if shift =? 1 then (year t =? 1) && (month t =? 1) && (day t =? 2)
   else if shift =? -1
   then (year t =? 0) && (month t =? 12) && (day t =? 31)
   else if shift =? -2
   then (year t =? 0) && (month t =? 12) && (day t =? 30)
   else false).

(** *** Printing: [t.Format(time.RFC3339)], layout
    ["2006-01-02T15:04:05Z07:00"] *)

Fixpoint digits_fuel (fuel : nat) (n : Z) (acc : list ascii) : list ascii :=
  match fuel with
  | O => acc
  | S f =>
      if n <? 10 then Chars.digit n :: acc
      else digits_fuel f (n / 10) (Chars.digit (n mod 10) :: acc)
  end.

(** The decimal digits of a natural number, most significant first. *)
Definition digits (n : Z) : list ascii :=
  digits_fuel (S (Z.to_nat (Z.log2 n))) n [].

(** Go's [appendInt]: decimal, zero-padded to [width], with a minus sign
    for negative numbers. *)
Definition appendInt (x : Z) (width : nat) : list ascii :=
  let ds := digits (Z.abs x) in
  let padded := repeat "0"%char (width - length ds) ++ ds in
  if x <? 0 then "-"%char :: padded else padded.

Definition format_zone (z : Z) : list ascii :=
  if z =? 0 then ["Z"%char]
  else
    let a := Z.abs z in
    (if z <? 0 then "-"%char else "+"%char)
      :: appendInt (a / 60) 2 ++ ":"%char :: appendInt (a mod 60) 2.

Definition format_chars (t : Time) : list ascii :=
  appendInt (year t) 4 ++ "-"%char :: appendInt (month t) 2 ++
  "-"%char :: appendInt (day t) 2 ++ "T"%char :: appendInt (hour t) 2 ++
  ":"%char :: appendInt (minute t) 2 ++ ":"%char :: appendInt (second t) 2 ++
  format_zone (zone t).

Definition FormatRFC3339 (t : Time) : string :=
  string_of_list_ascii (format_chars t).

(** A number below 100 as two digits, one below 10000 as four. *)
Definition pad2 (n : Z) : list ascii :=
  [Chars.digit (n / 10); Chars.digit (n mod 10)].

Definition pad4 (n : Z) : list ascii := pad2 (n / 100) ++ pad2 (n mod 100).

(** *** Reading: [time.Parse(time.RFC3339, s)]

    Go reads the value piece by piece along the layout
    ["2006-01-02T15:04:05Z07:00"] ([parse] in time/format.go; the fast
    path [parseRFC3339] accepts less and agrees with it): a year of four
    digits; month, day, minute and second of two digits each
    ([getnum(value, true)]); an hour of one or two digits
    ([getnum(value, false)]); after the seconds, when a period or a comma
    and a digit follow, a fraction, of whose digits the first nine count
    ([parseNanoseconds]); then the zone, [Z] or a sign and [hh:mm] with
    [hh] up to 24 and [mm] up to 60; and nothing after it.  Month, hour,
    minute and second are checked against their ranges and the day against
    the length of the month.  The time read shows the fields as written,
    in the zone as written.  [None] is Go's parse error. *)

Definition take_digit (l : list ascii) : option (Z * list ascii) :=
  match l with
  | c :: r => d ← Chars.digit_val c; Some (d, r)
  | [] => None
  end.

(** [getnum(value, true)]: exactly two digits. *)
Definition take2 (l : list ascii) : option (Z * list ascii) :=
  '(a, l) ← take_digit l;
  '(b, l) ← take_digit l;
  Some (10 * a + b, l).

Definition take4 (l : list ascii) : option (Z * list ascii) :=
  '(a, l) ← take2 l;
  '(b, l) ← take2 l;
  Some (100 * a + b, l).

(** [getnum(value, false)]: two digits, or one when no second digit
    follows. *)
Definition take_hour (l : list ascii) : option (Z * list ascii) :=
  '(a, r) ← take_digit l;
  match take_digit r with
  | Some (b, r') => Some (10 * a + b, r')
  | None => Some (a, r)
  end.

Definition expect (c : ascii) (l : list ascii) : option (list ascii) :=
  match l with
  | x :: r => if Ascii.eqb x c then Some r else None
  | [] => None
  end.

(** The digits at the head of a text, and what follows them. *)
Fixpoint take_digits (l : list ascii) : list Z * list ascii :=
  match l with
  | c :: r =>
      match Chars.digit_val c with
      | Some d => let '(ds, rest) := take_digits r in (d :: ds, rest)
      | None => ([], l)
      end
  | [] => ([], [])
  end.

(** [parseNanoseconds]: the first nine digits of the fraction, scaled to
    nanoseconds. *)
Definition nanoseconds (ds : list Z) : Z :=
  let ds := firstn 9 ds in
  fold_left (fun acc d => 10 * acc + d) ds 0
  * 10 ^ (9 - Z.of_nat (length ds)).

(** The fraction after the seconds, when there is one: [len(value) >= 2 &&
    commaOrPeriod(value[0]) && isDigit(value, 1)]. *)
Definition take_fraction (l : list ascii) : Z * list ascii :=
  match l with
  | c :: r =>
      if Ascii.eqb c "." || Ascii.eqb c ","
      then
        match take_digits r with
        | ([], _) => (0, l)
        | (ds, rest) => (nanoseconds ds, rest)
        end
      else (0, l)
  | [] => (0, l)
  end.

(** The zone, which ends the text: [Z], or a sign, two digits, a colon
    and two digits; the tests are [hr > 24] and [mm > 60]. *)
Definition parse_zone (l : list ascii) : option Z :=
  match l with
  | [] => None
  | s :: r =>
      if Ascii.eqb s "Z" then (if r is [] then Some 0 else None)
      else
        sign ← (if Ascii.eqb s "+" then Some 1
                else if Ascii.eqb s "-" then Some (-1) else None);
        '(hh, r) ← take2 r;
        r ← expect ":" r;
        '(mm, r) ← take2 r;
        if (hh <=? 24) && (mm <=? 60) && (if r is [] then true else false)
        then Some (sign * (hh * 60 + mm)) else None
  end.

(** The range tests on the fields read. *)
Definition wall_ok (y mo d h mi s : Z) : bool :=
  (1 <=? mo) && (mo <=? 12) &&
  (1 <=? d) && (d <=? days_in y mo) &&
  (h <=? 23) && (mi <=? 59) && (s <=? 59).

Definition parse_chars (l : list ascii) : option Time :=
  '(y, l) ← take4 l;
  l ← expect "-" l;
  '(mo, l) ← take2 l;
  l ← expect "-" l;
  '(d, l) ← take2 l;
  l ← expect "T" l;
  '(h, l) ← take_hour l;
  l ← expect ":" l;
  '(mi, l) ← take2 l;
  l ← expect ":" l;
  '(s, l) ← take2 l;
  let '(ns, l) := take_fraction l in
  z ← parse_zone l;
  if wall_ok y mo d h mi s then Some (mkTime y mo d h mi s ns z) else None.

Definition ParseRFC3339 (s : string) : option Time :=
  parse_chars (list_ascii_of_string s).

End GoTime.

Abbreviation Time := GoTime.Time.

(** ** The records of [internal/store] *)

Record Target := mkTarget {
  ID : string;
  URL : string;
  Host : string;
  CreatedAt : Time
}.

Record CheckResult := mkCheckResult {
  ResultID : Z;
  TargetID : string;
  CheckedAt : Time;
  StatusCode : option Z;
  LatencyMs : Z;
  Error : option string
}.

(** ** [performCheck]

    [client.Get] returns a response and an error.  By the contract of
    [net/http] the error is nil exactly when the request completed with a
    response; a non-nil error may come with a response (a refused redirect)
    or without one. *)

Record Response := mkResponse { RespStatusCode : Z }.

Inductive GetOutcome :=
| GetFailed (resp : option Response) (err : string)
| GetCompleted (resp : Response).

(** What [performCheck] reads from its environment: the outcome of the GET,
    the measured [time.Since(start).Milliseconds()] and the [time.Now()] of
    the result. *)
Record ProbeEnv := mkProbeEnv {
  probe_outcome : GetOutcome;
  probe_latency : Z;
  probe_now : Time
}.

Definition set_Error (e : option string) (r : CheckResult) : CheckResult :=
  mkCheckResult (ResultID r) (TargetID r) (CheckedAt r) (StatusCode r)
                (LatencyMs r) e.

Definition set_StatusCode (c : option Z) (r : CheckResult) : CheckResult :=
  mkCheckResult (ResultID r) (TargetID r) (CheckedAt r) c (LatencyMs r)
                (Error r).

Definition performCheck (target : Target) (env : ProbeEnv) : CheckResult :=
  let result :=
    {| ResultID := 0;
       TargetID := ID target;
       CheckedAt := probe_now env;
       StatusCode := None;
       LatencyMs := probe_latency env;
       Error := None |} in
  match probe_outcome env with
  | GetFailed _ err => set_Error (Some err) result
  | GetCompleted resp => set_StatusCode (Some (RespStatusCode resp)) result
  end.

(** Exactly one of [status_code] / [error] is present. *)
Definition exactly_one_populated (r : CheckResult) : Prop :=
  (is_Some (StatusCode r) /\ Error r = None) \/
  (StatusCode r = None /\ is_Some (Error r)).

(** ** [internal/store]: the SQLite store

    The database is represented by its tables.  A row of [targets] keeps
    [created_at] as the TEXT the program wrote; [check_results.id] is
    AUTOINCREMENT. *)

Inductive result (A : Type) :=
| Ok (a : A)
| Err (e : string).
Arguments Ok {A} a.
Arguments Err {A} e.

Record Cursor := mkCursor {
  CursorCreatedAt : Time;
  CursorID : string
}.

Record TargetRow := mkTargetRow {
  row_id : string;
  row_url : string;
  row_host : string;
  row_created_at : string
}.

Record ResultRow := mkResultRow {
  res_id : Z;
  res_target_id : string;
  res_checked_at : string;
  res_status_code : option Z;
  res_latency_ms : Z;
  res_error : option string
}.

Record DB := mkDB {
  targets : list TargetRow;
  check_results : list ResultRow;
  results_seq : Z
}.

Definition emptyDB : DB := mkDB [] [] 0.

(** What a query sees of its surroundings: whether its context is already
    cancelled and whether the driver reports a failure of its own. *)
Record QueryEnv := mkQueryEnv {
  q_ctx_done : bool;
  q_fault : option string
}.

Definition query_error (env : QueryEnv) : option string :=
  if q_ctx_done env then Some "context canceled"%string else q_fault env.

Definition formatTime (t : Time) : string := GoTime.FormatRFC3339 t.

Definition parseTime (s : string) : Time :=
  match GoTime.ParseRFC3339 s with
  | Some t => t
  | None => GoTime.zero
  end.

(** [rows.Scan(&t.ID, &t.URL, &t.Host, &created)] followed by
    [t.CreatedAt = parseTime(created)]. *)
Definition scan_target (r : TargetRow) : Target :=
  {| ID := row_id r; URL := row_url r; Host := row_host r;
     CreatedAt := parseTime (row_created_at r) |}.

(** [SELECT ... FROM targets WHERE url = ?] read with [QueryRow]: the first
    matching row. *)
Definition select_target_by_url (url : string) (db : DB) : option TargetRow :=
  List.find (fun r => String.eqb (row_url r) url) (targets db).

(** [INSERT INTO targets]: [id] is the primary key and [url] is UNIQUE. *)
Definition insert_target (r : TargetRow) (db : DB) : result DB :=
  if existsb (fun r' => String.eqb (row_id r') (row_id r)
                        || String.eqb (row_url r') (row_url r)) (targets db)
  then Err "constraint failed"%string
  else Ok {| targets := targets db ++ [r];
             check_results := check_results db;
             results_seq := results_seq db |}.

(** What [UpsertTargetByURL] reads from its surroundings: the two
    statements' environments, [uuid.NewString()] and [time.Now()]. *)
Record UpsertEnv := mkUpsertEnv {
  up_select : QueryEnv;
  up_insert : QueryEnv;
  up_uuid : string;
  up_now : Time
}.

Definition UpsertTargetByURL (env : UpsertEnv) (canonicalURL host : string)
    (db : DB) : result (Target * bool) * DB :=
  match query_error (up_select env) with
  | Some e => (Err ("query target: " ++ e)%string, db)
  | None =>
      match select_target_by_url canonicalURL db with
      | Some r => (Ok (scan_target r, false), db)
      | None =>
          let t := {| ID := ("t_" ++ up_uuid env)%string;
                      URL := canonicalURL;
                      Host := host;
                      CreatedAt := up_now env |} in
          match query_error (up_insert env) with
          | Some e => (Err ("insert target: " ++ e)%string, db)
          | None =>
              match insert_target
                      (mkTargetRow (ID t) (URL t) (Host t)
                                   (formatTime (CreatedAt t))) db with
              | Err e => (Err ("insert target: " ++ e)%string, db)
              | Ok db' => (Ok (t, true), db')
              end
          end
      end
  end.

(** TEXT columns compare byte by byte. *)
Definition text_ltb (a b : string) : bool := String.ltb a b.

(** The key of [ORDER BY created_at, id]. *)
Definition row_leb (r1 r2 : TargetRow) : bool :=
  match String.compare (row_created_at r1) (row_created_at r2) with
  | Lt => true
  | Eq => String.leb (row_id r1) (row_id r2)
  | Gt => false
  end.

Definition row_le (r1 r2 : TargetRow) : Prop := row_leb r1 r2 = true.

#[global] Instance row_le_dec : RelDecision row_le.
Proof. intros r1 r2. unfold row_le. apply _. Defined.

Definition order_by_created_at_id (rows : list TargetRow) : list TargetRow :=
  merge_sort row_le rows.

(** SQLite's [LIMIT n]: a negative [n] means no limit. *)
Definition sql_limit {A} (n : Z) (rows : list A) : list A :=
  if n <? 0 then rows else firstn (Z.to_nat n) rows.

(** The WHERE clause [GetTargets] builds. *)
Definition targets_where (hostFilter : string) (afterCreatedAt : Time)
    (afterID : string) (r : TargetRow) : bool :=
  (if String.eqb hostFilter "" then true
   else String.eqb (row_host r) hostFilter)
  &&
  (if GoTime.IsZero afterCreatedAt then true
   else
     let ts := formatTime afterCreatedAt in
     text_ltb ts (row_created_at r)
     || (String.eqb (row_created_at r) ts && text_ltb afterID (row_id r))).

Definition select_targets (hostFilter : string) (afterCreatedAt : Time)
    (afterID : string) (limit : Z) (db : DB) : list TargetRow :=
  sql_limit limit
    (order_by_created_at_id
       (List.filter (targets_where hostFilter afterCreatedAt afterID)
                    (targets db))).

Definition GetTargets (env : QueryEnv) (hostFilter : string)
    (afterCreatedAt : Time) (afterID : string) (limit : Z) (db : DB)
    : result (list Target * option Cursor) :=
  match query_error env with
  | Some e => Err ("get targets: " ++ e)%string
  | None =>
      let targets :=
        List.map scan_target
          (select_targets hostFilter afterCreatedAt afterID limit db) in
      match last targets with
      | None => Ok ([], None)
      | Some l => Ok (targets, Some (mkCursor (CreatedAt l) (ID l)))
      end
  end.

Definition InsertCheckResult (env : QueryEnv) (r : CheckResult) (db : DB)
    : option string * DB :=
  match query_error env with
  | Some e => (Some ("insert result: " ++ e)%string, db)
  | None =>
      (None,
       {| targets := targets db;
          check_results :=
            check_results db ++
              [mkResultRow (results_seq db + 1) (TargetID r)
                           (formatTime (CheckedAt r)) (StatusCode r)
                           (LatencyMs r) (Error r)];
          results_seq := results_seq db + 1 |})
  end.

(** ** [internal/checker]: the Checker and its goroutines

    [workers] and the per-host channels only ever carry [struct{}{}], so a
    channel is represented by the number of values it buffers; its capacity
    is [maxConcurrency], respectively the constant 2.  A send goes through
    when the buffer has room, a receive when it holds a value.  (With
    capacity 0 the channel is unbuffered and a send needs a receiver that
    is waiting; the only receives on [c.workers] are the deferred ones of
    tasks, and a task exists only after a send went through, so no send
    ever does, which is what the test for room says as well.)  [ctx_done]
    says that [cancel] was called, [wg] is the counter of the wait group.
    Durations are kept in nanoseconds as in Go; how much time passes
    between two steps is not represented: a tick of the ticker and the
    firing of a timer are steps that may happen at any moment. *)

Record Checker := mkChecker {
  store : DB;
  checkInterval : Z;
  maxConcurrency : Z;
  httpTimeout : Z;
  shutdownGrace : Z;
  workers : nat;
  hostSemaphores : gmap string nat;
  ctx_done : bool;
  wg : nat
}.

(** [make(chan struct{}, maxConcurrency)] panics on a negative size. *)
Definition NewChecker (st : DB) (checkInterval httpTimeout shutdownGrace : Z)
    (maxConcurrency : Z) : option Checker :=
  if maxConcurrency <? 0 then None
  else Some {| store := st;
               checkInterval := checkInterval;
               maxConcurrency := maxConcurrency;
               httpTimeout := httpTimeout;
               shutdownGrace := shutdownGrace;
               workers := 0;
               hostSemaphores := ∅;
               ctx_done := false;
               wg := 0 |}.

Definition set_store (db : DB) (c : Checker) : Checker :=
  mkChecker db (checkInterval c) (maxConcurrency c) (httpTimeout c)
            (shutdownGrace c) (workers c) (hostSemaphores c) (ctx_done c)
            (wg c).

Definition set_workers (n : nat) (c : Checker) : Checker :=
  mkChecker (store c) (checkInterval c) (maxConcurrency c) (httpTimeout c)
            (shutdownGrace c) n (hostSemaphores c) (ctx_done c) (wg c).

Definition set_hostSemaphores (m : gmap string nat) (c : Checker) : Checker :=
  mkChecker (store c) (checkInterval c) (maxConcurrency c) (httpTimeout c)
            (shutdownGrace c) (workers c) m (ctx_done c) (wg c).

Definition set_ctx_done (b : bool) (c : Checker) : Checker :=
  mkChecker (store c) (checkInterval c) (maxConcurrency c) (httpTimeout c)
            (shutdownGrace c) (workers c) (hostSemaphores c) b (wg c).

Definition set_wg (n : nat) (c : Checker) : Checker :=
  mkChecker (store c) (checkInterval c) (maxConcurrency c) (httpTimeout c)
            (shutdownGrace c) (workers c) (hostSemaphores c) (ctx_done c) n.

(** The capacity of a per-host channel: [make(chan struct{}, 2)]. *)
Definition hostCap : nat := 2.

(** *** The goroutine of [scheduler] / [scheduleChecks]

    The program counter of one scheduler goroutine.  [SchedAdmit rest] is
    the [select] of the [for ... range targets] loop with [rest] the targets
    not yet visited; [SchedSpawn t rest] is the point after the send on
    [c.workers] and before [c.wg.Add(1); go c.checkTarget(t)]. *)
Inductive SchedPC :=
| SchedLoop
| SchedFetch
| SchedAdmit (rest : list Target)
| SchedSpawn (t : Target) (rest : list Target)
| SchedReturn
| SchedExited.

(** What moves a scheduler: the case its [select] picks, a tick of its
    ticker, the answer of the store, or simply its next statement. *)
Inductive SchedEvent :=
| SevCtxDone
| SevTick
| SevFetch (fault : option string)
| SevSend
| SevGo
| SevRangeEnd
| SevDeferred.

(** *** The goroutine of [checkTarget] *)
Inductive TaskPC :=
| TaskStart
| TaskHostWait
| TaskProbe
| TaskSave (r : CheckResult)
| TaskReleaseHost
| TaskReleaseWorker
| TaskWgDone
| TaskExited.

Record Task := mkTask {
  task_target : Target;
  task_pc : TaskPC
}.

Inductive TaskEvent :=
| TevLookup
| TevAcquired
| TevCtxDone
| TevProbe (env : ProbeEnv)
| TevSave (fault : option string)
| TevDeferred.

(** *** A call of [Shutdown]

    [shut_done] is the [done] channel being closed by the goroutine that
    runs [c.wg.Wait()]; [shut_timer] is [time.After(c.shutdownGrace)] having
    fired. *)
Inductive ShutPC :=
| ShutCancel
| ShutSelect
| ShutReturned.

Record ShutCall := mkShutCall {
  shut_pc : ShutPC;
  shut_done : bool;
  shut_timer : bool
}.

Inductive ShutEvent :=
| ShevCancel
| ShevWaitReturns
| ShevGraceElapsed
| ShevSelectDone
| ShevSelectTimer.

Definition msg_graceful : string := "checker shut down gracefully".
Definition msg_timed_out : string := "shutdown timed out, forcing exit".

(** One step of a scheduler goroutine: the new Checker, the new program
    counter, the goroutines it started and the lines it printed.  [None]
    means the goroutine cannot take this step now (it blocks, or the event
    does not belong to its current statement). *)
Definition sched_step (ev : SchedEvent) (c : Checker) (pc : SchedPC)
    : option (Checker * SchedPC * list Task * list string) :=
  match pc, ev with
  (* scheduler: select { case <-c.ctx.Done(): return; case <-ticker.C: ... } *)
  | SchedLoop, SevCtxDone =>
      if ctx_done c then Some (c, SchedReturn, [], []) else None
  | SchedLoop, SevTick => Some (c, SchedFetch, [], [])
  (* scheduleChecks: c.store.GetTargets(c.ctx, "", time.Time{}, "", 1000) *)
  | SchedFetch, SevFetch fault =>
      match GetTargets (mkQueryEnv (ctx_done c) fault) "" GoTime.zero "" 1000
                       (store c) with
      | Err e =>
          Some (c, SchedLoop, [], [("failed to fetch targets: " ++ e)%string])
      | Ok (targets, _) => Some (c, SchedAdmit targets, [], [])
      end
  (* select { case <-c.ctx.Done(): return; case c.workers <- struct{}{}: } *)
  | SchedAdmit (t :: rest), SevCtxDone =>
      if ctx_done c then Some (c, SchedLoop, [], []) else None
  | SchedAdmit (t :: rest), SevSend =>
      if (Z.of_nat (workers c) <? maxConcurrency c)
      then Some (set_workers (S (workers c)) c, SchedSpawn t rest, [], [])
      else None
  | SchedAdmit [], SevRangeEnd => Some (c, SchedLoop, [], [])
  (* c.wg.Add(1); go c.checkTarget(target) *)
  | SchedSpawn t rest, SevGo =>
      Some (set_wg (S (wg c)) c, SchedAdmit rest, [mkTask t TaskStart], [])
  (* deferred: ticker.Stop(); c.wg.Done() *)
  | SchedReturn, SevDeferred =>
      match wg c with
      | S n => Some (set_wg n c, SchedExited, [], [])
      | O => None
      end
  | _, _ => None
  end.

(** [acquireHostSemaphore], the part under [hostMutex]: look the host up
    and create its channel when it is missing. *)
Definition lookup_or_create (host : string) (m : gmap string nat)
    : gmap string nat :=
  match m !! host with
  | Some _ => m
  | None => <[host := 0%nat]> m
  end.

(** One step of a [checkTarget] goroutine. *)
Definition task_step (ev : TaskEvent) (c : Checker) (t : Task)
    : option (Checker * Task * list string) :=
  let target := task_target t in
  let host := Host target in
  match task_pc t, ev with
  | TaskStart, TevLookup =>
      Some (set_hostSemaphores (lookup_or_create host (hostSemaphores c)) c,
            mkTask target TaskHostWait, [])
  (* select { case sem <- struct{}{}: return true;
              case <-c.ctx.Done(): return false } *)
  | TaskHostWait, TevAcquired =>
      match hostSemaphores c !! host with
      | Some n =>
          if (n <? hostCap)%nat
          then Some (set_hostSemaphores (<[host := S n]> (hostSemaphores c)) c,
                     mkTask target TaskProbe, [])
          else None
      | None => None
      end
  | TaskHostWait, TevCtxDone =>
      if ctx_done c then Some (c, mkTask target TaskReleaseWorker, [])
      else None
  (* result := c.performCheck(target) *)
  | TaskProbe, TevProbe env =>
      Some (c, mkTask target (TaskSave (performCheck target env)), [])
  (* c.store.InsertCheckResult(c.ctx, result) *)
  | TaskSave r, TevSave fault =>
      match InsertCheckResult (mkQueryEnv (ctx_done c) fault) r (store c) with
      | (None, db) => Some (set_store db c, mkTask target TaskReleaseHost, [])
      | (Some e, db) =>
          Some (set_store db c, mkTask target TaskReleaseHost,
                [("failed to save check result: " ++ e)%string])
      end
  (* deferred releaseHostSemaphore: if exists { <-sem } *)
  | TaskReleaseHost, TevDeferred =>
      match hostSemaphores c !! host with
      | Some (S n) =>
          Some (set_hostSemaphores (<[host := n]> (hostSemaphores c)) c,
                mkTask target TaskReleaseWorker, [])
      | Some O => None
      | None => Some (c, mkTask target TaskReleaseWorker, [])
      end
  (* deferred <-c.workers *)
  | TaskReleaseWorker, TevDeferred =>
      match workers c with
      | S n => Some (set_workers n c, mkTask target TaskWgDone, [])
      | O => None
      end
  (* deferred c.wg.Done() *)
  | TaskWgDone, TevDeferred =>
      match wg c with
      | S n => Some (set_wg n c, mkTask target TaskExited, [])
      | O => None
      end
  | _, _ => None
  end.

(** One step of a call of [Shutdown] (or of the goroutine and the timer it
    started). *)
Definition shut_step (ev : ShutEvent) (c : Checker) (sh : ShutCall)
    : option (Checker * ShutCall * list string) :=
  match ev, shut_pc sh with
  (* c.cancel(); done := make(chan struct{}); go func() {...}() *)
  | ShevCancel, ShutCancel =>
      Some (set_ctx_done true c,
            mkShutCall ShutSelect (shut_done sh) (shut_timer sh), [])
  (* c.wg.Wait(); close(done) *)
  | ShevWaitReturns, (ShutSelect | ShutReturned) =>
      if Nat.eqb (wg c) 0 && negb (shut_done sh)
      then Some (c, mkShutCall (shut_pc sh) true (shut_timer sh), [])
      else None
  (* time.After(c.shutdownGrace) delivers *)
  | ShevGraceElapsed, ShutSelect =>
      Some (c, mkShutCall ShutSelect (shut_done sh) true, [])
  (* select { case <-done: ...; case <-time.After(...): ... } *)
  | ShevSelectDone, ShutSelect =>
      if shut_done sh
      then Some (c, mkShutCall ShutReturned (shut_done sh) (shut_timer sh),
                 [msg_graceful])
      else None
  | ShevSelectTimer, ShutSelect =>
      if shut_timer sh
      then Some (c, mkShutCall ShutReturned (shut_done sh) (shut_timer sh),
                 [msg_timed_out])
      else None
  | _, _ => None
  end.

(** *** The whole process

    The Checker, every goroutine started so far (finished ones stay in
    their list, so positions are stable), and the lines printed. *)
Record System := mkSystem {
  chk : Checker;
  scheds : list SchedPC;
  tasks : list Task;
  shuts : list ShutCall;
  stdout : list string
}.

Inductive Action :=
| ActStart
| ActShutdown
| ActSched (i : nat) (ev : SchedEvent)
| ActTask (j : nat) (ev : TaskEvent)
| ActShut (k : nat) (ev : ShutEvent)
| ActUpsert (env : UpsertEnv) (canonicalURL host : string).

(** [Start]: [c.wg.Add(1); go c.scheduler()]. *)
Definition Start (s : System) : System :=
  mkSystem (set_wg (S (wg (chk s))) (chk s)) (scheds s ++ [SchedLoop])
           (tasks s) (shuts s) (stdout s).

(** Entering [Shutdown]. *)
Definition Shutdown_call (s : System) : System :=
  mkSystem (chk s) (scheds s) (tasks s)
           (shuts s ++ [mkShutCall ShutCancel false false]) (stdout s).

Definition exec (a : Action) (s : System) : option System :=
  match a with
  | ActStart => Some (Start s)
  | ActShutdown => Some (Shutdown_call s)
  | ActSched i ev =>
      pc ← scheds s !! i;
      '(c, pc', spawned, lines) ← sched_step ev (chk s) pc;
      Some (mkSystem c (<[i := pc']> (scheds s)) (tasks s ++ spawned)
                     (shuts s) (stdout s ++ lines))
  | ActTask j ev =>
      t ← tasks s !! j;
      '(c, t', lines) ← task_step ev (chk s) t;
      Some (mkSystem c (scheds s) (<[j := t']> (tasks s)) (shuts s)
                     (stdout s ++ lines))
  | ActShut k ev =>
      sh ← shuts s !! k;
      '(c, sh', lines) ← shut_step ev (chk s) sh;
      Some (mkSystem c (scheds s) (tasks s) (<[k := sh']> (shuts s))
                     (stdout s ++ lines))
  | ActUpsert env url host =>
      let '(_, db) := UpsertTargetByURL env url host (store (chk s)) in
      Some (mkSystem (set_store db (chk s)) (scheds s) (tasks s) (shuts s)
                     (stdout s))
  end.

Definition step (s s' : System) : Prop := exists a, exec a s = Some s'.

Definition init (c : Checker) : System := mkSystem c [] [] [] [].

(** Running a list of actions in order. *)
Fixpoint run (acts : list Action) (s : System) : option System :=
  match acts with
  | [] => Some s
  | a :: rest =>
      match exec a s with
      | Some s' => run rest s'
      | None => None
      end
  end.

(** The states a freshly made Checker can get into. *)
Inductive reachable (st : DB) (ci ht sg mc : Z) : System -> Prop :=
| reach_init c :
    NewChecker st ci ht sg mc = Some c ->
    reachable st ci ht sg mc (init c)
| reach_step s a s' :
    reachable st ci ht sg mc s ->
    exec a s = Some s' ->
    reachable st ci ht sg mc s'.

(** Counting the elements of a list that satisfy a test. *)
Fixpoint count {A} (p : A -> bool) (l : list A) : nat :=
  match l with
  | [] => 0
  | x :: r => ((if p x then 1 else 0) + count p r)%nat
  end.

(** A task holds a global slot from the moment it is started (the scheduler
    sent the value for it) until it has received from [c.workers]. *)
Definition task_holds_global (t : Task) : bool :=
  match task_pc t with
  | TaskStart | TaskHostWait | TaskProbe | TaskSave _
  | TaskReleaseHost | TaskReleaseWorker => true
  | TaskWgDone | TaskExited => false
  end.

(** A scheduler between its send on [c.workers] and the [go] statement has
    taken the slot for the task it is about to start. *)
Definition sched_holds_global (pc : SchedPC) : bool :=
  match pc with
  | SchedSpawn _ _ => true
  | _ => false
  end.

(** A task holds a slot of its host from its send on the host's channel
    until its receive from it. *)
Definition task_holds_host (h : string) (t : Task) : bool :=
  String.eqb (Host (task_target t)) h &&
  match task_pc t with
  | TaskProbe | TaskSave _ | TaskReleaseHost => true
  | _ => false
  end.

(** The probe of a task is in progress or its result is being saved. *)
Definition task_working (t : Task) : bool :=
  match task_pc t with
  | TaskProbe | TaskSave _ => true
  | _ => false
  end.

Definition global_holders (s : System) : nat :=
  count task_holds_global (tasks s).

Definition host_holders (h : string) (s : System) : nat :=
  count (task_holds_host h) (tasks s).

Definition sched_live (pc : SchedPC) : bool :=
  match pc with SchedExited => false | _ => true end.

Definition task_live (t : Task) : bool :=
  match task_pc t with TaskExited => false | _ => true end.

(** ** [encoding/base64]: [base64.URLEncoding]

    The URL-safe alphabet with [=] padding.  Decoding skips carriage returns
    and line feeds, takes the input four characters at a time, allows
    padding only in the last group and rejects everything else; [None] is
    Go's [CorruptInputError]. *)

Module Base64.

Definition alphabet : list ascii :=
  list_ascii_of_string
    "ABCDEFGHIJKLMNOPQRSTUVWXYZabcdefghijklmnopqrstuvwxyz0123456789-_".

Definition pad : ascii := "="%char.

Definition enc_char (n : Z) : ascii := nth (Z.to_nat n) alphabet "A"%char.

Definition dec_char (c : ascii) : option Z :=
  let n := Chars.to_Z c in
  if Chars.is_upper c then Some (n - 65)
  else if Chars.is_lower c then Some (n - 97 + 26)
  else if Chars.is_digit c then Some (n - 48 + 52)
  else if Ascii.eqb c "-" then Some 62
  else if Ascii.eqb c "_" then Some 63
  else None.

Fixpoint encode_chars (bs : list ascii) : list ascii :=
  match bs with
  | [] => []
  | [a] =>
      let x := Chars.to_Z a in
      [enc_char (x / 4); enc_char (x mod 4 * 16); pad; pad]
  | [a; b] =>
      let x := Chars.to_Z a in
      let y := Chars.to_Z b in
      [enc_char (x / 4); enc_char (x mod 4 * 16 + y / 16);
       enc_char (y mod 16 * 4); pad]
  | a :: b :: c :: rest =>
      let x := Chars.to_Z a in
      let y := Chars.to_Z b in
      let z := Chars.to_Z c in
      enc_char (x / 4) :: enc_char (x mod 4 * 16 + y / 16)
        :: enc_char (y mod 16 * 4 + z / 64) :: enc_char (z mod 64)
        :: encode_chars rest
  end.

Definition is_newline (c : ascii) : bool :=
  Ascii.eqb c (Chars.of_Z 10) || Ascii.eqb c (Chars.of_Z 13).

Fixpoint decode_quanta (l : list ascii) : option (list ascii) :=
  match l with
  | [] => Some []
  | a :: b :: c :: d :: rest =>
      x ← dec_char a;
      y ← dec_char b;
      let b0 := Chars.of_Z (x * 4 + y / 16) in
      if Ascii.eqb c pad then
        if Ascii.eqb d pad && (if rest is [] then true else false)
        then Some [b0] else None
      else
        z ← dec_char c;
        let b1 := Chars.of_Z (y mod 16 * 16 + z / 4) in
        if Ascii.eqb d pad then
          if (if rest is [] then true else false)
          then Some [b0; b1] else None
        else
          w ← dec_char d;
          tl ← decode_quanta rest;
          Some (b0 :: b1 :: Chars.of_Z (z mod 4 * 64 + w) :: tl)
  | _ => None
  end.

Definition EncodeToString (data : string) : string :=
  string_of_list_ascii (encode_chars (list_ascii_of_string data)).

Definition DecodeString (s : string) : option string :=
  string_of_list_ascii <$>
    decode_quanta
      (List.filter (fun c => negb (is_newline c)) (list_ascii_of_string s)).

End Base64.

(** ** [strings.Split(s, sep)] for a one-byte separator *)

Fixpoint split_chars (sep : ascii) (l : list ascii) : list (list ascii) :=
  match l with
  | [] => [[]]
  | c :: r =>
      if Ascii.eqb c sep then [] :: split_chars sep r
      else
        match split_chars sep r with
        | p :: ps => (c :: p) :: ps
        | [] => [[c]]
        end
  end.

Definition Split (s : string) (sep : ascii) : list string :=
  List.map string_of_list_ascii (split_chars sep (list_ascii_of_string s)).

(** ** [internal/http]: page tokens *)

Definition buildCursorToken (createdAt : Time) (id : string) : string :=
  Base64.EncodeToString
    (GoTime.FormatRFC3339 createdAt ++ "|" ++ id)%string.

Definition parseCursorToken (token : string) : Time * string :=
  if String.eqb token "" then (GoTime.zero, ""%string)
  else
    match Base64.DecodeString token with
    | None => (GoTime.zero, ""%string)
    | Some decoded =>
        match Split decoded "|" with
        | [p0; p1] =>
            match GoTime.ParseRFC3339 p0 with
            | None => (GoTime.zero, ""%string)
            | Some createdAt => (createdAt, p1)
            end
        | _ => (GoTime.zero, ""%string)
        end
    end.

(** ** [net/url], as far as [Canonicalize] uses it

    [Parse], [String], [Port], [Hostname] and [ParseQuery] follow Go's
    library for the URLs called plain below: bytes among letters, digits
    and [-._~/:?#=&].  For these no percent-escape is read or written, there
    is no userinfo and no bracketed address, so [Path] is the raw path and
    [EscapedPath] is [Path]. *)

Module GoURL.

Definition plain_char (c : ascii) : bool :=
  Chars.is_upper c || Chars.is_lower c || Chars.is_digit c ||
  existsb (Ascii.eqb c) (list_ascii_of_string "-._~/:?#=&").

Definition plain (s : string) : bool :=
  forallb plain_char (list_ascii_of_string s).

Record URL := mkURL {
  Scheme : string;
  Opaque : string;
  Host : string;
  Path : string;
  RawQuery : string;
  ForceQuery : bool;
  OmitHost : bool;
  Fragment : string
}.

Definition chars : string -> list ascii := list_ascii_of_string.
Definition str : list ascii -> string := string_of_list_ascii.

(** [strings.Cut(s, sep)]: the text before and after the first [sep], and
    whether [sep] was found. *)
Fixpoint cut (sep : ascii) (l : list ascii) : list ascii * list ascii * bool :=
  match l with
  | [] => ([], [], false)
  | c :: r =>
      if Ascii.eqb c sep then ([], r, true)
      else let '(b, a, f) := cut sep r in (c :: b, a, f)
  end.

Definition contains (c : ascii) (l : list ascii) : bool :=
  existsb (Ascii.eqb c) l.

Definition has_prefix (p l : list ascii) : bool :=
  if decide (firstn (length p) l = p) then true else false.

Definition has_suffix (p l : list ascii) : bool :=
  has_prefix (rev p) (rev l).

Definition ToLower (s : string) : string :=
  str (List.map Chars.lower (chars s)).

Inductive SchemeScan :=
| NoScheme
| MissingScheme
| SchemeAt (n : nat).

Fixpoint scan_scheme (i : nat) (l : list ascii) : SchemeScan :=
  match l with
  | [] => NoScheme
  | c :: r =>
      if Chars.is_lower c || Chars.is_upper c then scan_scheme (S i) r
      else if Chars.is_digit c || contains c (chars "+-.") then
        (if Nat.eqb i 0 then NoScheme else scan_scheme (S i) r)
      else if Ascii.eqb c ":" then
        (if Nat.eqb i 0 then MissingScheme else SchemeAt i)
      else NoScheme
  end.

Definition getScheme (raw : list ascii) : result (list ascii * list ascii) :=
  match scan_scheme 0 raw with
  | NoScheme => Ok ([], raw)
  | MissingScheme => Err "missing protocol scheme"%string
  | SchemeAt i => Ok (firstn i raw, skipn (S i) raw)
  end.

(** The position of the last [c] in [l]. *)
Fixpoint last_index (c : ascii) (l : list ascii) : option nat :=
  match l with
  | [] => None
  | x :: r =>
      match last_index c r with
      | Some i => Some (S i)
      | None => if Ascii.eqb x c then Some 0%nat else None
      end
  end.

(** [validOptionalPort]: empty, or a colon followed by digits only. *)
Definition validOptionalPort (port : list ascii) : bool :=
  match port with
  | [] => true
  | c :: ds => Ascii.eqb c ":" && forallb Chars.is_digit ds
  end.

Definition parseHost (host : list ascii) : result (list ascii) :=
  match last_index ":" host with
  | Some i =>
      if validOptionalPort (skipn i host) then Ok host
      else Err "invalid port after host"%string
  | None => Ok host
  end.

Definition count_char (c : ascii) (l : list ascii) : nat :=
  length (List.filter (Ascii.eqb c) l).

Definition parse (raw : list ascii) : result URL :=
  if decide (raw = chars "*") then Ok (mkURL "" "" "" "*" "" false false "")
  else
    match getScheme raw with
    | Err e => Err e
    | Ok (scheme, rest) =>
        let scheme := ToLower (str scheme) in
        let '(rest, rawQuery, forceQuery) :=
          if has_suffix (chars "?") rest && Nat.eqb (count_char "?" rest) 1
          then (removelast rest, [], true)
          else let '(b, a, _) := cut "?" rest in (b, a, false) in
        if negb (has_prefix (chars "/") rest) && negb (String.eqb scheme "")
        then Ok (mkURL scheme (str rest) "" "" (str rawQuery) forceQuery
                       false "")
        else if negb (has_prefix (chars "/") rest)
                && contains ":" (cut "/" rest).1.1
        then Err "first path segment in URL cannot contain colon"%string
        else if has_prefix (chars "//") rest
                && (negb (String.eqb scheme "")
                    || negb (has_prefix (chars "///") rest))
        then
          let '(authority, after, found) := cut "/" (skipn 2 rest) in
          let path := if found then "/"%char :: after else [] in
          match parseHost authority with
          | Err e => Err e
          | Ok host =>
              Ok (mkURL scheme "" (str host) (str path) (str rawQuery)
                        forceQuery false "")
          end
        else
          Ok (mkURL scheme "" "" (str rest) (str rawQuery) forceQuery
                    (negb (String.eqb scheme "")
                     && has_prefix (chars "/") rest) "")
    end.

Definition set_Fragment (f : string) (u : URL) : URL :=
  mkURL (Scheme u) (Opaque u) (Host u) (Path u) (RawQuery u) (ForceQuery u)
        (OmitHost u) f.

Definition set_Scheme (x : string) (u : URL) : URL :=
  mkURL x (Opaque u) (Host u) (Path u) (RawQuery u) (ForceQuery u)
        (OmitHost u) (Fragment u).

Definition set_Host (x : string) (u : URL) : URL :=
  mkURL (Scheme u) (Opaque u) x (Path u) (RawQuery u) (ForceQuery u)
        (OmitHost u) (Fragment u).

Definition set_Path (x : string) (u : URL) : URL :=
  mkURL (Scheme u) (Opaque u) (Host u) x (RawQuery u) (ForceQuery u)
        (OmitHost u) (Fragment u).

Definition set_RawQuery (x : string) (u : URL) : URL :=
  mkURL (Scheme u) (Opaque u) (Host u) (Path u) x (ForceQuery u)
        (OmitHost u) (Fragment u).

(** [url.Parse]. *)
Definition Parse (rawURL : string) : result URL :=
  let '(u, frag, _) := cut "#" (chars rawURL) in
  match parse u with
  | Err e => Err e
  | Ok url => Ok (set_Fragment (str frag) url)
  end.

(** [splitHostPort]. *)
Definition splitHostPort (hostPort : list ascii) : list ascii * list ascii :=
  match last_index ":" hostPort with
  | Some i =>
      if validOptionalPort (skipn i hostPort)
      then (firstn i hostPort, skipn (S i) hostPort)
      else (hostPort, [])
  | None => (hostPort, [])
  end.

Definition Hostname (u : URL) : string :=
  str (splitHostPort (chars (Host u))).1.

Definition Port (u : URL) : string :=
  str (splitHostPort (chars (Host u))).2.

(** [u.String()]. *)
Definition String (u : URL) : string :=
  let scheme_part :=
    if String.eqb (Scheme u) "" then ""%string
    else (Scheme u ++ ":")%string in
  let body :=
    if negb (String.eqb (Opaque u) "") then (scheme_part ++ Opaque u)%string
    else
      let authority :=
        if (negb (String.eqb (Scheme u) "") || negb (String.eqb (Host u) ""))
           && negb (OmitHost u && String.eqb (Host u) "")
        then ((if negb (String.eqb (Host u) "")
                  || negb (String.eqb (Path u) "")
               then "//" else "") ++ Host u)%string
        else ""%string in
      let buf := (scheme_part ++ authority)%string in
      let path := Path u in
      let buf :=
        if negb (String.eqb path "") && negb (has_prefix (chars "/") (chars path))
           && negb (String.eqb (Host u) "")
        then (buf ++ "/")%string else buf in
      let buf :=
        if String.eqb buf "" && contains ":" (cut "/" (chars path)).1.1
        then (buf ++ "./")%string else buf in
      (buf ++ path)%string in
  let with_query :=
    if ForceQuery u || negb (String.eqb (RawQuery u) "")
    then (body ++ "?" ++ RawQuery u)%string else body in
  if negb (String.eqb (Fragment u) "")
  then (with_query ++ "#" ++ Fragment u)%string else with_query.

(** [url.ParseQuery]: the pairs in order of appearance, [None] when a
    piece contains a semicolon.  A piece without [=] has the empty value;
    empty pieces are skipped. *)
Definition parse_piece (piece : list ascii) : option (string * string) :=
  let '(k, v, _) := cut "=" piece in Some (str k, str v).

Definition ParseQuery (query : string) : option (list (string * string)) :=
  let pieces := split_chars "&" (chars query) in
  if existsb (contains ";") pieces then None
  else
    Some (omap (fun piece => if piece is [] then None else parse_piece piece)
               pieces).

End GoURL.

(** ** [internal/model]: [Canonicalize] *)

Definition normalizePath (path : string) : string :=
  if String.eqb path "" || String.eqb path "/" then ""%string
  else if GoURL.has_suffix (GoURL.chars "/") (GoURL.chars path)
  then GoURL.str (removelast (GoURL.chars path))
  else path.

Definition string_le (a b : string) : Prop := String.leb a b = true.

#[global] Instance string_le_dec : RelDecision string_le.
Proof. intros a b. unfold string_le. apply _. Defined.

(** The keys of the parsed query, each once: [for k := range values]
    followed by [sort.Strings(keys)]. *)
Fixpoint distinct (keys : list string) : list string :=
  match keys with
  | [] => []
  | k :: r =>
      if existsb (String.eqb k) r then distinct r else k :: distinct r
  end.

Definition join (sep : string) (parts : list string) : string :=
  match parts with
  | [] => ""%string
  | p :: ps => fold_left (fun acc x => (acc ++ sep ++ x)%string) ps p
  end.

Definition sortQueryParams (rawQuery : string) : string :=
  match GoURL.ParseQuery rawQuery with
  | None => rawQuery
  | Some values =>
      let keys := merge_sort string_le (distinct (List.map fst values)) in
      let pairs :=
        List.concat
          (List.map
             (fun k =>
                List.map (fun kv => (k ++ "=" ++ snd kv)%string)
                  (List.filter (fun kv => String.eqb (fst kv) k) values))
             keys) in
      join "&" pairs
  end.

Definition Canonicalize (raw : string) : result (string * string) :=
  match GoURL.Parse raw with
  | Err e => Err ("invalid URL: " ++ e)%string
  | Ok parsed =>
      if negb (String.eqb (GoURL.Scheme parsed) "http")
         && negb (String.eqb (GoURL.Scheme parsed) "https")
      then Err ("unsupported scheme: " ++ GoURL.Scheme parsed)%string
      else
        let parsed :=
          GoURL.set_Scheme (GoURL.ToLower (GoURL.Scheme parsed)) parsed in
        let parsed :=
          GoURL.set_Host (GoURL.ToLower (GoURL.Host parsed)) parsed in
        let parsed :=
          if String.eqb (GoURL.Scheme parsed) "http"
             && String.eqb (GoURL.Port parsed) "80"
          then GoURL.set_Host (GoURL.Hostname parsed) parsed else parsed in
        let parsed :=
          if String.eqb (GoURL.Scheme parsed) "https"
             && String.eqb (GoURL.Port parsed) "443"
          then GoURL.set_Host (GoURL.Hostname parsed) parsed else parsed in
        let parsed := GoURL.set_Fragment "" parsed in
        let parsed :=
          if negb (String.eqb (GoURL.RawQuery parsed) "")
          then GoURL.set_RawQuery (sortQueryParams (GoURL.RawQuery parsed))
                                  parsed
          else parsed in
        let parsed :=
          GoURL.set_Path (normalizePath (GoURL.Path parsed)) parsed in
        Ok (GoURL.String parsed, GoURL.Host parsed)
  end.

(** ** A small scenario

    Three targets on one host and a checker with two global slots; used
    to exercise the statements below on a concrete run. *)

Definition demo_db : DB :=
  mkDB [mkTargetRow "t_1" "https://example.com" "example.com"
                    "2024-01-01T00:00:00Z";
        mkTargetRow "t_2" "https://example.com/a" "example.com"
                    "2024-01-01T00:00:01Z";
        mkTargetRow "t_3" "https://example.com/b" "example.com"
                    "2024-01-01T00:00:02Z"]
       [] 0.

(** Running a list of actions on a fresh checker. *)
Definition run_from (st : DB) (ci ht sg mc : Z) (acts : list Action)
    : option System :=
  c ← NewChecker st ci ht sg mc;
  run acts (init c).

Definition demo_probe_env : ProbeEnv :=
  mkProbeEnv (GetCompleted (mkResponse 200)) 12
             (GoTime.mkTime 2024 1 1 0 1 0 0 0).

(** Start, one tick, the fetch, two admissions; both tasks take a slot of
    [example.com] and the first one is probing. *)
Definition demo_trace : list Action :=
  [ActStart;
   ActSched 0 SevTick;
   ActSched 0 (SevFetch None);
   ActSched 0 SevSend;
   ActSched 0 SevGo;
   ActSched 0 SevSend;
   ActSched 0 SevGo;
   ActTask 0 TevLookup;
   ActTask 0 TevAcquired;
   ActTask 1 TevLookup;
   ActTask 1 TevAcquired;
   ActTask 0 (TevProbe demo_probe_env)].

Definition demo_state : System :=
  default (mkSystem (mkChecker emptyDB 0 0 0 0 0 ∅ false 0) [] [] [] [])
          (run_from demo_db 15000000000 5000000000 10000000000 2 demo_trace).

(** The third target of the scenario, as the store hands it out. *)
Definition demo_t3 : Target :=
  scan_target (mkTargetRow "t_3" "https://example.com/b" "example.com"
                           "2024-01-01T00:00:02Z").

(** *** What a call of [Shutdown] hands back

    [func (c *Checker) Shutdown()] has no result parameters: a call that
    has returned gives its caller nothing besides the fact of returning. *)
Definition Shutdown_result (sh : ShutCall) : option unit :=
  match shut_pc sh with
  | ShutReturned => Some tt
  | _ => None
  end.

(** A call leaves its [select] cleanly when it takes the [<-done] case. *)
Definition left_cleanly (ev : ShutEvent) : bool :=
  match ev with
  | ShevSelectDone => true
  | _ => false
  end.

(** "The caller learns from the returned value whether shutdown was
    clean": some reading of the returned value tells the two cases of the
    [select] apart. *)
Definition Shutdown_returns_cleanliness : Prop :=
  exists verdict : unit -> bool,
    forall c sh ev c' sh' lines r,
      shut_pc sh = ShutSelect ->
      shut_step ev c sh = Some (c', sh', lines) ->
      Shutdown_result sh' = Some r ->
      verdict r = left_cleanly ev.

(** "Start is idempotent": a second call changes nothing. *)
Definition Start_idempotent : Prop :=
  forall s, Start (Start s) = Start s.

(** A clean shutdown of a checker that was started and is idle: the
    scheduler sees the cancellation and leaves, the wait returns. *)
Definition demo_shutdown_trace : list Action :=
  [ActStart;
   ActShutdown;
   ActShut 0 ShevCancel;
   ActSched 0 SevCtxDone;
   ActSched 0 SevDeferred;
   ActShut 0 ShevWaitReturns].

Definition demo_shutdown_state : System :=
  default (mkSystem (mkChecker emptyDB 0 0 0 0 0 ∅ false 0) [] [] [] [])
          (run_from demo_db 15000000000 5000000000 10000000000 2
                    demo_shutdown_trace).

(** A call of [UpsertTargetByURL] whose statements do not fail. *)
Definition demo_upsert_env : UpsertEnv :=
  mkUpsertEnv (mkQueryEnv false None) (mkQueryEnv false None)
              "6ba7b810-9dad-11d1-80b4-00c04fd430c8"
              (GoTime.mkTime 2024 1 1 0 5 0 123456789 0).

(** *** Tokens that do not read as a cursor *)

(** The id contains the separator of the token. *)
Definition has_bar (id : string) : bool :=
  existsb (Ascii.eqb "|") (list_ascii_of_string id).

(** Bad base64, a number of [|]-separated parts other than two, or a first
    part that is not an RFC 3339 time. *)
Definition malformed (token : string) : Prop :=
  Base64.DecodeString token = None \/
  exists decoded,
    Base64.DecodeString token = Some decoded /\
    (length (Split decoded "|") <> 2%nat \/
     exists p0 p1,
       Split decoded "|" = [p0; p1] /\ GoTime.ParseRFC3339 p0 = None).

(** ** What holds in every reachable state, and the shapes of a step *)

(** [true] as 1, [false] as 0. *)
Definition b2n (b : bool) : nat := if b then 1%nat else 0%nat.

(** The possible steps of a scheduler. *)
Inductive sched_moves (c : Checker) :
  SchedPC -> Checker -> SchedPC -> list Task -> Prop :=
| sm_loop_done :
    ctx_done c = true -> sched_moves c SchedLoop c SchedReturn []
| sm_loop_tick : sched_moves c SchedLoop c SchedFetch []
| sm_fetch_err : sched_moves c SchedFetch c SchedLoop []
| sm_fetch_ok fault targets cur :
    GetTargets (mkQueryEnv (ctx_done c) fault) "" GoTime.zero "" 1000 (store c)
      = Ok (targets, cur) ->
    sched_moves c SchedFetch c (SchedAdmit targets) []
| sm_admit_done t rest :
    ctx_done c = true -> sched_moves c (SchedAdmit (t :: rest)) c SchedLoop []
| sm_admit_send t rest :
    Z.of_nat (workers c) < maxConcurrency c ->
    sched_moves c (SchedAdmit (t :: rest))
                (set_workers (S (workers c)) c) (SchedSpawn t rest) []
| sm_range_end : sched_moves c (SchedAdmit []) c SchedLoop []
| sm_go t rest :
    sched_moves c (SchedSpawn t rest) (set_wg (S (wg c)) c) (SchedAdmit rest)
                [mkTask t TaskStart]
| sm_deferred n :
    wg c = S n -> sched_moves c SchedReturn (set_wg n c) SchedExited [].

(** The possible steps of a task with target [tg]. *)
Inductive task_moves (c : Checker) (tg : Target) :
  TaskPC -> Checker -> TaskPC -> Prop :=
| tm_lookup :
    task_moves c tg TaskStart
      (set_hostSemaphores (lookup_or_create (Host tg) (hostSemaphores c)) c)
      TaskHostWait
| tm_acquired n :
    hostSemaphores c !! Host tg = Some n -> (n < hostCap)%nat ->
    task_moves c tg TaskHostWait
      (set_hostSemaphores (<[Host tg := S n]> (hostSemaphores c)) c) TaskProbe
| tm_ctx_done :
    ctx_done c = true -> task_moves c tg TaskHostWait c TaskReleaseWorker
| tm_probe env :
    task_moves c tg TaskProbe c (TaskSave (performCheck tg env))
| tm_save r fault :
    task_moves c tg (TaskSave r)
      (set_store (InsertCheckResult (mkQueryEnv (ctx_done c) fault) r
                                    (store c)).2 c)
      TaskReleaseHost
| tm_release_host n :
    hostSemaphores c !! Host tg = Some (S n) ->
    task_moves c tg TaskReleaseHost
      (set_hostSemaphores (<[Host tg := n]> (hostSemaphores c)) c)
      TaskReleaseWorker
| tm_release_host_missing :
    hostSemaphores c !! Host tg = None ->
    task_moves c tg TaskReleaseHost c TaskReleaseWorker
| tm_release_worker n :
    workers c = S n ->
    task_moves c tg TaskReleaseWorker (set_workers n c) TaskWgDone
| tm_wg_done n :
    wg c = S n -> task_moves c tg TaskWgDone (set_wg n c) TaskExited.

(** The possible steps of a call of [Shutdown]. *)
Inductive shut_moves (c : Checker) (sh : ShutCall) :
  Checker -> ShutCall -> list string -> Prop :=
| shm_cancel :
    shut_pc sh = ShutCancel ->
    shut_moves c sh (set_ctx_done true c)
      (mkShutCall ShutSelect (shut_done sh) (shut_timer sh)) []
| shm_wait_returns :
    shut_pc sh <> ShutCancel -> wg c = 0%nat -> shut_done sh = false ->
    shut_moves c sh c (mkShutCall (shut_pc sh) true (shut_timer sh)) []
| shm_grace_elapsed :
    shut_pc sh = ShutSelect ->
    shut_moves c sh c (mkShutCall ShutSelect (shut_done sh) true) []
| shm_select_done :
    shut_pc sh = ShutSelect -> shut_done sh = true ->
    shut_moves c sh c
      (mkShutCall ShutReturned (shut_done sh) (shut_timer sh)) [msg_graceful]
| shm_select_timer :
    shut_pc sh = ShutSelect -> shut_timer sh = true ->
    shut_moves c sh c
      (mkShutCall ShutReturned (shut_done sh) (shut_timer sh)) [msg_timed_out].

(** The channel [c.workers] buffers one value per holder of a global slot,
    and never more than its capacity. *)
Definition global_inv (mc : Z) (s : System) : Prop :=
  maxConcurrency (chk s) = mc /\
  workers (chk s)
    = (count sched_holds_global (scheds s) + global_holders s)%nat /\
  Z.of_nat (workers (chk s)) <= mc.

(** The number of values the channel of host [h] buffers (none when the
    host has no channel yet). *)
Definition host_len (s : System) (h : string) : nat :=
  default 0%nat (hostSemaphores (chk s) !! h).

(** The channel of every host buffers one value per holder of a slot of
    that host, and never more than its capacity. *)
Definition host_inv (s : System) : Prop :=
  forall h, host_len s h = host_holders h s /\ (host_len s h <= hostCap)%nat.

(** [wg] counts the scheduler goroutines and tasks that have not yet run
    their [wg.Done()]. *)
Definition wg_inv (s : System) : Prop :=
  wg (chk s) = (count sched_live (scheds s) + count task_live (tasks s))%nat.

(** Some task has been through the lookup of [acquireHostSemaphore] for
    host [h]. *)
Definition host_referenced (s : System) (h : string) : Prop :=
  exists j t, tasks s !! j = Some t /\ Host (task_target t) = h /\
              task_pc t <> TaskStart.

(** A host has a channel exactly when it has been referenced. *)
Definition host_dom_inv (s : System) : Prop :=
  forall h, is_Some (hostSemaphores (chk s) !! h) <-> host_referenced s h.

(** * More of the code: the rest of the store, the HTTP handlers, the
    configuration *)

(** ** [internal/store]: [GetResults] *)

(** [rows.Scan(&r.ID, &r.TargetID, &checked, &r.StatusCode, &r.LatencyMs,
    &r.Error)] followed by [r.CheckedAt = parseTime(checked)]. *)
Definition scan_result (r : ResultRow) : CheckResult :=
  {| ResultID := res_id r;
     TargetID := res_target_id r;
     CheckedAt := parseTime (res_checked_at r);
     StatusCode := res_status_code r;
     LatencyMs := res_latency_ms r;
     Error := res_error r |}.

(** [WHERE target_id = ? AND checked_at >= ?], on TEXT. *)
Definition results_where (targetID since : string) (r : ResultRow) : bool :=
  String.eqb (res_target_id r) targetID
  && String.leb since (res_checked_at r).

(** The key of [ORDER BY checked_at DESC].  Rows with the same
    [checked_at] come in an order the query leaves open; the sort used
    here picks one. *)
Definition res_newer (r1 r2 : ResultRow) : Prop :=
  String.leb (res_checked_at r2) (res_checked_at r1) = true.

#[global] Instance res_newer_dec : RelDecision res_newer.
Proof. intros r1 r2. unfold res_newer. apply _. Defined.

Definition select_results (targetID : string) (since : Time) (limit : Z)
    (db : DB) : list ResultRow :=
  sql_limit limit
    (merge_sort res_newer
       (List.filter (results_where targetID (formatTime since))
                    (check_results db))).

Definition GetResults (env : QueryEnv) (targetID : string) (since : Time)
    (limit : Z) (db : DB) : result (list CheckResult) :=
  match query_error env with
  | Some e => Err ("get results: " ++ e)%string
  | None => Ok (List.map scan_result (select_results targetID since limit db))
  end.

(** ** [internal/store]: idempotency keys

    The table [idempotency_keys], with [key] its primary key.  A response
    body is a Go value behind [interface{}]; [encoding/json] turns it into
    text and back, which the section takes as given: [marshal] is
    [json.Marshal] ([None] when it fails), [unmarshal] is [json.Unmarshal]
    into an [interface{}]. *)

Record IdemRow := mkIdemRow {
  idem_key : string;
  idem_request_hash : string;
  idem_target_id : string;
  idem_response_code : Z;
  idem_response_body : string
}.

Section Idempotency.

Variable Value : Type.
Variable marshal : Value -> option string.
Variable unmarshal : string -> option Value.

(** [IdempotencyResponse]; a nil [ResponseBody] is [None]. *)
Record IdempotencyResponse := mkIdempotencyResponse {
  ResponseCode : Z;
  ResponseBody : option Value
}.

(** [SELECT response_code, response_body FROM idempotency_keys WHERE
    key = ?], read with [QueryRow]. *)
Definition select_idempotency (key : string) (keys : list IdemRow)
    : option IdemRow :=
  List.find (fun r => String.eqb (idem_key r) key) keys.

Definition insert_idempotency (r : IdemRow) (keys : list IdemRow)
    : result (list IdemRow) :=
  if existsb (fun r' => String.eqb (idem_key r') (idem_key r)) keys
  then Err "constraint failed"%string
  else Ok (keys ++ [r]).

(** The two statements' environments of [UpsertIdempotencyKey]. *)
Record IdemEnv := mkIdemEnv {
  idem_select : QueryEnv;
  idem_insert : QueryEnv
}.

Definition UpsertIdempotencyKey (env : IdemEnv)
    (key requestHash targetID : string) (responseCode : Z)
    (responseBody : Value) (keys : list IdemRow)
    : result (IdempotencyResponse * bool) * list IdemRow :=
  match query_error (idem_select env) with
  | Some e => (Err ("check idempotency: " ++ e)%string, keys)
  | None =>
      match select_idempotency key keys with
      | Some r =>
          (* the error of json.Unmarshal is dropped *)
          (Ok (mkIdempotencyResponse (idem_response_code r)
                 (unmarshal (idem_response_body r)), false), keys)
      | None =>
          (* the error of json.Marshal is dropped *)
          let bodyJSON := default ""%string (marshal responseBody) in
          match query_error (idem_insert env) with
          | Some e => (Err ("insert idempotency: " ++ e)%string, keys)
          | None =>
              match insert_idempotency
                      (mkIdemRow key requestHash targetID responseCode
                                 bodyJSON) keys with
              | Err e => (Err ("insert idempotency: " ++ e)%string, keys)
              | Ok keys' =>
                  (Ok (mkIdempotencyResponse responseCode (Some responseBody),
                       true), keys')
              end
          end
      end
  end.

(** [GetIdempotencyKey]: [Ok None] is "no such key". *)
Definition GetIdempotencyKey (env : QueryEnv) (key : string)
    (keys : list IdemRow) : result (option IdempotencyResponse) :=
  match query_error env with
  | Some e => Err ("check idempotency key: " ++ e)%string
  | None =>
      match select_idempotency key keys with
      | None => Ok None
      | Some r =>
          match unmarshal (idem_response_body r) with
          | None => Err "unmarshal cached response"%string
          | Some v =>
              Ok (Some (mkIdempotencyResponse (idem_response_code r) (Some v)))
          end
      end
  end.

End Idempotency.

Arguments mkIdempotencyResponse {Value} _ _.
Arguments ResponseCode {Value} _.
Arguments ResponseBody {Value} _.

(** ** [strconv.Atoi]

    An optional sign, then one or more decimal digits and nothing else;
    the value has to fit a 64-bit [int].  [None] is Go's error. *)

Definition digits_value (ds : list ascii) : option Z :=
  fold_left (fun acc c => a ← acc; d ← Chars.digit_val c; Some (10 * a + d))
            ds (Some 0).

Definition Atoi (s : string) : option Z :=
  match list_ascii_of_string s with
  | [] => None
  | c :: r =>
      let neg := Ascii.eqb c "-" in
      let ds := if neg || Ascii.eqb c "+" then r else c :: r in
      if (if ds is [] then true else false) then None
      else
        n ← digits_value ds;
        let v := if neg then - n else n in
        if (- 2 ^ 63 <=? v) && (v <? 2 ^ 63) then Some v else None
  end.

(** ** [internal/http]: the handlers

    A handler is given what it reads from the request (query parameters,
    the path parameter, the header, the [url] of the decoded body) and
    yields the status code and the value it writes. *)

(** [parseInt(s, min, max)]. *)
Definition parseInt (s : string) (min max : Z) : result Z :=
  match Atoi s with
  | None => Err "invalid syntax"%string
  | Some val =>
      if (val <? min) || (max <? val)
      then Err "value must be between min and max"%string
      else Ok val
  end.

(** [limit := dflt; if limitParam != "" { if parsed, err :=
    parseInt(limitParam, 1, max); err == nil { limit = parsed } }]. *)
Definition limit_param (limitParam : string) (dflt max : Z) : Z :=
  if String.eqb limitParam "" then dflt
  else
    match parseInt limitParam 1 max with
    | Ok parsed => parsed
    | Err _ => dflt
    end.

Record ListTargetsResponse := mkListTargetsResponse {
  lt_items : list Target;
  lt_next_page_token : string
}.

(** [listTargets], GET /v1/targets. *)
Definition listTargets (env : QueryEnv) (host limitParam pageToken : string)
    (db : DB) : Z * result ListTargetsResponse :=
  let limit := limit_param limitParam 20 100 in
  let '(afterTime, afterID) := parseCursorToken pageToken in
  match GetTargets env host afterTime afterID limit db with
  | Err e => (500, Err ("failed to fetch targets: " ++ e)%string)
  | Ok (targets, cursor) =>
      (200,
       Ok (mkListTargetsResponse targets
             match cursor with
             | Some c => buildCursorToken (CursorCreatedAt c) (CursorID c)
             | None => ""%string
             end))
  end.

(** [getResults], GET /v1/targets/{targetID}/results. *)
Definition getResults (env : QueryEnv) (targetID sinceParam limitParam : string)
    (db : DB) : Z * result (list CheckResult) :=
  if String.eqb targetID "" then (400, Err "target ID is required"%string)
  else
    let since :=
      if String.eqb sinceParam "" then Some GoTime.zero
      else GoTime.ParseRFC3339 sinceParam in
    match since with
    | None =>
        (400, Err "invalid since timestamp format, use RFC3339"%string)
    | Some since =>
        let limit := limit_param limitParam 50 200 in
        match GetResults env targetID since limit db with
        | Err e => (500, Err ("failed to fetch results: " ++ e)%string)
        | Ok results => (200, Ok results)
        end
    end.

(** The whole store the handlers of POST /v1/targets work on. *)
Record Store := mkStore {
  st_db : DB;
  st_keys : list IdemRow
}.

Section CreateTarget.

Variable Value : Type.
Variable marshal : Value -> option string.
Variable unmarshal : string -> option Value.
(** A [*Target] passed as [interface{}]. *)
Variable target_value : Target -> Value.
(** [createRequestHash]: the hexadecimal SHA-256 of the request URL. *)
Variable createRequestHash : string -> string.

(** What a handler writes: [writeJSON] of a value (a nil value is
    [None]) or [writeError]. *)
Inductive Body :=
| BodyValue (v : option Value)
| BodyError (msg : string).

(** What [createTarget] reads from its surroundings. *)
Record CreateEnv := mkCreateEnv {
  ce_check : QueryEnv;
  ce_upsert : UpsertEnv;
  ce_store_key : IdemEnv
}.

(** [createTarget], POST /v1/targets.  [body] is the [url] field of the
    decoded JSON body, [None] when the body does not decode;
    [idempotencyKey] is the header, empty when absent.  The last component
    is what the handler prints to the standard output. *)
Definition createTarget (env : CreateEnv) (body : option string)
    (idempotencyKey : string) (st : Store)
    : Z * Body * Store * list string :=
  match body with
  | None => (400, BodyError "invalid JSON body", st, [])
  | Some reqURL =>
      match Canonicalize reqURL with
      | Err e => (400, BodyError ("invalid URL: " ++ e), st, [])
      | Ok (canonicalURL, host) =>
          let cached :=
            if String.eqb idempotencyKey "" then Ok None
            else GetIdempotencyKey Value unmarshal (ce_check env)
                                   idempotencyKey (st_keys st) in
          match cached with
          | Err e =>
              (500, BodyError ("idempotency check failed: " ++ e), st, [])
          | Ok (Some cachedResponse) =>
              (200, BodyValue (ResponseBody cachedResponse), st, [])
          | Ok None =>
              match UpsertTargetByURL (ce_upsert env) canonicalURL host
                                      (st_db st) with
              | (Err e, db) =>
                  (500, BodyError ("database error: " ++ e),
                   mkStore db (st_keys st), [])
              | (Ok (target, created), db) =>
                  let status := if created then 201 else 200 in
                  let '(keys, printed) :=
                    if String.eqb idempotencyKey "" then (st_keys st, [])
                    else
                      match UpsertIdempotencyKey Value marshal unmarshal
                              (ce_store_key env) idempotencyKey
                              (createRequestHash reqURL) (ID target) status
                              (target_value target) (st_keys st) with
                      | (Err e, keys) =>
                          (keys,
                           [("Failed to store idempotency result: " ++ e)
                              %string])
                      | (Ok _, keys) => (keys, [])
                      end in
                  (status, BodyValue (Some (target_value target)),
                   mkStore db keys, printed)
              end
          end
      end
  end.

End CreateTarget.

Arguments BodyValue {Value} _.
Arguments BodyError {Value} _.

(** ** [internal/config]

    [getenv] is [os.Getenv]; [ParseDuration] is [time.ParseDuration],
    taken as given. *)

Record Config := mkConfig {
  DatabaseURL : string;
  CheckInterval : Z;
  MaxConcurrency : Z;
  HTTPTimeout : Z;
  ShutdownGrace : Z
}.

Definition second_ns : Z := 1000000000.
Definition defaultDBURL : string :=
  "file:linkwatch.db?_pragma=busy_timeout(5000)".
Definition defaultCheckInterval : Z := 15 * second_ns.
Definition defaultMaxConcurrency : Z := 8.
Definition defaultHTTPTimeout : Z := 5 * second_ns.
Definition defaultShutdownGrace : Z := 10 * second_ns.

Section ConfigLoad.

Variable getenv : string -> string.
Variable ParseDuration : string -> result Z.

Definition getEnvString (key fallback : string) : string :=
  if String.eqb (getenv key) "" then fallback else getenv key.

Definition getEnvDuration (key : string) (fallback : Z) : result Z :=
  if String.eqb (getenv key) "" then Ok fallback
  else ParseDuration (getenv key).

Definition getEnvInt (key : string) (fallback : Z) : result Z :=
  if String.eqb (getenv key) "" then Ok fallback
  else
    match Atoi (getenv key) with
    | Some i =>
        if i <=? 0 then Err "must be positive integer"%string else Ok i
    | None => Err "must be positive integer"%string
    end.

Definition Load : result Config :=
  let db := getEnvString "DATABASE_URL" defaultDBURL in
  match getEnvDuration "CHECK_INTERVAL" defaultCheckInterval with
  | Err e => Err ("invalid CHECK_INTERVAL: " ++ e)%string
  | Ok ci =>
      match getEnvInt "MAX_CONCURRENCY" defaultMaxConcurrency with
      | Err e => Err ("invalid MAX_CONCURRENCY: " ++ e)%string
      | Ok mc =>
          match getEnvDuration "HTTP_TIMEOUT" defaultHTTPTimeout with
          | Err e => Err ("invalid HTTP_TIMEOUT: " ++ e)%string
          | Ok ht =>
              match getEnvDuration "SHUTDOWN_GRACE" defaultShutdownGrace with
              | Err e => Err ("invalid SHUTDOWN_GRACE: " ++ e)%string
              | Ok sg => Ok (mkConfig db ci mc ht sg)
              end
          end
      end
  end.

(** [main]: the checker is made from the loaded configuration,
    [checker.NewChecker(st, cfg.CheckInterval, cfg.HTTPTimeout,
    cfg.ShutdownGrace, cfg.MaxConcurrency)]. *)
Definition checker_of_config (st : DB) (cfg : Config) : option Checker :=
  NewChecker st (CheckInterval cfg) (HTTPTimeout cfg) (ShutdownGrace cfg)
             (MaxConcurrency cfg).

End ConfigLoad.

(** ** Notions used to state the further properties *)

(** The host condition of [GetTargets]. *)
Definition host_matches (hostFilter : string) (r : TargetRow) : bool :=
  if String.eqb hostFilter "" then true
  else String.eqb (row_host r) hostFilter.

(** The cursor condition of [GetTargets]:
    [created_at > ? OR (created_at = ? AND id > ?)]. *)
Definition row_after (ts id : string) (x : TargetRow) : bool :=
  text_ltb ts (row_created_at x)
  || (String.eqb (row_created_at x) ts && text_ltb id (row_id x)).

(** The query of [GetTargets] without its LIMIT. *)
Definition rows_selected (hostFilter : string) (after : Time)
    (afterID : string) (db : DB) : list TargetRow :=
  order_by_created_at_id
    (List.filter (targets_where hostFilter after afterID) (targets db)).

(** The stored [created_at] is what [formatTime] prints for the time
    [parseTime] reads from it, and that time is not the zero time: true of
    every row [UpsertTargetByURL] writes at a time with a four-digit
    year. *)
Definition canonical_row (r : TargetRow) : bool :=
  String.eqb (formatTime (parseTime (row_created_at r))) (row_created_at r)
  && negb (GoTime.IsZero (parseTime (row_created_at r))).

(** The rest of a list after what [LIMIT n] keeps. *)
Definition beyond_limit {A} (n : Z) (rows : list A) : list A :=
  if n <? 0 then [] else skipn (Z.to_nat n) rows.

(** No id of the table contains the separator of the page tokens; ids
    are ["t_"] followed by a UUID. *)
Definition ids_without_bar (db : DB) : bool :=
  forallb (fun r => negb (has_bar (row_id r))) (targets db).

(** What RFC 3339 text keeps of a time: everything but the nanoseconds. *)
Definition whole_seconds (t : Time) : Time :=
  GoTime.mkTime (GoTime.year t) (GoTime.month t) (GoTime.day t)
                (GoTime.hour t) (GoTime.minute t) (GoTime.second t) 0
                (GoTime.zone t).

(** A row of [check_results] has a status code or an error, not both and
    not neither. *)
Definition result_row_ok (r : ResultRow) : bool :=
  match res_status_code r, res_error r with
  | Some _, None | None, Some _ => true
  | _, _ => false
  end.

(** The table [check_results] as the checker keeps it: every row has
    exactly one of status code and error, the ids are those handed out so
    far and grow along the table. *)
Definition results_ok (db : DB) : Prop :=
  Forall (fun r => result_row_ok r = true /\ res_id r <= results_seq db)
         (check_results db) /\
  StronglySorted (fun a b => res_id a < res_id b) (check_results db).

(** How far a task has got in [checkTarget]. *)
Definition task_rank (pc : TaskPC) : nat :=
  match pc with
  | TaskStart => 0
  | TaskHostWait => 1
  | TaskProbe => 2
  | TaskSave _ => 3
  | TaskReleaseHost => 4
  | TaskReleaseWorker => 5
  | TaskWgDone => 6
  | TaskExited => 7
  end.

(** The row [InsertCheckResult] writes for a result. *)
Definition result_row (id : Z) (r : CheckResult) : ResultRow :=
  mkResultRow id (TargetID r) (formatTime (CheckedAt r)) (StatusCode r)
              (LatencyMs r) (Error r).

(** A result waiting to be saved is the one [performCheck] made for the
    target of its task. *)
Definition pending_inv (s : System) : Prop :=
  forall j t r, tasks s !! j = Some t -> task_pc t = TaskSave r ->
    exists env, r = performCheck (task_target t) env.

(** The task is past the call of [InsertCheckResult] in [checkTarget]. *)
Definition task_past_save (t : Task) : bool :=
  (4 <=? task_rank (task_pc t))%nat.

(** The rows [added] to [check_results] since the checker was made over the
    store [st]: no more of them than tasks past their save, each for the
    target of a task. *)
Definition stored_inv (st : DB) (s : System) : Prop :=
  exists added,
    check_results (store (chk s)) = check_results st ++ added /\
    (length added <= count task_past_save (tasks s))%nat /\
    Forall (fun row => exists j t, tasks s !! j = Some t /\
                         task_past_save t = true /\
                         res_target_id row = ID (task_target t)) added.

(** The scenario of [demo_trace], with the first task saving its result. *)
Definition demo_saved_trace : list Action :=
  demo_trace ++ [ActTask 0 (TevSave None)].

Definition demo_saved_state : System :=
  default (mkSystem (mkChecker emptyDB 0 0 0 0 0 ∅ false 0) [] [] [] [])
          (run_from demo_db 15000000000 5000000000 10000000000 2
                    demo_saved_trace).


(** A table of results: two checks of [t_1], one of [t_2]. *)
Definition demo_results_db : DB :=
  mkDB (targets demo_db)
       [mkResultRow 1 "t_1" "2024-01-01T00:01:00Z" (Some 200) 12 None;
        mkResultRow 2 "t_2" "2024-01-01T00:01:01Z" (Some 404) 7 None;
        mkResultRow 3 "t_1" "2024-01-01T00:02:00Z" None 5000
                    (Some "context deadline exceeded")]
       3.

(** A request handled without faults, and the store it meets. *)
Definition demo_create_env : CreateEnv :=
  mkCreateEnv (mkQueryEnv false None) demo_upsert_env
              (mkIdemEnv (mkQueryEnv false None) (mkQueryEnv false None)).

Definition demo_store : Store := mkStore demo_db [].

(** The answer to a first POST of a new URL with the key ["key-1"]; bodies
    are shown by the id of the target, and taken to be their own JSON. *)
Definition demo_created : Z * Body string * Store * list string :=
  createTarget string Some Some ID (fun u => u) demo_create_env
               (Some "HTTP://Example.com/c/"%string) "key-1" demo_store.

(** An environment that sets MAX_CONCURRENCY and HTTP_TIMEOUT only, and
    a [time.ParseDuration] that knows ["2s"]. *)
Definition demo_getenv (key : string) : string :=
  if String.eqb key "MAX_CONCURRENCY" then "4"
  else if String.eqb key "HTTP_TIMEOUT" then "2s"
  else "".

Definition demo_ParseDuration (s : string) : result Z :=
  if String.eqb s "2s" then Ok (2 * second_ns)
  else Err "time: invalid duration"%string.

(** The statements of [Canonicalize] after [url.Parse] has succeeded, one
    by one. *)
Definition lower_scheme_host (u : GoURL.URL) : GoURL.URL :=
  let u := GoURL.set_Scheme (GoURL.ToLower (GoURL.Scheme u)) u in
  GoURL.set_Host (GoURL.ToLower (GoURL.Host u)) u.

Definition drop_port (scheme port : string) (u : GoURL.URL) : GoURL.URL :=
  if String.eqb (GoURL.Scheme u) scheme && String.eqb (GoURL.Port u) port
  then GoURL.set_Host (GoURL.Hostname u) u else u.

Definition sort_query (u : GoURL.URL) : GoURL.URL :=
  if negb (String.eqb (GoURL.RawQuery u) "")
  then GoURL.set_RawQuery (sortQueryParams (GoURL.RawQuery u)) u
  else u.

Definition normalize_path (u : GoURL.URL) : GoURL.URL :=
  GoURL.set_Path (normalizePath (GoURL.Path u)) u.

Definition canonical_of (parsed : GoURL.URL) : result (string * string) :=
  if negb (String.eqb (GoURL.Scheme parsed) "http")
     && negb (String.eqb (GoURL.Scheme parsed) "https")
  then Err ("unsupported scheme: " ++ GoURL.Scheme parsed)%string
  else
    let parsed :=
      normalize_path
        (sort_query
           (GoURL.set_Fragment ""
              (drop_port "https" "443"
                 (drop_port "http" "80" (lower_scheme_host parsed))))) in
    Ok (GoURL.String parsed, GoURL.Host parsed).

(** *** What is left to do once the context is cancelled *)

(** The sum of a measure over a list. *)
Fixpoint total {A} (f : A -> nat) (l : list A) : nat :=
  match l with
  | [] => 0
  | x :: r => (f x + total f r)%nat
  end.

(** The steps a cancelled scheduler has before it, counting seven for the
    task it is about to start. *)
Definition sched_weight (pc : SchedPC) : nat :=
  match pc with
  | SchedExited => 0
  | SchedReturn => 1
  | SchedLoop => 2
  | SchedAdmit _ => 3
  | SchedFetch => 4
  | SchedSpawn _ _ => 11
  end.

Definition task_weight (t : Task) : nat := (7 - task_rank (task_pc t))%nat.

Definition work_left (s : System) : nat :=
  (total sched_weight (scheds s) + total task_weight (tasks s))%nat.

(** A step taken by a scheduler or task goroutine itself. *)
Definition goroutine_step (a : Action) : bool :=
  match a with
  | ActSched _ _ | ActTask _ _ => true
  | _ => false
  end.

(** The scenario of [demo_trace], then a call of [Shutdown] that has
    cancelled the context. *)
Definition demo_cancelled_trace : list Action :=
  demo_trace ++ [ActShutdown; ActShut 0 ShevCancel].

Definition demo_cancelled_state : System :=
  default (mkSystem (mkChecker emptyDB 0 0 0 0 0 ∅ false 0) [] [] [] [])
          (run_from demo_db 15000000000 5000000000 10000000000 2
                    demo_cancelled_trace).

(** * Properties *)

(** C1: [performCheck] yields one result per call; a failed GET gives a
    result with the error message and no status code, a completed GET (any
    status code at all) gives a result with that status code and no error;
    so exactly one of the two fields is populated. *)
Theorem performCheck_one_of_status_error :
  forall (target : Target) (env : ProbeEnv),
    let r := performCheck target env in
    TargetID r = ID target /\
    LatencyMs r = probe_latency env /\
    exactly_one_populated r /\
    (forall resp err, probe_outcome env = GetFailed resp err ->
       Error r = Some err /\ StatusCode r = None) /\
    (forall resp, probe_outcome env = GetCompleted resp ->
       StatusCode r = Some (RespStatusCode resp) /\ Error r = None).
Proof.
  intros target env r. subst r. unfold performCheck, exactly_one_populated.
  destruct (probe_outcome env) as [resp err | resp]; simpl.
  - split; [reflexivity|]. split; [reflexivity|].
    split; [right; split; [reflexivity | eexists; reflexivity]|].
    split.
    + intros resp' err' Heq. inversion Heq; subst. split; reflexivity.
    + intros resp' Heq. discriminate Heq.
  - split; [reflexivity|]. split; [reflexivity|].
    split; [left; split; [eexists; reflexivity | reflexivity]|].
    split.
    + intros resp' err' Heq. discriminate Heq.
    + intros resp' Heq. inversion Heq; subst. split; reflexivity.
Qed.


(** ** Counting under list updates *)

Lemma count_app {A} (p : A -> bool) (l1 l2 : list A) :
  count p (l1 ++ l2) = (count p l1 + count p l2)%nat.
Proof.
  induction l1 as [|x l1 IH]; simpl; [reflexivity|].
  rewrite IH. lia.
Qed.

Lemma count_insert {A} (p : A -> bool) (l : list A) (i : nat) (x y : A) :
  l !! i = Some y ->
  (count p (<[i := x]> l) + b2n (p y) = count p l + b2n (p x))%nat.
Proof.
  revert i. induction l as [|z l IH]; intros i Hi; [discriminate|].
  destruct i as [|i]; simpl in *.
  - inversion Hi; subst. unfold b2n. destruct (p x), (p y); lia.
  - specialize (IH i Hi). lia.
Qed.

Lemma count_le_length {A} (p : A -> bool) (l : list A) :
  (count p l <= length l)%nat.
Proof. induction l as [|x l IH]; simpl; [lia|]. destruct (p x); lia. Qed.

Lemma count_pos_elem {A} (p : A -> bool) (l : list A) :
  (0 < count p l)%nat -> exists x, In x l /\ p x = true.
Proof.
  induction l as [|x l IH]; simpl; [lia|].
  destruct (p x) eqn:Hp.
  - intros _. exists x. auto.
  - intros H. destruct (IH H) as (y & Hy & Hpy). exists y. auto.
Qed.

Lemma count_zero_all {A} (p : A -> bool) (l : list A) :
  count p l = 0%nat -> forall x, In x l -> p x = false.
Proof.
  induction l as [|x l IH]; simpl; [tauto|].
  intros H y [-> | Hy].
  - destruct (p y); [discriminate | reflexivity].
  - apply IH; [destruct (p x); [discriminate | assumption] | assumption].
Qed.

(** ** Steps of the process, case by case *)

(** Splits [exec a s = Some s'] into the kind of action and exposes the
    step of the goroutine that moved. *)
Ltac exec_inv H :=
  match type of H with
  | exec ?a ?s = Some ?s' =>
      let i := fresh "i" in
      let ev := fresh "ev" in
      let env := fresh "env" in
      let url := fresh "url" in
      let host := fresh "host" in
      destruct a as [ | | i ev | i ev | i ev | env url host];
      simpl in H;
      [ inversion H; subst s'; clear H
      | inversion H; subst s'; clear H
      | let pc := fresh "pc" in
        let Hpc := fresh "Hpc" in
        let Hst := fresh "Hst" in
        destruct (scheds s !! i) as [pc|] eqn:Hpc; simpl in H;
        [|discriminate H];
        destruct (sched_step ev (chk s) pc) as [[[[? ?] ?] ?]|] eqn:Hst;
        simpl in H; [|discriminate H];
        inversion H; subst s'; clear H
      | let t := fresh "t" in
        let Ht := fresh "Ht" in
        let Hst := fresh "Hst" in
        destruct (tasks s !! i) as [t|] eqn:Ht; simpl in H;
        [|discriminate H];
        destruct (task_step ev (chk s) t) as [[[? ?] ?]|] eqn:Hst;
        simpl in H; [|discriminate H];
        inversion H; subst s'; clear H
      | let sh := fresh "sh" in
        let Hsh := fresh "Hsh" in
        let Hst := fresh "Hst" in
        destruct (shuts s !! i) as [sh|] eqn:Hsh; simpl in H;
        [|discriminate H];
        destruct (shut_step ev (chk s) sh) as [[[? ?] ?]|] eqn:Hst;
        simpl in H; [|discriminate H];
        inversion H; subst s'; clear H
      | let r := fresh "r" in
        let db := fresh "db" in
        let Hup := fresh "Hup" in
        destruct (UpsertTargetByURL env url host (store (chk s)))
          as [r db] eqn:Hup;
        inversion H; subst s'; clear H ]
  end.

Lemma sched_step_moves ev c pc c' pc' spawned lines :
  sched_step ev c pc = Some (c', pc', spawned, lines) ->
  sched_moves c pc c' pc' spawned.
Proof.
  intros H. destruct pc as [ | | [|t rest] | t rest | | ], ev;
    simpl in H; try discriminate H.
  - destruct (ctx_done c) eqn:Hd; inversion H; subst. by constructor.
  - inversion H; subst. constructor.
  - destruct (GetTargets _ _ _ _ _ _) as [[targets cur]|e] eqn:Hg;
      inversion H; subst.
    + econstructor; eassumption.
    + constructor.
  - inversion H; subst. constructor.
  - destruct (ctx_done c) eqn:Hd; inversion H; subst. by constructor.
  - destruct (Z.of_nat (workers c) <? maxConcurrency c) eqn:Hw;
      inversion H; subst. constructor. lia.
  - inversion H; subst. constructor.
  - destruct (wg c) as [|n] eqn:Hn; inversion H; subst. by constructor.
Qed.

Lemma task_step_moves ev c t c' t' lines :
  task_step ev c t = Some (c', t', lines) ->
  task_target t' = task_target t /\
  task_moves c (task_target t) (task_pc t) c' (task_pc t').
Proof.
  intros H. destruct t as [tg pc]. unfold task_step in H. simpl in *.
  destruct pc, ev; try discriminate H.
  - inversion H; subst. split; [reflexivity|]. constructor.
  - destruct (hostSemaphores c !! Host tg) as [n|] eqn:Hn; [|discriminate H].
    destruct (n <? hostCap)%nat eqn:Hlt; inversion H; subst.
    split; [reflexivity|]. simpl. constructor; [assumption|].
    by apply Nat.ltb_lt.
  - destruct (ctx_done c) eqn:Hd; inversion H; subst.
    split; [reflexivity|]. by constructor.
  - inversion H; subst. split; [reflexivity|]. constructor.
  - pose proof (tm_save c tg r fault) as Hm.
    destruct (InsertCheckResult _ r (store c)) as [[e|] db];
      inversion H; subst; split; try reflexivity; exact Hm.
  - destruct (hostSemaphores c !! Host tg) as [[|n]|] eqn:Hn;
      inversion H; subst; split; try reflexivity.
    + by constructor.
    + by constructor.
  - destruct (workers c) as [|n] eqn:Hn; inversion H; subst.
    split; [reflexivity|]. by constructor.
  - destruct (wg c) as [|n] eqn:Hn; inversion H; subst.
    split; [reflexivity|]. by constructor.
Qed.

Lemma shut_step_moves ev c sh c' sh' lines :
  shut_step ev c sh = Some (c', sh', lines) -> shut_moves c sh c' sh' lines.
Proof.
  intros H. unfold shut_step in H.
  pose proof (shm_wait_returns c sh) as Hwait.
  pose proof (shm_select_done c sh) as Hdone.
  pose proof (shm_select_timer c sh) as Htimer.
  destruct ev, (shut_pc sh) eqn:Hpc; try discriminate H.
  - inversion H; subst. by constructor.
  - destruct (Nat.eqb (wg c) 0) eqn:Hw; simpl in H; [|discriminate H].
    destruct (shut_done sh) eqn:Hd; simpl in H; inversion H; subst.
    apply Hwait; [congruence | by apply Nat.eqb_eq | done].
  - destruct (Nat.eqb (wg c) 0) eqn:Hw; simpl in H; [|discriminate H].
    destruct (shut_done sh) eqn:Hd; simpl in H; inversion H; subst.
    apply Hwait; [congruence | by apply Nat.eqb_eq | done].
  - inversion H; subst. by constructor.
  - destruct (shut_done sh) eqn:Hd; inversion H; subst. by apply Hdone.
  - destruct (shut_timer sh) eqn:Hd; inversion H; subst. by apply Htimer.
Qed.

(** ** The global limiter *)

Lemma NewChecker_fields st ci ht sg mc c :
  NewChecker st ci ht sg mc = Some c ->
  0 <= mc /\
  c = mkChecker st ci mc ht sg 0 ∅ false 0.
Proof.
  unfold NewChecker. destruct (mc <? 0) eqn:Hmc; intros H; inversion H.
  split; [lia | reflexivity].
Qed.

Lemma global_inv_init st ci ht sg mc c :
  NewChecker st ci ht sg mc = Some c -> global_inv mc (init c).
Proof.
  intros H. apply NewChecker_fields in H as [Hmc ->].
  unfold global_inv, global_holders. simpl. repeat split; lia.
Qed.

Lemma global_inv_step mc a s s' :
  global_inv mc s -> exec a s = Some s' -> global_inv mc s'.
Proof.
  unfold global_inv, global_holders.
  intros (Hmc & Hw & Hle) H. exec_inv H; simpl.
  - rewrite count_app. simpl. repeat split; [assumption | lia | assumption].
  - repeat split; assumption.
  - apply sched_step_moves in Hst.
    pose proof (count_insert sched_holds_global _ _ s0 _ Hpc) as Hc.
    rewrite count_app.
    inversion Hst; subst; simpl in *; unfold b2n in Hc; simpl in Hc;
      repeat split; try assumption; lia.
  - apply task_step_moves in Hst as [Htg Hst].
    pose proof (count_insert task_holds_global _ _ t0 _ Ht) as Hc.
    destruct t as [tg pc], t0 as [tg0 pc0]. simpl in Htg, Hst. subst tg0.
    inversion Hst; subst; cbn in Hc; simpl in *;
      repeat split; try assumption; lia.
  - apply shut_step_moves in Hst.
    inversion Hst; subst; simpl; repeat split; assumption.
  - repeat split; assumption.
Qed.

Lemma global_inv_reachable st ci ht sg mc s :
  reachable st ci ht sg mc s -> global_inv mc s.
Proof.
  induction 1 as [c Hc | s a s' _ IH Hexec].
  - eapply global_inv_init; eassumption.
  - eapply global_inv_step; eassumption.
Qed.

(** ** The per-host limiter *)

Lemma lookup_or_create_default h0 h (m : gmap string nat) :
  default 0%nat (lookup_or_create h0 m !! h) = default 0%nat (m !! h).
Proof.
  unfold lookup_or_create. destruct (m !! h0) as [n|] eqn:Hn; [reflexivity|].
  destruct (decide (h0 = h)) as [->|Hne].
  - rewrite lookup_insert_eq, Hn. reflexivity.
  - rewrite lookup_insert_ne by assumption. reflexivity.
Qed.

Lemma task_holds_host_start h t :
  task_holds_host h (mkTask t TaskStart) = false.
Proof. unfold task_holds_host. simpl. apply andb_false_r. Qed.

Lemma host_inv_init st ci ht sg mc c :
  NewChecker st ci ht sg mc = Some c -> host_inv (init c).
Proof.
  intros H. apply NewChecker_fields in H as [_ ->]. intros h.
  unfold host_len, host_holders, hostCap. simpl. rewrite lookup_empty. simpl.
  split; lia.
Qed.

Lemma host_inv_step a s s' :
  host_inv s -> exec a s = Some s' -> host_inv s'.
Proof.
  unfold host_inv, host_len, host_holders.
  intros IH H h. specialize (IH h) as [IHc IHb]. exec_inv H; simpl.
  - split; assumption.
  - split; assumption.
  - apply sched_step_moves in Hst. rewrite count_app.
    inversion Hst; subst; simpl; rewrite ?task_holds_host_start;
      split; try assumption; lia.
  - apply task_step_moves in Hst as [Htg Hst].
    pose proof (count_insert (task_holds_host h) _ _ t0 _ Ht) as Hc.
    destruct t as [tg pc], t0 as [tg0 pc0]. simpl in Htg, Hst. subst tg0.
    unfold task_holds_host in Hc at 2 4.
    destruct (String.eqb (Host tg) h) eqn:Heq;
      [apply String.eqb_eq in Heq as Hh | apply String.eqb_neq in Heq as Hh].
    + subst h.
      inversion Hst; subst; cbn in Hc; rewrite ?Heq in Hc; cbn in Hc;
        simpl; rewrite ?lookup_or_create_default, ?lookup_insert_eq;
        simpl in *;
        repeat match goal with
               | Hn : hostSemaphores _ !! _ = _ |- _ =>
                   rewrite Hn in IHc, IHb; simpl in IHc, IHb; clear Hn
               end;
        split; try assumption; unfold hostCap in *; lia.
    + inversion Hst; subst; cbn in Hc; rewrite ?Heq in Hc; cbn in Hc;
        simpl; rewrite ?lookup_or_create_default;
        rewrite ?(lookup_insert_ne (hostSemaphores (chk s))) by assumption;
        simpl in *; split; try assumption; lia.
  - apply shut_step_moves in Hst.
    inversion Hst; subst; simpl; split; assumption.
  - split; assumption.
Qed.

Lemma host_inv_reachable st ci ht sg mc s :
  reachable st ci ht sg mc s -> host_inv s.
Proof.
  induction 1 as [c Hc | s a s' _ IH Hexec].
  - eapply host_inv_init; eassumption.
  - eapply host_inv_step; eassumption.
Qed.

(** ** The wait group *)

Lemma wg_inv_init st ci ht sg mc c :
  NewChecker st ci ht sg mc = Some c -> wg_inv (init c).
Proof.
  intros H. apply NewChecker_fields in H as [_ ->]. reflexivity.
Qed.

Lemma wg_inv_step a s s' :
  wg_inv s -> exec a s = Some s' -> wg_inv s'.
Proof.
  unfold wg_inv. intros IH H. exec_inv H; simpl.
  - rewrite count_app. simpl. lia.
  - assumption.
  - apply sched_step_moves in Hst.
    pose proof (count_insert sched_live _ _ s0 _ Hpc) as Hc.
    rewrite count_app.
    inversion Hst; subst; simpl in *; unfold b2n in Hc; simpl in Hc; lia.
  - apply task_step_moves in Hst as [Htg Hst].
    pose proof (count_insert task_live _ _ t0 _ Ht) as Hc.
    destruct t as [tg pc], t0 as [tg0 pc0]. simpl in Htg, Hst. subst tg0.
    inversion Hst; subst; cbn in Hc; simpl in *; lia.
  - apply shut_step_moves in Hst. inversion Hst; subst; simpl; assumption.
  - assumption.
Qed.

Lemma wg_inv_reachable st ci ht sg mc s :
  reachable st ci ht sg mc s -> wg_inv s.
Proof.
  induction 1 as [c Hc | s a s' _ IH Hexec].
  - eapply wg_inv_init; eassumption.
  - eapply wg_inv_step; eassumption.
Qed.

(** ** Who takes and who returns a global slot *)

(** [c.workers] shrinks only by the deferred receive of a task that is past
    its probe. *)
Lemma workers_decrease_only_by_release a s s' :
  exec a s = Some s' ->
  (workers (chk s') < workers (chk s))%nat ->
  exists j t,
    a = ActTask j TevDeferred /\ tasks s !! j = Some t /\
    task_pc t = TaskReleaseWorker /\
    tasks s' !! j = Some (mkTask (task_target t) TaskWgDone).
Proof.
  intros H Hlt. exec_inv H; simpl in Hlt; try lia.
  - apply sched_step_moves in Hst. inversion Hst; subst; simpl in Hlt; lia.
  - pose proof Hst as Hev. apply task_step_moves in Hst as [Htg Hst].
    destruct t as [tg pc], t0 as [tg0 pc0]. simpl in Htg, Hst. subst tg0.
    inversion Hst; subst; simpl in Hlt; try lia.
    exists i, (mkTask tg TaskReleaseWorker). simpl.
    destruct ev; simpl in Hev; try discriminate Hev.
    repeat split; try assumption.
    apply list_lookup_insert_eq. eapply lookup_lt_Some; eassumption.
  - apply shut_step_moves in Hst. inversion Hst; subst; simpl in Hlt; lia.
Qed.

(** A task comes into being only through the [go] statement of a scheduler
    that has already sent on [c.workers] for it. *)
Lemma tasks_grow_only_by_go a s s' :
  exec a s = Some s' ->
  (length (tasks s) < length (tasks s'))%nat ->
  exists i t rest,
    a = ActSched i SevGo /\ scheds s !! i = Some (SchedSpawn t rest) /\
    tasks s' = tasks s ++ [mkTask t TaskStart].
Proof.
  intros H Hlt. exec_inv H; simpl in Hlt; try lia.
  - pose proof Hst as Hev. apply sched_step_moves in Hst.
    inversion Hst; subst; simpl in Hlt; rewrite ?length_app in Hlt;
      simpl in Hlt; try lia.
    exists i, t, rest. simpl.
    destruct ev; simpl in Hev; try discriminate Hev.
    repeat split; assumption.
  - rewrite length_insert in Hlt. lia.
Qed.

(** A scheduler gets to the point just before its [go] statement only by
    a send on [c.workers], which needs room in the channel. *)
Lemma spawn_point_only_by_send a s s' i t rest :
  exec a s = Some s' ->
  scheds s' !! i = Some (SchedSpawn t rest) ->
  scheds s !! i <> Some (SchedSpawn t rest) ->
  a = ActSched i SevSend /\
  scheds s !! i = Some (SchedAdmit (t :: rest)) /\
  Z.of_nat (workers (chk s)) < maxConcurrency (chk s) /\
  workers (chk s') = S (workers (chk s)).
Proof.
  intros H Hnew Hold. exec_inv H; simpl in Hnew; try congruence.
  - apply lookup_app_Some in Hnew as [Hnew | [_ Hnew]]; [congruence|].
    destruct (i - length (scheds s))%nat; simpl in Hnew; [|destruct n];
      discriminate Hnew.
  - destruct (decide (i0 = i)) as [->|Hne].
    + rewrite list_lookup_insert_eq in Hnew
        by (eapply lookup_lt_Some; eassumption).
      inversion Hnew; subst s0. clear Hnew.
      pose proof Hst as Hev. apply sched_step_moves in Hst.
      inversion Hst; subst; simpl.
      destruct ev; simpl in Hev; try discriminate Hev;
        try (destruct (ctx_done (chk s)); discriminate Hev).
      repeat split; try assumption.
    + rewrite list_lookup_insert_ne in Hnew by assumption. congruence.
Qed.

(** ** The map of host channels only grows *)

Lemma hostSemaphores_kept a s s' h :
  exec a s = Some s' ->
  is_Some (hostSemaphores (chk s) !! h) ->
  is_Some (hostSemaphores (chk s') !! h).
Proof.
  intros H Hh. exec_inv H; simpl; try assumption.
  - apply sched_step_moves in Hst. inversion Hst; subst; simpl; assumption.
  - apply task_step_moves in Hst as [Htg Hst].
    inversion Hst; subst; simpl; try assumption.
    + unfold lookup_or_create.
      destruct (hostSemaphores (chk s) !! Host (task_target t));
        [assumption|].
      rewrite lookup_insert. case_decide; [eexists; reflexivity | assumption].
    + rewrite lookup_insert. case_decide; [eexists; reflexivity | assumption].
    + rewrite lookup_insert. case_decide; [eexists; reflexivity | assumption].
  - apply shut_step_moves in Hst. inversion Hst; subst; simpl; assumption.
Qed.

Lemma host_dom_inv_init st ci ht sg mc c :
  NewChecker st ci ht sg mc = Some c -> host_dom_inv (init c).
Proof.
  intros H. apply NewChecker_fields in H as [_ ->]. intros h. simpl.
  rewrite lookup_empty. split.
  - intros [x Hx]. discriminate Hx.
  - intros (j & t & Hj & _). simpl in Hj. rewrite lookup_nil in Hj.
    discriminate Hj.
Qed.

Lemma host_referenced_same_tasks s s' h :
  tasks s' = tasks s -> host_referenced s h <-> host_referenced s' h.
Proof. unfold host_referenced. intros ->. reflexivity. Qed.

Lemma host_dom_inv_step a s s' :
  host_dom_inv s -> exec a s = Some s' -> host_dom_inv s'.
Proof.
  intros IH H h. pose proof (hostSemaphores_kept a s s' h H) as Hkept.
  specialize (IH h) as HIH.
  exec_inv H; simpl in *; try exact HIH.
  - (* a scheduler moved *)
    apply sched_step_moves in Hst.
    assert (hostSemaphores c = hostSemaphores (chk s)) as ->
      by (inversion Hst; subst; reflexivity).
    rewrite HIH. unfold host_referenced. simpl.
    inversion Hst; subst; rewrite ?app_nil_r; try reflexivity.
    split.
    + intros (j & t1 & Hj & Hh & Hpc'). exists j, t1.
      split; [|split; assumption].
      apply lookup_app_l_Some. assumption.
    + intros (j & t1 & Hj & Hh & Hpc'). exists j, t1.
      split; [|split; assumption].
      apply lookup_app_Some in Hj as [Hj | [_ Hj]]; [assumption|].
      destruct (j - length (tasks s))%nat as [|k]; simpl in Hj.
      * inversion Hj; subst. simpl in Hpc'. congruence.
      * destruct k; discriminate Hj.
  - (* a task moved *)
    pose proof (lookup_lt_Some _ _ _ Ht) as Hlen.
    apply task_step_moves in Hst as [Htg Hst].
    assert (Hpc0 : task_pc t0 <> TaskStart)
      by (inversion Hst; congruence).
    unfold host_referenced in *. simpl.
    split.
    + intros Hsome.
      destruct (decide (Host (task_target t) = h)) as [Heq|Hne].
      * exists i, t0. rewrite list_lookup_insert_eq by assumption.
        repeat split; congruence.
      * assert (Hold : is_Some (hostSemaphores (chk s) !! h)).
        { inversion Hst; subst; simpl in Hsome; try assumption.
          - unfold lookup_or_create in Hsome.
            destruct (hostSemaphores (chk s) !! Host (task_target t));
              [assumption|].
            rewrite lookup_insert_ne in Hsome; assumption.
          - rewrite lookup_insert_ne in Hsome; assumption.
          - rewrite lookup_insert_ne in Hsome; assumption. }
        apply HIH in Hold as (j & t1 & Hj & Hh & Hpc1).
        exists j, t1. split; [|split; assumption].
        rewrite list_lookup_insert_ne; [assumption|].
        intros ->. congruence.
    + intros (j & t1 & Hj & Hh & Hpc1).
      destruct (decide (i = j)) as [->|Hne].
      * rewrite list_lookup_insert_eq in Hj by assumption.
        inversion Hj; subst t1. clear Hj. rewrite Htg in Hh. subst h.
        destruct (task_pc t) eqn:Hpct.
        -- inversion Hst; try congruence. subst. simpl.
           unfold lookup_or_create.
           destruct (hostSemaphores (chk s) !! Host (task_target t)) eqn:Hl;
             [rewrite Hl; eexists; reflexivity|].
           rewrite lookup_insert_eq. eexists; reflexivity.
        -- apply Hkept, HIH. exists j, t. repeat split; congruence.
        -- apply Hkept, HIH. exists j, t. repeat split; congruence.
        -- apply Hkept, HIH. exists j, t. repeat split; congruence.
        -- apply Hkept, HIH. exists j, t. repeat split; congruence.
        -- apply Hkept, HIH. exists j, t. repeat split; congruence.
        -- apply Hkept, HIH. exists j, t. repeat split; congruence.
        -- apply Hkept, HIH. exists j, t. repeat split; congruence.
      * rewrite list_lookup_insert_ne in Hj by assumption.
        apply Hkept, HIH. exists j, t1. repeat split; assumption.
  - (* a Shutdown call moved *)
    apply shut_step_moves in Hst.
    assert (hostSemaphores c = hostSemaphores (chk s)) as ->
      by (inversion Hst; subst; reflexivity).
    exact HIH.
Qed.

Lemma host_dom_inv_reachable st ci ht sg mc s :
  reachable st ci ht sg mc s -> host_dom_inv s.
Proof.
  induction 1 as [c Hc | s a s' _ IH Hexec].
  - eapply host_dom_inv_init; eassumption.
  - eapply host_dom_inv_step; eassumption.
Qed.



(** ** Runs are reachable *)

Lemma run_reachable st ci ht sg mc acts s s' :
  reachable st ci ht sg mc s -> run acts s = Some s' ->
  reachable st ci ht sg mc s'.
Proof.
  revert s. induction acts as [|a acts IH]; intros s Hs Hrun; simpl in Hrun.
  - inversion Hrun; subst. assumption.
  - destruct (exec a s) as [s1|] eqn:Hexec; [|discriminate Hrun].
    apply (IH s1); [|assumption].
    eapply reach_step; eassumption.
Qed.

Lemma run_from_reachable st ci ht sg mc acts s :
  run_from st ci ht sg mc acts = Some s -> reachable st ci ht sg mc s.
Proof.
  unfold run_from. intros H.
  destruct (NewChecker st ci ht sg mc) as [c|] eqn:Hc; [|discriminate H].
  simpl in H. eapply run_reachable; [|eassumption].
  by apply reach_init.
Qed.

Lemma demo_state_run :
  run_from demo_db 15000000000 5000000000 10000000000 2 demo_trace
    = Some demo_state.
Proof. vm_compute. reflexivity. Qed.


(** ** The claims about the limiters *)

(** C2: in every state a checker with global cap [G] can reach, the tasks
    holding a global slot are at most the values buffered in [c.workers],
    hence at most [G]; a task whose probe is running or whose result is
    being saved holds a slot; a task is started only by the [go] of a
    scheduler that has sent on [c.workers] (which needs a free place), and
    [c.workers] shrinks only by the deferred receive of a task that is past
    its work. *)
Theorem global_slots_never_exceed_cap :
  forall (st : DB) (ci ht sg G : Z) (s : System),
    reachable st ci ht sg G s ->
    Z.of_nat (global_holders s) <= G /\
    (global_holders s <= workers (chk s))%nat /\
    Z.of_nat (workers (chk s)) <= maxConcurrency (chk s) /\
    maxConcurrency (chk s) = G /\
    (forall j t, tasks s !! j = Some t ->
       task_working t = true -> task_holds_global t = true) /\
    (forall a s', exec a s = Some s' ->
       (length (tasks s) < length (tasks s'))%nat ->
       exists i t rest,
         a = ActSched i SevGo /\
         scheds s !! i = Some (SchedSpawn t rest) /\
         tasks s' = tasks s ++ [mkTask t TaskStart]) /\
    (forall a s' i t rest, exec a s = Some s' ->
       scheds s' !! i = Some (SchedSpawn t rest) ->
       scheds s !! i <> Some (SchedSpawn t rest) ->
       a = ActSched i SevSend /\
       Z.of_nat (workers (chk s)) < G /\
       workers (chk s') = S (workers (chk s))) /\
    (forall a s', exec a s = Some s' ->
       (workers (chk s') < workers (chk s))%nat ->
       exists j t,
         a = ActTask j TevDeferred /\ tasks s !! j = Some t /\
         task_pc t = TaskReleaseWorker /\
         tasks s' !! j = Some (mkTask (task_target t) TaskWgDone)).
Proof.
  intros st ci ht sg G s Hreach.
  destruct (global_inv_reachable _ _ _ _ _ _ Hreach) as (Hmc & Hw & Hle).
  split; [lia|]. split; [lia|]. split; [lia|]. split; [assumption|].
  split; [|split; [|split]].
  - intros j t _ Hwork. destruct t as [tg pc].
    destruct pc; simpl in Hwork; try discriminate Hwork; reflexivity.
  - intros a s' Hexec Hlen. eapply tasks_grow_only_by_go; eassumption.
  - intros a s' i t rest Hexec Hnew Hold.
    destruct (spawn_point_only_by_send _ _ _ _ _ _ Hexec Hnew Hold)
      as (Ha & _ & Hlt & Hs).
    split; [exact Ha|]. split; [lia | exact Hs].
  - intros a s' Hexec Hlt.
    eapply workers_decrease_only_by_release; eassumption.
Qed.

(** The scenario: two tasks hold the two global slots. *)
Lemma global_slots_never_exceed_cap_witness :
  reachable demo_db 15000000000 5000000000 10000000000 2 demo_state /\
  global_holders demo_state = 2%nat /\
  Z.of_nat (global_holders demo_state) <= 2.
Proof.
  assert (Hr : reachable demo_db 15000000000 5000000000 10000000000 2
                         demo_state).
  { apply (run_from_reachable _ _ _ _ _ demo_trace). vm_compute. reflexivity. }
  split; [exact Hr|]. split; [vm_compute; reflexivity|].
  exact (proj1 (global_slots_never_exceed_cap _ _ _ _ _ _ Hr)).
Defined.

(** C3: in every reachable state and for every host [h], the tasks holding
    a slot of [h] are exactly the values buffered in the channel of [h], at
    most 2, whatever the global cap [G] is; the map of host channels is
    empty in a new checker, a step never removes an entry, and [h] has an
    entry exactly when some task has been through the lookup of
    [acquireHostSemaphore] for [h]. *)
Theorem host_slots_never_exceed_two :
  forall (st : DB) (ci ht sg G : Z) (s : System),
    reachable st ci ht sg G s ->
    (forall h, (host_holders h s <= 2)%nat /\
               host_holders h s = host_len s h) /\
    (forall c, NewChecker st ci ht sg G = Some c -> hostSemaphores c = ∅) /\
    (forall a s' h, exec a s = Some s' ->
       is_Some (hostSemaphores (chk s) !! h) ->
       is_Some (hostSemaphores (chk s') !! h)) /\
    (forall h, is_Some (hostSemaphores (chk s) !! h) <->
               host_referenced s h).
Proof.
  intros st ci ht sg G s Hreach. repeat split.
  - destruct (host_inv_reachable _ _ _ _ _ _ Hreach h) as [Hc Hb].
    unfold hostCap in Hb. lia.
  - destruct (host_inv_reachable _ _ _ _ _ _ Hreach h) as [Hc _]. lia.
  - intros c Hc. apply NewChecker_fields in Hc as [_ ->]. reflexivity.
  - intros a s' h Hexec. eapply hostSemaphores_kept; eassumption.
  - apply (host_dom_inv_reachable _ _ _ _ _ _ Hreach h).
  - apply (host_dom_inv_reachable _ _ _ _ _ _ Hreach h).
Qed.

(** The scenario: three targets of [example.com] are registered, two tasks
    hold its two slots. *)
Lemma host_slots_never_exceed_two_witness :
  reachable demo_db 15000000000 5000000000 10000000000 2 demo_state /\
  host_holders "example.com" demo_state = 2%nat /\
  (host_holders "example.com" demo_state <= 2)%nat.
Proof.
  assert (Hr : reachable demo_db 15000000000 5000000000 10000000000 2
                         demo_state).
  { apply (run_from_reachable _ _ _ _ _ demo_trace). vm_compute. reflexivity. }
  split; [exact Hr|]. split; [vm_compute; reflexivity|].
  exact (proj1 (proj1 (host_slots_never_exceed_two _ _ _ _ _ _ Hr)
                      "example.com"%string)).
Defined.

(** ** Admission *)

Lemma sched_lookup_other a s s' i pc :
  exec a s = Some s' ->
  (forall ev, a <> ActSched i ev) ->
  scheds s !! i = Some pc ->
  scheds s' !! i = Some pc.
Proof.
  intros H Hne Hi. exec_inv H; simpl; try assumption.
  - apply lookup_app_l_Some. assumption.
  - destruct (decide (i0 = i)) as [->|Hd].
    + exfalso. eapply Hne. reflexivity.
    + rewrite list_lookup_insert_ne by assumption. assumption.
Qed.

(** C4: a scheduler that is at the [select] of its loop with target [t]
    next can only do two things: send on [c.workers], possible exactly when
    the channel has room, after which its next statement starts the task
    of [t]; or see the cancellation and leave the pass.  While the channel
    is full and nothing is cancelled it cannot move at all, and whatever
    the other goroutines do meanwhile, [t] stays the next target. *)
Theorem admission_waits_for_slot_or_cancel :
  forall (s : System) (i : nat) (t : Target) (rest : list Target),
    scheds s !! i = Some (SchedAdmit (t :: rest)) ->
    (forall ev s', exec (ActSched i ev) s = Some s' ->
       (ev = SevSend /\
        Z.of_nat (workers (chk s)) < maxConcurrency (chk s) /\
        scheds s' !! i = Some (SchedSpawn t rest) /\
        tasks s' = tasks s)
       \/
       (ev = SevCtxDone /\ ctx_done (chk s) = true /\
        scheds s' !! i = Some SchedLoop /\
        tasks s' = tasks s)) /\
    (maxConcurrency (chk s) <= Z.of_nat (workers (chk s)) ->
     ctx_done (chk s) = false ->
     forall ev, exec (ActSched i ev) s = None) /\
    (Z.of_nat (workers (chk s)) < maxConcurrency (chk s) ->
     is_Some (exec (ActSched i SevSend) s)) /\
    (ctx_done (chk s) = true ->
     is_Some (exec (ActSched i SevCtxDone) s)) /\
    (forall a s', exec a s = Some s' ->
       (forall ev, a <> ActSched i ev) ->
       scheds s' !! i = Some (SchedAdmit (t :: rest))) /\
    (forall s1 ev s2,
       scheds s1 !! i = Some (SchedSpawn t rest) ->
       exec (ActSched i ev) s1 = Some s2 ->
       ev = SevGo /\
       tasks s2 = tasks s1 ++ [mkTask t TaskStart] /\
       scheds s2 !! i = Some (SchedAdmit rest)).
Proof.
  intros s i t rest Hi.
  pose proof (lookup_lt_Some _ _ _ Hi) as Hlen.
  split; [|split; [|split; [|split; [|split]]]].
  - intros ev s' H. simpl in H. rewrite Hi in H. simpl in H.
    destruct ev; simpl in H; try discriminate H.
    + right. destruct (ctx_done (chk s)) eqn:Hd; simpl in H; [|discriminate H].
      inversion H; subst s'; simpl.
      rewrite list_lookup_insert_eq by assumption.
      rewrite app_nil_r. auto.
    + left.
      destruct (Z.of_nat (workers (chk s)) <? maxConcurrency (chk s)) eqn:Hw;
        simpl in H; [|discriminate H].
      inversion H; subst s'; simpl.
      rewrite list_lookup_insert_eq by assumption.
      rewrite app_nil_r. repeat split; try reflexivity. lia.
  - intros Hfull Hnc ev. simpl. rewrite Hi. simpl.
    destruct ev; simpl; try reflexivity.
    + rewrite Hnc. reflexivity.
    + destruct (Z.of_nat (workers (chk s)) <? maxConcurrency (chk s)) eqn:Hw;
        [lia | reflexivity].
  - intros Hroom. simpl. rewrite Hi. simpl.
    destruct (Z.of_nat (workers (chk s)) <? maxConcurrency (chk s)) eqn:Hw;
      [eexists; reflexivity | lia].
  - intros Hd. simpl. rewrite Hi. simpl. rewrite Hd. eexists; reflexivity.
  - intros a s' H Hne. eapply sched_lookup_other; eassumption.
  - intros s1 ev s2 H1 H. simpl in H. rewrite H1 in H. simpl in H.
    pose proof (lookup_lt_Some _ _ _ H1) as Hlen1.
    destruct ev; simpl in H; try discriminate H.
    inversion H; subst s2; simpl.
    rewrite list_lookup_insert_eq by assumption. auto.
Qed.

(** The scenario: both global slots are taken and nothing is cancelled, so
    the scheduler waits with the third target. *)
Lemma admission_waits_for_slot_or_cancel_witness :
  scheds demo_state !! 0%nat = Some (SchedAdmit [demo_t3]) /\
  forall ev, exec (ActSched 0 ev) demo_state = None.
Proof.
  assert (H0 : scheds demo_state !! 0%nat = Some (SchedAdmit [demo_t3]))
    by (vm_compute; reflexivity).
  split; [exact H0|].
  apply (proj1 (proj2 (admission_waits_for_slot_or_cancel
                         demo_state 0 demo_t3 [] H0))).
  - vm_compute. discriminate.
  - vm_compute. reflexivity.
Defined.

(** ** Shutdown *)

Lemma set_ctx_done_true_id c :
  ctx_done c = true -> set_ctx_done true c = c.
Proof. destruct c. simpl. intros ->. reflexivity. Qed.

(** Cancellation is never undone. *)
Lemma ctx_done_kept a s s' :
  exec a s = Some s' -> ctx_done (chk s) = true -> ctx_done (chk s') = true.
Proof.
  intros H Hd. exec_inv H; simpl; try assumption.
  - apply sched_step_moves in Hst. inversion Hst; subst; simpl; assumption.
  - apply task_step_moves in Hst as [_ Hst].
    inversion Hst; subst; simpl; assumption.
  - apply shut_step_moves in Hst. inversion Hst; subst; simpl; auto.
Qed.

(** With the wait group at zero every scheduler loop and every task has
    finished. *)
Lemma wg_zero_all_finished st ci ht sg mc s :
  reachable st ci ht sg mc s ->
  wg (chk s) = 0%nat ->
  (forall i pc, scheds s !! i = Some pc -> pc = SchedExited) /\
  (forall j t, tasks s !! j = Some t -> task_pc t = TaskExited).
Proof.
  intros Hr Hz. pose proof (wg_inv_reachable _ _ _ _ _ _ Hr) as Hwg.
  unfold wg_inv in Hwg. rewrite Hz in Hwg.
  split.
  - intros i pc Hi.
    assert (Hc : count sched_live (scheds s) = 0%nat) by lia.
    pose proof (count_zero_all _ _ Hc pc) as Hp.
    assert (Hin : In pc (scheds s)).
    { apply list_elem_of_In. eapply list_elem_of_lookup_2. eassumption. }
    specialize (Hp Hin). destruct pc; simpl in Hp; congruence.
  - intros j t Hj.
    assert (Hc : count task_live (tasks s) = 0%nat) by lia.
    pose proof (count_zero_all _ _ Hc t) as Hp.
    assert (Hin : In t (tasks s)).
    { apply list_elem_of_In. eapply list_elem_of_lookup_2. eassumption. }
    specialize (Hp Hin). unfold task_live in Hp.
    destruct (task_pc t); simpl in Hp; congruence.
Qed.

(** C5, as the code has it: a step of a [Shutdown] call changes nothing of
    the checker except setting the cancellation, and nothing at all when
    the cancellation is already set (so a second call leaves the checker
    as the first one did); the call returns only through its [select],
    either after [done] was closed, which happens only when the wait group
    is at zero, that is when every scheduler loop and every task has
    finished, or after the grace timer has fired; until one of the two has
    happened the call cannot return; it prints which case it took and
    hands nothing back to its caller. *)
Theorem Shutdown_waits_then_prints_outcome :
  forall (st : DB) (ci ht sg mc : Z) (s : System) (k : nat) (sh : ShutCall),
    reachable st ci ht sg mc s ->
    shuts s !! k = Some sh ->
    (forall ev s', exec (ActShut k ev) s = Some s' ->
       exists sh',
         shuts s' !! k = Some sh' /\
         (chk s' = chk s \/
          (ev = ShevCancel /\ chk s' = set_ctx_done true (chk s))) /\
         (ctx_done (chk s) = true -> chk s' = chk s) /\
         (shut_pc sh <> ShutReturned -> shut_pc sh' = ShutReturned ->
            Shutdown_result sh' = Some tt /\
            ((ev = ShevSelectDone /\ shut_done sh = true /\
              stdout s' = stdout s ++ [msg_graceful])
             \/
             (ev = ShevSelectTimer /\ shut_timer sh = true /\
              stdout s' = stdout s ++ [msg_timed_out]))) /\
         (shut_done sh = false -> shut_done sh' = true ->
            wg (chk s) = 0%nat /\
            (forall i pc, scheds s !! i = Some pc -> pc = SchedExited) /\
            (forall j t, tasks s !! j = Some t -> task_pc t = TaskExited)) /\
         (shut_timer sh = false -> shut_timer sh' = true ->
            ev = ShevGraceElapsed)) /\
    (shut_pc sh = ShutSelect -> shut_done sh = false ->
     shut_timer sh = false ->
     exec (ActShut k ShevSelectDone) s = None /\
     exec (ActShut k ShevSelectTimer) s = None).
Proof.
  intros st ci ht sg mc s k sh Hr Hk.
  pose proof (lookup_lt_Some _ _ _ Hk) as Hlen.
  split.
  - intros ev s' H. simpl in H. rewrite Hk in H. simpl in H.
    destruct (shut_step ev (chk s) sh) as [[[c sh'] lines]|] eqn:Hst;
      simpl in H; [|discriminate H].
    inversion H; subst s'; clear H. simpl.
    exists sh'. rewrite list_lookup_insert_eq by assumption.
    split; [reflexivity|].
    pose proof Hst as Hev. apply shut_step_moves in Hst.
    inversion Hst; subst; simpl.
    + (* cancel *)
      destruct ev; unfold shut_step in Hev; rewrite H in Hev;
        try discriminate Hev.
      split; [right; split; reflexivity|].
      split; [apply set_ctx_done_true_id|].
      split; [intros _ Hc; discriminate Hc|].
      split; [intros Hd Hd'; congruence|].
      intros Ht Ht'; congruence.
    + (* the wait returns *)
      split; [left; reflexivity|]. split; [reflexivity|].
      split; [intros Hn Hr'; congruence|].
      split.
      * intros _ _. split; [assumption|].
        eapply wg_zero_all_finished; eassumption.
      * intros Ht Ht'; congruence.
    + (* the grace period elapses *)
      destruct ev; unfold shut_step in Hev; rewrite H in Hev;
        try discriminate Hev;
        try (destruct (wg (chk s) =? 0)%nat, (shut_done sh);
             discriminate Hev);
        try (destruct (shut_done sh); inversion Hev; congruence);
        try (destruct (shut_timer sh); inversion Hev; congruence).
      split; [left; reflexivity|]. split; [reflexivity|].
      split; [intros _ Hc; discriminate Hc|].
      split; [intros Hd Hd'; congruence|].
      reflexivity.
    + (* select takes <-done *)
      destruct ev; unfold shut_step in Hev; rewrite H in Hev;
        try discriminate Hev;
        try (destruct (wg (chk s) =? 0)%nat, (shut_done sh);
             discriminate Hev);
        try (rewrite H0 in Hev; inversion Hev; fail);
        try (destruct (shut_timer sh); inversion Hev; fail).
      split; [left; reflexivity|]. split; [reflexivity|].
      split; [intros _ _; split; [reflexivity | left; auto]|].
      split; [intros Hd Hd'; congruence|].
      intros Ht Ht'; congruence.
    + (* select takes the timer *)
      destruct ev; unfold shut_step in Hev; rewrite H in Hev;
        try discriminate Hev;
        try (destruct (wg (chk s) =? 0)%nat, (shut_done sh);
             discriminate Hev);
        try (rewrite H0 in Hev; inversion Hev; fail);
        try (destruct (shut_done sh); inversion Hev; fail).
      split; [left; reflexivity|]. split; [reflexivity|].
      split; [intros _ _; split; [reflexivity | right; auto]|].
      split; [intros Hd Hd'; congruence|].
      intros Ht Ht'; congruence.
  - intros Hpc Hd Ht. simpl. rewrite Hk. simpl. unfold shut_step.
    rewrite Hpc, Hd, Ht. split; reflexivity.
Qed.

(** The scenario: the started checker is idle, [Shutdown] has cancelled,
    the scheduler has left and [done] is closed; the call then returns
    through [<-done], prints the graceful message and leaves the checker
    as it is. *)
Lemma Shutdown_waits_then_prints_outcome_witness :
  reachable demo_db 15000000000 5000000000 10000000000 2
            demo_shutdown_state /\
  shuts demo_shutdown_state !! 0%nat = Some (mkShutCall ShutSelect true false)
  /\
  exists s' sh',
    exec (ActShut 0 ShevSelectDone) demo_shutdown_state = Some s' /\
    shuts s' !! 0%nat = Some sh' /\
    Shutdown_result sh' = Some tt /\
    chk s' = chk demo_shutdown_state /\
    stdout s' = [msg_graceful].
Proof.
  assert (Hr : reachable demo_db 15000000000 5000000000 10000000000 2
                         demo_shutdown_state).
  { apply (run_from_reachable _ _ _ _ _ demo_shutdown_trace).
    vm_compute. reflexivity. }
  assert (Hk : shuts demo_shutdown_state !! 0%nat
               = Some (mkShutCall ShutSelect true false))
    by (vm_compute; reflexivity).
  split; [exact Hr|]. split; [exact Hk|].
  destruct (exec (ActShut 0 ShevSelectDone) demo_shutdown_state)
    as [s'|] eqn:Hexec; [|vm_compute in Hexec; discriminate Hexec].
  destruct (proj1 (Shutdown_waits_then_prints_outcome
                     _ _ _ _ _ _ _ _ Hr Hk) _ _ Hexec)
    as (sh' & Hsh' & _ & Hsame & Hret & _).
  exists s', sh'. split; [reflexivity|]. split; [exact Hsh'|].
  assert (Hpc : shut_pc sh' = ShutReturned).
  { vm_compute in Hexec. inversion Hexec; subst s'.
    vm_compute in Hsh'. inversion Hsh'; subst sh'. reflexivity. }
  split; [apply Hret; [discriminate | exact Hpc]|].
  split; [apply Hsame; vm_compute; reflexivity|].
  vm_compute in Hexec. inversion Hexec; subst s'. reflexivity.
Defined.

(** C5 as stated fails on its last part: the two ways out of the [select]
    hand the caller the same (empty) result, so no reading of the result
    tells a clean shutdown from a timed-out one. *)
Lemma Shutdown_result_hides_outcome : ~ Shutdown_returns_cleanliness.
Proof.
  intros [verdict H].
  pose (c := mkChecker emptyDB 0 1 0 0 0 ∅ true 0).
  pose (sh := mkShutCall ShutSelect true true).
  assert (H1 : verdict tt = true).
  { apply (H c sh ShevSelectDone c
             (mkShutCall ShutReturned true true) [msg_graceful] tt);
      reflexivity. }
  assert (H2 : verdict tt = false).
  { apply (H c sh ShevSelectTimer c
             (mkShutCall ShutReturned true true) [msg_timed_out] tt);
      reflexivity. }
  congruence.
Qed.

(** ** Start *)

(** C6 as stated fails: a second [Start] adds a second scheduler loop. *)
Lemma Start_twice_spawns_two_loops : ~ Start_idempotent.
Proof.
  intros H.
  specialize (H (init (mkChecker demo_db 15 2 5 10 0 ∅ false 0))).
  apply (f_equal (fun s => length (scheds s))) in H.
  vm_compute in H. discriminate H.
Qed.

Lemma iter_Start_scheds n s :
  scheds (Nat.iter n Start s) = scheds s ++ repeat SchedLoop n.
Proof.
  induction n as [|n IH]; simpl.
  - rewrite app_nil_r. reflexivity.
  - rewrite IH. rewrite <- app_assoc. f_equal.
    symmetry. apply repeat_cons.
Qed.

(** C6, as the code has it: every call of [Start] adds one to the wait
    group and one more scheduler loop, and touches nothing else; after [n]
    calls there are [n] more loops, each at the [select] of [scheduler]. *)
Theorem Start_adds_one_scheduler_loop :
  forall (s : System),
    exec ActStart s = Some (Start s) /\
    scheds (Start s) = scheds s ++ [SchedLoop] /\
    wg (chk (Start s)) = S (wg (chk s)) /\
    count sched_live (scheds (Start s)) = S (count sched_live (scheds s)) /\
    tasks (Start s) = tasks s /\
    shuts (Start s) = shuts s /\
    workers (chk (Start s)) = workers (chk s) /\
    hostSemaphores (chk (Start s)) = hostSemaphores (chk s) /\
    ctx_done (chk (Start s)) = ctx_done (chk s) /\
    forall n,
      scheds (Nat.iter n Start s) = scheds s ++ repeat SchedLoop n /\
      length (scheds (Nat.iter n Start s)) = (length (scheds s) + n)%nat.
Proof.
  intros s.
  split; [reflexivity|]. split; [reflexivity|]. split; [reflexivity|].
  split; [simpl; rewrite count_app; simpl; lia|].
  do 5 (split; [reflexivity|]).
  intros n. split.
  - apply iter_Start_scheds.
  - rewrite iter_Start_scheds, length_app, repeat_length. reflexivity.
Qed.

(** ** The order of TEXT values and of [ORDER BY created_at, id] *)

Lemma ascii_compare_lt_trans a b c :
  Ascii.compare a b = Lt -> Ascii.compare b c = Lt -> Ascii.compare a c = Lt.
Proof.
  unfold Ascii.compare. rewrite !N.compare_lt_iff. lia.
Qed.

Lemma ascii_compare_refl a : Ascii.compare a a = Eq.
Proof. unfold Ascii.compare. apply N.compare_refl. Qed.

Lemma string_compare_refl s : String.compare s s = Eq.
Proof.
  induction s as [|a s IH]; simpl; [reflexivity|].
  rewrite ascii_compare_refl. exact IH.
Qed.

Lemma string_compare_lt_trans a b c :
  String.compare a b = Lt -> String.compare b c = Lt -> String.compare a c = Lt.
Proof.
  revert b c. induction a as [|x a IH]; intros [|y b] [|z c]; simpl;
    try discriminate; try reflexivity.
  destruct (Ascii.compare x y) eqn:Hxy; try discriminate.
  - apply Ascii.compare_eq_iff in Hxy. subst y. intros Hab.
    destruct (Ascii.compare x z) eqn:Hxz; try discriminate; [|reflexivity].
    intros Hbc. eapply IH; eassumption.
  - intros _.
    destruct (Ascii.compare y z) eqn:Hyz; try discriminate.
    + apply Ascii.compare_eq_iff in Hyz. subst z. rewrite Hxy. reflexivity.
    + rewrite (ascii_compare_lt_trans _ _ _ Hxy Hyz). reflexivity.
Qed.

Lemma string_leb_trans a b c :
  String.leb a b = true -> String.leb b c = true -> String.leb a c = true.
Proof.
  unfold String.leb.
  destruct (String.compare a b) eqn:Hab; try discriminate; intros _.
  - apply String.compare_eq_iff in Hab. subst b. tauto.
  - destruct (String.compare b c) eqn:Hbc; try discriminate; intros _.
    + apply String.compare_eq_iff in Hbc. subst c. rewrite Hab. reflexivity.
    + rewrite (string_compare_lt_trans _ _ _ Hab Hbc). reflexivity.
Qed.

#[global] Instance string_le_trans : Transitive string_le.
Proof. intros a b c. apply string_leb_trans. Qed.

#[global] Instance string_le_total : Total string_le.
Proof. intros a b. apply String.leb_total. Qed.

#[global] Instance row_le_trans : Transitive row_le.
Proof.
  intros r1 r2 r3. unfold row_le, row_leb.
  destruct (String.compare (row_created_at r1) (row_created_at r2)) eqn:H12;
    try discriminate.
  - apply String.compare_eq_iff in H12. rewrite H12.
    destruct (String.compare (row_created_at r2) (row_created_at r3));
      try discriminate; [apply string_leb_trans | reflexivity].
  - intros _.
    destruct (String.compare (row_created_at r2) (row_created_at r3)) eqn:H23;
      try discriminate; intros _.
    + apply String.compare_eq_iff in H23. rewrite <- H23, H12. reflexivity.
    + rewrite (string_compare_lt_trans _ _ _ H12 H23). reflexivity.
Qed.

#[global] Instance row_le_total : Total row_le.
Proof.
  intros r1 r2. unfold row_le, row_leb.
  rewrite (String.compare_antisym (row_created_at r2) (row_created_at r1)).
  destruct (String.compare (row_created_at r1) (row_created_at r2));
    simpl; auto.
  apply String.leb_total.
Qed.

(** ** The store *)

Lemma filter_all {A} (p : A -> bool) (l : list A) :
  (forall x, p x = true) -> List.filter p l = l.
Proof.
  intros Hp. induction l as [|x l IH]; simpl; [reflexivity|].
  rewrite Hp, IH. reflexivity.
Qed.

Lemma last_None_nil {A} (l : list A) : last l = None -> l = [].
Proof.
  destruct l as [|x l]; [reflexivity|]. intros H.
  apply last_None in H. discriminate H.
Qed.

(** Without host filter and cursor the query keeps every row. *)
Lemma select_targets_all limit db :
  select_targets "" GoTime.zero "" limit db
    = sql_limit limit (order_by_created_at_id (targets db)).
Proof.
  unfold select_targets. rewrite filter_all; [reflexivity|].
  intros r. reflexivity.
Qed.

Lemma find_unique_url (rows : list TargetRow) r :
  NoDup (List.map row_url rows) -> In r rows ->
  List.find (fun r' => String.eqb (row_url r') (row_url r)) rows = Some r.
Proof.
  induction rows as [|x rows IH]; intros Hnd Hin; [destruct Hin|].
  simpl in *. apply NoDup_cons in Hnd as [Hx Hnd].
  destruct Hin as [-> | Hin].
  - rewrite String.eqb_refl. reflexivity.
  - destruct (String.eqb (row_url x) (row_url r)) eqn:Heq.
    + apply String.eqb_eq in Heq. exfalso. apply Hx. rewrite Heq.
      apply list_elem_of_In. apply in_map. assumption.
    + apply IH; assumption.
Qed.

Lemma find_some_registered (rows : list TargetRow) url r :
  In r rows -> row_url r = url ->
  exists r', List.find (fun x => String.eqb (row_url x) url) rows = Some r'.
Proof.
  intros Hin Hurl.
  destruct (List.find (fun x => String.eqb (row_url x) url) rows) eqn:Hf;
    [eexists; reflexivity|].
  exfalso. pose proof (find_none _ _ Hf r Hin) as Hn. simpl in Hn.
  rewrite Hurl, String.eqb_refl in Hn. discriminate Hn.
Qed.

(** What [UpsertTargetByURL] does to the table [targets]: nothing, or one
    row appended for a URL that had none. *)
Lemma UpsertTargetByURL_targets env url host db :
  targets (UpsertTargetByURL env url host db).2 = targets db \/
  (select_target_by_url url db = None /\
   exists t,
     (UpsertTargetByURL env url host db).1 = Ok (t, true) /\
     URL t = url /\
     targets (UpsertTargetByURL env url host db).2
       = targets db ++ [mkTargetRow (ID t) (URL t) (Host t)
                                    (formatTime (CreatedAt t))]).
Proof.
  unfold UpsertTargetByURL.
  destruct (query_error (up_select env)); [left; reflexivity|].
  destruct (select_target_by_url url db) eqn:Hsel; [left; reflexivity|].
  destruct (query_error (up_insert env)); [left; reflexivity|].
  unfold insert_target.
  destruct (existsb _ (targets db)); [left; reflexivity|].
  right. split; [reflexivity|]. eexists. simpl.
  split; [reflexivity|]. split; reflexivity.
Qed.

(** No step of the process changes or removes a row of [targets]. *)
Lemma exec_targets_prefix a s s' :
  exec a s = Some s' ->
  exists new, targets (store (chk s')) = targets (store (chk s)) ++ new.
Proof.
  intros H. exec_inv H; simpl.
  - exists []. rewrite app_nil_r. reflexivity.
  - exists []. rewrite app_nil_r. reflexivity.
  - apply sched_step_moves in Hst. exists []. rewrite app_nil_r.
    inversion Hst; subst; reflexivity.
  - apply task_step_moves in Hst as [_ Hst]. exists []. rewrite app_nil_r.
    inversion Hst; subst; simpl; try reflexivity.
    unfold InsertCheckResult. destruct (query_error _); reflexivity.
  - apply shut_step_moves in Hst. exists []. rewrite app_nil_r.
    inversion Hst; subst; reflexivity.
  - pose proof (UpsertTargetByURL_targets env url host (store (chk s))) as Hu.
    rewrite Hup in Hu. simpl in Hu.
    destruct Hu as [Hu | (_ & t & _ & _ & Hu)]; rewrite Hu.
    + exists []. rewrite app_nil_r. reflexivity.
    + eexists. reflexivity.
Qed.

(** The UNIQUE constraint on [targets.url] is kept by every insertion. *)
Lemma insert_target_urls_NoDup r db db' :
  insert_target r db = Ok db' ->
  NoDup (List.map row_url (targets db)) ->
  NoDup (List.map row_url (targets db')).
Proof.
  unfold insert_target.
  destruct (existsb _ (targets db)) eqn:Hex; [discriminate|].
  intros Hok Hnd. inversion Hok; subst db'. simpl.
  rewrite map_app. simpl. apply NoDup_app. split; [assumption|].
  split; [|apply NoDup_singleton].
  intros u Hu Hu'. apply list_elem_of_singleton in Hu'. subst u.
  apply list_elem_of_In, in_map_iff in Hu as (r' & Hurl & Hin).
  assert (Hfalse : existsb
            (fun r' => String.eqb (row_id r') (row_id r)
                       || String.eqb (row_url r') (row_url r))
            (targets db) = true).
  { apply existsb_exists. exists r'. split; [assumption|].
    rewrite Hurl, String.eqb_refl. apply orb_true_r. }
  congruence.
Qed.

Lemma UpsertTargetByURL_urls_NoDup env url host db :
  NoDup (List.map row_url (targets db)) ->
  NoDup (List.map row_url (targets (UpsertTargetByURL env url host db).2)).
Proof.
  intros Hnd. unfold UpsertTargetByURL.
  destruct (query_error (up_select env)); [assumption|].
  destruct (select_target_by_url url db); [assumption|].
  destruct (query_error (up_insert env)); [assumption|].
  destruct (insert_target _ db) as [db'|e] eqn:Hins; [|assumption].
  simpl. eapply insert_target_urls_NoDup; eassumption.
Qed.

Lemma exec_urls_NoDup a s s' :
  exec a s = Some s' ->
  NoDup (List.map row_url (targets (store (chk s)))) ->
  NoDup (List.map row_url (targets (store (chk s')))).
Proof.
  intros H Hnd. exec_inv H; simpl; try assumption.
  - apply sched_step_moves in Hst. inversion Hst; subst; assumption.
  - apply task_step_moves in Hst as [_ Hst].
    inversion Hst; subst; simpl; try assumption.
    unfold InsertCheckResult. destruct (query_error _); assumption.
  - apply shut_step_moves in Hst. inversion Hst; subst; assumption.
  - pose proof (UpsertTargetByURL_urls_NoDup env url host _ Hnd) as Hu.
    rewrite Hup in Hu. exact Hu.
Qed.

(** C7: for a URL that already has a row [r] (the column is UNIQUE),
    [UpsertTargetByURL] returns the target read from [r] with
    [created = false] unless the query itself fails, and in either case
    leaves the database as it is; in general the call either leaves
    [targets] alone or appends one row for a URL that had none, reporting
    [created = true]; and no step of the process changes or removes a row
    of [targets] or breaks the uniqueness of the URLs. *)
Theorem UpsertTargetByURL_existing_target_unchanged :
  forall (env : UpsertEnv) (url host : string) (db : DB) (r : TargetRow),
    In r (targets db) ->
    row_url r = url ->
    NoDup (List.map row_url (targets db)) ->
    (query_error (up_select env) = None ->
     UpsertTargetByURL env url host db = (Ok (scan_target r, false), db)) /\
    (UpsertTargetByURL env url host db).2 = db /\
    (forall t, (UpsertTargetByURL env url host db).1 <> Ok (t, true)) /\
    (forall env' url' host' db',
       targets (UpsertTargetByURL env' url' host' db').2 = targets db' \/
       (select_target_by_url url' db' = None /\
        exists t,
          (UpsertTargetByURL env' url' host' db').1 = Ok (t, true) /\
          URL t = url' /\
          targets (UpsertTargetByURL env' url' host' db').2
            = targets db' ++ [mkTargetRow (ID t) (URL t) (Host t)
                                          (formatTime (CreatedAt t))])) /\
    (forall a s s', exec a s = Some s' ->
       (exists new,
          targets (store (chk s')) = targets (store (chk s)) ++ new) /\
       (NoDup (List.map row_url (targets (store (chk s)))) ->
        NoDup (List.map row_url (targets (store (chk s')))))).
Proof.
  intros env url host db r Hin Hurl Hnd.
  assert (Hsel : select_target_by_url url db = Some r).
  { unfold select_target_by_url. rewrite <- Hurl.
    apply find_unique_url; assumption. }
  split; [|split; [|split; [|split]]].
  - intros Hq. unfold UpsertTargetByURL. rewrite Hq, Hsel. reflexivity.
  - unfold UpsertTargetByURL.
    destruct (query_error (up_select env)); [reflexivity|].
    rewrite Hsel. reflexivity.
  - intros t. unfold UpsertTargetByURL.
    destruct (query_error (up_select env)); [discriminate|].
    rewrite Hsel. simpl. intros Heq. inversion Heq.
  - intros env' url' host' db'. apply UpsertTargetByURL_targets.
  - intros a s s' Hexec. split.
    + eapply exec_targets_prefix; eassumption.
    + eapply exec_urls_NoDup; eassumption.
Qed.

(** The scenario: registering [https://example.com/a] again. *)
Lemma UpsertTargetByURL_existing_target_unchanged_witness :
  UpsertTargetByURL demo_upsert_env "https://example.com/a" "example.com"
                    demo_db
    = (Ok (mkTarget "t_2" "https://example.com/a" "example.com"
                    (GoTime.mkTime 2024 1 1 0 0 1 0 0), false),
       demo_db).
Proof.
  refine (proj1 (UpsertTargetByURL_existing_target_unchanged
                   demo_upsert_env "https://example.com/a" "example.com"
                   demo_db
                   (mkTargetRow "t_2" "https://example.com/a" "example.com"
                                "2024-01-01T00:00:01Z") _ _ _) _).
  - simpl. right. left. reflexivity.
  - reflexivity.
  - apply (bool_decide_unpack _). vm_compute. reflexivity.
  - reflexivity.
Defined.

(** ** What a scheduling pass fetches *)

Lemma GetTargets_ok_rows env hostFilter after afterID limit db :
  query_error env = None ->
  exists cur,
    GetTargets env hostFilter after afterID limit db
      = Ok (List.map scan_target
              (select_targets hostFilter after afterID limit db), cur).
Proof.
  intros Hq. unfold GetTargets. rewrite Hq.
  destruct (last (List.map scan_target
                    (select_targets hostFilter after afterID limit db)))
    as [l|] eqn:Hl.
  - eexists. reflexivity.
  - apply last_None_nil in Hl. rewrite Hl. eexists. reflexivity.
Qed.

Lemma GetTargets_inv env hostFilter after afterID limit db targets cur :
  GetTargets env hostFilter after afterID limit db = Ok (targets, cur) ->
  query_error env = None /\
  targets = List.map scan_target
              (select_targets hostFilter after afterID limit db).
Proof.
  intros H. destruct (query_error env) as [e|] eqn:Hq.
  - unfold GetTargets in H. rewrite Hq in H. discriminate H.
  - split; [reflexivity|].
    destruct (GetTargets_ok_rows env hostFilter after afterID limit db Hq)
      as [cur' Hc].
    rewrite Hc in H. inversion H. reflexivity.
Qed.


(** ** Checking a property on an initial segment of the integers *)

Lemma Z_below_forall (P : Z -> Prop) `{forall n, Decision (P n)} (k : Z) :
  forallb (fun n => bool_decide (P n))
          (List.map Z.of_nat (seq 0 (Z.to_nat k))) = true ->
  forall n, 0 <= n < k -> P n.
Proof.
  intros Hall n Hn. rewrite forallb_forall in Hall.
  apply (bool_decide_eq_true_1 (P n)). apply Hall.
  apply in_map_iff. exists (Z.to_nat n). split; [lia|].
  apply in_seq. lia.
Qed.

(** ** Characters *)

Lemma of_Z_to_Z c : Chars.of_Z (Chars.to_Z c) = c.
Proof.
  unfold Chars.of_Z, Chars.to_Z. rewrite N2Z.id. apply ascii_N_embedding.
Qed.

Lemma to_Z_range c : 0 <= Chars.to_Z c < 256.
Proof.
  unfold Chars.to_Z. pose proof (N_ascii_bounded c) as H. lia.
Qed.

Lemma digit_val_digit d : 0 <= d <= 9 -> Chars.digit_val (Chars.digit d) = Some d.
Proof.
  intros Hd.
  apply (Z_below_forall (fun d => Chars.digit_val (Chars.digit d) = Some d) 10);
    [vm_compute; reflexivity | lia].
Qed.

Lemma digit_not_bar d : 0 <= d <= 9 -> Chars.digit d <> "|"%char.
Proof.
  intros Hd.
  apply (Z_below_forall (fun d => Chars.digit d <> "|"%char) 10);
    [vm_compute; reflexivity | lia].
Qed.

(** ** RFC 3339 text of a time reads back as the time *)

Module GoTimeFacts.
Import GoTime.

#[local] Arguments take_digit : simpl never.
#[local] Arguments take2 : simpl never.
#[local] Arguments take4 : simpl never.
#[local] Arguments take_hour : simpl never.
#[local] Arguments take_fraction : simpl never.
#[local] Arguments parse_zone : simpl never.
#[local] Arguments appendInt : simpl never.
#[local] Arguments Chars.digit : simpl never.
#[local] Arguments pad2 : simpl never.
#[local] Arguments valid : simpl never.

Lemma appendInt_2 n : 0 <= n <= 99 -> appendInt n 2 = pad2 n.
Proof.
  intros Hn.
  apply (Z_below_forall (fun n => appendInt n 2 = pad2 n) 100);
    [vm_compute; reflexivity | lia].
Qed.

Lemma appendInt_4 n : 0 <= n <= 9999 -> appendInt n 4 = pad4 n.
Proof.
  intros Hn.
  apply (Z_below_forall (fun n => appendInt n 4 = pad4 n) 10000);
    [vm_compute; reflexivity | lia].
Qed.

Ltac bind_step := cbn [mbind option_bind].

Lemma take_digit_digit d rest :
  0 <= d <= 9 -> take_digit (Chars.digit d :: rest) = Some (d, rest).
Proof.
  intros Hd. unfold take_digit. rewrite digit_val_digit by assumption.
  reflexivity.
Qed.

Lemma take2_pad2 n rest :
  0 <= n <= 99 -> take2 (pad2 n ++ rest) = Some (n, rest).
Proof.
  intros Hn. unfold take2, pad2. cbn [app].
  rewrite take_digit_digit by (Z.to_euclidean_division_equations; lia).
  bind_step.
  rewrite take_digit_digit by (Z.to_euclidean_division_equations; lia).
  bind_step. do 2 f_equal. Z.to_euclidean_division_equations; lia.
Qed.

Lemma take_hour_pad2 n rest :
  0 <= n <= 99 -> take_hour (pad2 n ++ rest) = Some (n, rest).
Proof.
  intros Hn. unfold take_hour, pad2. cbn [app].
  rewrite take_digit_digit by (Z.to_euclidean_division_equations; lia).
  bind_step.
  rewrite take_digit_digit by (Z.to_euclidean_division_equations; lia).
  do 2 f_equal. Z.to_euclidean_division_equations; lia.
Qed.

Lemma take4_pad4 n rest :
  0 <= n <= 9999 -> take4 (pad4 n ++ rest) = Some (n, rest).
Proof.
  intros Hn. unfold take4, pad4. rewrite <- app_assoc.
  rewrite take2_pad2 by (Z.to_euclidean_division_equations; lia).
  bind_step.
  rewrite take2_pad2 by (Z.to_euclidean_division_equations; lia).
  bind_step. do 2 f_equal. Z.to_euclidean_division_equations; lia.
Qed.

Lemma parse_zone_signed (sign : Z) (c : ascii) (a : Z) :
  Ascii.eqb c "Z" = false ->
  (if Ascii.eqb c "+" then Some 1
   else if Ascii.eqb c "-" then Some (-1) else None) = Some sign ->
  0 <= a < 1440 ->
  parse_zone (c :: pad2 (a / 60) ++ ":"%char :: pad2 (a mod 60))
    = Some (sign * a).
Proof.
  intros HZ Hsign Ha. unfold parse_zone. rewrite HZ, Hsign. bind_step.
  rewrite take2_pad2 by (Z.to_euclidean_division_equations; lia).
  bind_step. cbn [expect]. change (Ascii.eqb ":" ":") with true. cbv iota.
  bind_step.
  rewrite <- (app_nil_r (pad2 (a mod 60))).
  rewrite take2_pad2 by (Z.to_euclidean_division_equations; lia).
  bind_step.
  replace (a / 60 <=? 24) with true
    by (symmetry; apply Z.leb_le; Z.to_euclidean_division_equations; lia).
  replace (a mod 60 <=? 60) with true
    by (symmetry; apply Z.leb_le; Z.to_euclidean_division_equations; lia).
  cbn [andb]. f_equal. f_equal. Z.to_euclidean_division_equations; lia.
Qed.

Lemma parse_zone_format_zone z :
  -1440 < z < 1440 -> parse_zone (format_zone z) = Some z.
Proof.
  intros Hz. unfold format_zone.
  destruct (z =? 0) eqn:Hz0.
  - apply Z.eqb_eq in Hz0. subst z. reflexivity.
  - apply Z.eqb_neq in Hz0.
    rewrite !appendInt_2 by (Z.to_euclidean_division_equations; lia).
    destruct (z <? 0) eqn:Hneg.
    + apply Z.ltb_lt in Hneg.
      rewrite (parse_zone_signed (-1)) by (try reflexivity; lia).
      f_equal. lia.
    + apply Z.ltb_ge in Hneg.
      rewrite (parse_zone_signed 1) by (try reflexivity; lia).
      f_equal. lia.
Qed.

Lemma take_fraction_format_zone z :
  take_fraction (format_zone z) = (0, format_zone z).
Proof.
  unfold format_zone. destruct (z =? 0); [reflexivity|].
  destruct (z <? 0); reflexivity.
Qed.

Lemma valid_wall_ok t :
  valid t = true ->
  wall_ok (year t) (month t) (day t) (hour t) (minute t) (second t) = true.
Proof.
  unfold valid, wall_ok. rewrite !andb_true_iff. tauto.
Qed.

Lemma valid_bounds t :
  valid t = true ->
  1 <= month t <= 12 /\ 1 <= day t <= 31 /\ 0 <= hour t <= 23 /\
  0 <= minute t <= 59 /\ 0 <= second t <= 59 /\
  0 <= nanosecond t <= 999999999 /\ -1440 < zone t < 1440.
Proof.
  unfold valid. rewrite !andb_true_iff.
  rewrite !Z.leb_le, !Z.ltb_lt.
  intros H.
  assert (Hd : days_in (year t) (month t) <= 31).
  { unfold days_in.
    destruct (month t =? 2); [destruct (is_leap (year t)); lia|].
    destruct ((month t =? 4) || (month t =? 6) || (month t =? 9)
              || (month t =? 11)); lia. }
  lia.
Qed.

Lemma expect_head c rest : expect c (c :: rest) = Some rest.
Proof. unfold expect. rewrite Ascii.eqb_refl. reflexivity. Qed.

Lemma parse_format_chars t :
  valid t = true -> nanosecond t = 0 -> 0 <= year t <= 9999 ->
  parse_chars (format_chars t) = Some t.
Proof.
  intros Hv Hns Hy. pose proof (valid_bounds t Hv) as Hb.
  unfold format_chars, parse_chars.
  rewrite appendInt_4 by lia. rewrite !appendInt_2 by lia.
  rewrite take4_pad4 by lia. bind_step. rewrite expect_head. bind_step.
  rewrite take2_pad2 by lia. bind_step. rewrite expect_head. bind_step.
  rewrite take2_pad2 by lia. bind_step. rewrite expect_head. bind_step.
  rewrite take_hour_pad2 by lia. bind_step. rewrite expect_head. bind_step.
  rewrite take2_pad2 by lia. bind_step. rewrite expect_head. bind_step.
  rewrite take2_pad2 by lia. bind_step.
  rewrite take_fraction_format_zone.
  rewrite parse_zone_format_zone by lia. bind_step.
  rewrite (valid_wall_ok t Hv).
  destruct t as [y mo d h mi s ns z]. cbn in Hns. subst ns.
  reflexivity.
Qed.

(** Reading back what was printed: whole seconds, years of four digits. *)
Lemma Parse_Format t :
  valid t = true -> nanosecond t = 0 -> 0 <= year t <= 9999 ->
  ParseRFC3339 (FormatRFC3339 t) = Some t.
Proof.
  intros Hv Hns Hy. unfold ParseRFC3339, FormatRFC3339.
  rewrite list_ascii_of_string_of_list_ascii.
  apply parse_format_chars; assumption.
Qed.

Lemma pad2_no_bar n : 0 <= n <= 99 -> Forall (fun c => c <> "|"%char) (pad2 n).
Proof.
  intros Hn. unfold pad2.
  repeat constructor; apply digit_not_bar;
    Z.to_euclidean_division_equations; lia.
Qed.

Lemma format_chars_no_bar t :
  valid t = true -> 0 <= year t <= 9999 ->
  Forall (fun c => c <> "|"%char) (format_chars t).
Proof.
  intros Hv Hy. pose proof (valid_bounds t Hv) as Hb.
  unfold format_chars.
  rewrite appendInt_4 by lia. rewrite !appendInt_2 by lia.
  unfold pad4.
  repeat first
    [ apply Forall_app; split
    | apply Forall_cons; split; [discriminate|]
    | apply pad2_no_bar; Z.to_euclidean_division_equations; lia ].
  unfold format_zone. destruct (zone t =? 0).
  - repeat constructor. discriminate.
  - rewrite !appendInt_2 by (Z.to_euclidean_division_equations; lia).
    apply Forall_cons. split; [destruct (zone t <? 0); discriminate|].
    apply Forall_app. split.
    + apply pad2_no_bar. Z.to_euclidean_division_equations; lia.
    + apply Forall_cons. split; [discriminate|].
      apply pad2_no_bar. Z.to_euclidean_division_equations; lia.
Qed.

(** The same for every time [time.Parse] can hand out. *)
Lemma format_chars_no_bar_wide t :
  wall_ok (year t) (month t) (day t) (hour t) (minute t) (second t) = true ->
  0 <= hour t -> 0 <= minute t -> 0 <= second t ->
  0 <= year t <= 9999 -> -1500 <= zone t <= 1500 ->
  Forall (fun c => c <> "|"%char) (format_chars t).
Proof.
  intros Hw Hh Hmi Hs Hy Hz.
  unfold wall_ok in Hw. rewrite !andb_true_iff, !Z.leb_le in Hw.
  assert (Hd : days_in (year t) (month t) <= 31).
  { unfold days_in.
    destruct (month t =? 2); [destruct (is_leap (year t)); lia|].
    destruct ((month t =? 4) || (month t =? 6) || (month t =? 9)
              || (month t =? 11)); lia. }
  unfold format_chars.
  rewrite appendInt_4 by lia. rewrite !appendInt_2 by lia.
  unfold pad4.
  repeat first
    [ apply Forall_app; split
    | apply Forall_cons; split; [discriminate|]
    | apply pad2_no_bar; Z.to_euclidean_division_equations; lia ].
  unfold format_zone. destruct (zone t =? 0).
  - repeat constructor. discriminate.
  - rewrite !appendInt_2 by (Z.to_euclidean_division_equations; lia).
    apply Forall_cons. split; [destruct (zone t <? 0); discriminate|].
    apply Forall_app. split.
    + apply pad2_no_bar. Z.to_euclidean_division_equations; lia.
    + apply Forall_cons. split; [discriminate|].
      apply pad2_no_bar. Z.to_euclidean_division_equations; lia.
Qed.

End GoTimeFacts.

(** ** Base64 text decodes to what was encoded *)

Module Base64Facts.
Import Base64.

#[local] Arguments enc_char : simpl never.
#[local] Arguments dec_char : simpl never.
#[local] Arguments Chars.of_Z : simpl never.
#[local] Arguments Chars.to_Z : simpl never.

Lemma dec_enc n : 0 <= n < 64 -> dec_char (enc_char n) = Some n.
Proof.
  apply (Z_below_forall (fun n => dec_char (enc_char n) = Some n) 64).
  vm_compute. reflexivity.
Qed.

Lemma enc_not_pad n : 0 <= n < 64 -> Ascii.eqb (enc_char n) pad = false.
Proof.
  apply (Z_below_forall (fun n => Ascii.eqb (enc_char n) pad = false) 64).
  vm_compute. reflexivity.
Qed.

Lemma enc_not_newline n : 0 <= n < 64 -> is_newline (enc_char n) = false.
Proof.
  apply (Z_below_forall (fun n => is_newline (enc_char n) = false) 64).
  vm_compute. reflexivity.
Qed.

(** Lists three elements at a time. *)
Lemma list_ind3 {A} (P : list A -> Prop) :
  P [] -> (forall a, P [a]) -> (forall a b, P [a; b]) ->
  (forall a b c l, P l -> P (a :: b :: c :: l)) ->
  forall l, P l.
Proof.
  intros H0 H1 H2 H3.
  assert (H : forall l, P l /\ (forall a, P (a :: l))
                        /\ (forall a b, P (a :: b :: l))).
  { induction l as [|x l (IH0 & IH1 & IH2)].
    - repeat split; auto.
    - repeat split; auto. }
  intros l. apply H.
Qed.

Ltac div_lia := Z.to_euclidean_division_equations; lia.

Ltac quantum :=
  repeat first
    [ rewrite dec_enc by div_lia
    | rewrite enc_not_pad by div_lia
    | rewrite Ascii.eqb_refl
    | progress cbn [mbind option_bind andb] ].

Lemma byte_back a x : x = Chars.to_Z a -> Chars.of_Z x = a.
Proof. intros ->. apply of_Z_to_Z. Qed.

Lemma decode_encode_chars bs : decode_quanta (encode_chars bs) = Some bs.
Proof.
  induction bs as [|a|a b|a b c l IH] using list_ind3.
  - reflexivity.
  - pose proof (to_Z_range a) as Ha.
    cbn [encode_chars decode_quanta]. quantum.
    do 2 f_equal. apply byte_back. div_lia.
  - pose proof (to_Z_range a) as Ha. pose proof (to_Z_range b) as Hb.
    cbn [encode_chars decode_quanta]. quantum.
    f_equal. f_equal; [|f_equal]; apply byte_back; div_lia.
  - pose proof (to_Z_range a) as Ha. pose proof (to_Z_range b) as Hb.
    pose proof (to_Z_range c) as Hc.
    cbn [encode_chars decode_quanta]. fold encode_chars. quantum.
    rewrite IH. quantum.
    f_equal. f_equal; [|f_equal; [|f_equal]]; apply byte_back; div_lia.
Qed.

Lemma encode_chars_no_newline bs :
  List.filter (fun c => negb (is_newline c)) (encode_chars bs)
    = encode_chars bs.
Proof.
  induction bs as [|a|a b|a b c l IH] using list_ind3.
  - reflexivity.
  - pose proof (to_Z_range a) as Ha.
    cbn [encode_chars List.filter].
    rewrite !enc_not_newline by div_lia. reflexivity.
  - pose proof (to_Z_range a) as Ha. pose proof (to_Z_range b) as Hb.
    cbn [encode_chars List.filter].
    rewrite !enc_not_newline by div_lia. reflexivity.
  - pose proof (to_Z_range a) as Ha. pose proof (to_Z_range b) as Hb.
    pose proof (to_Z_range c) as Hc.
    cbn [encode_chars List.filter]. fold encode_chars.
    rewrite !enc_not_newline by div_lia. cbn [negb].
    rewrite IH. reflexivity.
Qed.

Lemma Decode_Encode data : DecodeString (EncodeToString data) = Some data.
Proof.
  unfold DecodeString, EncodeToString.
  rewrite list_ascii_of_string_of_list_ascii.
  rewrite encode_chars_no_newline, decode_encode_chars. simpl.
  rewrite string_of_list_ascii_of_string. reflexivity.
Qed.

Lemma Encode_nonempty data :
  data <> ""%string -> EncodeToString data <> ""%string.
Proof.
  intros Hne. unfold EncodeToString.
  destruct data as [|a data]; [congruence|]. simpl.
  destruct (list_ascii_of_string data) as [|b [|c l]]; discriminate.
Qed.

End Base64Facts.

(** ** Splitting at a separator *)

Lemma split_chars_none sep l :
  Forall (fun c => c <> sep) l -> split_chars sep l = [l].
Proof.
  induction 1 as [|c l Hc _ IH]; [reflexivity|]. simpl.
  destruct (Ascii.eqb c sep) eqn:Heq.
  - apply Ascii.eqb_eq in Heq. contradiction.
  - rewrite IH. reflexivity.
Qed.

Lemma split_chars_app sep l r :
  Forall (fun c => c <> sep) l ->
  split_chars sep (l ++ sep :: r) = l :: split_chars sep r.
Proof.
  induction 1 as [|c l Hc _ IH]; simpl.
  - rewrite Ascii.eqb_refl. reflexivity.
  - destruct (Ascii.eqb c sep) eqn:Heq.
    + apply Ascii.eqb_eq in Heq. contradiction.
    + rewrite IH. reflexivity.
Qed.

Lemma list_ascii_of_string_app a b :
  list_ascii_of_string (a ++ b)
    = list_ascii_of_string a ++ list_ascii_of_string b.
Proof.
  induction a as [|c a IH]; simpl; [reflexivity|]. rewrite IH. reflexivity.
Qed.

(** ** Page tokens *)

Lemma has_bar_false id :
  has_bar id = false ->
  Forall (fun c => c <> "|"%char) (list_ascii_of_string id).
Proof.
  unfold has_bar. induction (list_ascii_of_string id) as [|c l IH]; simpl.
  - constructor.
  - rewrite orb_false_iff. intros [Hc Hl]. constructor; [|auto].
    intros ->. discriminate Hc.
Qed.

Lemma Split_time_bar_id t id :
  GoTime.valid t = true -> 0 <= GoTime.year t <= 9999 ->
  has_bar id = false ->
  Split (GoTime.FormatRFC3339 t ++ "|" ++ id) "|"
    = [GoTime.FormatRFC3339 t; id].
Proof.
  intros Hv Hy Hid. unfold Split.
  rewrite list_ascii_of_string_app. simpl.
  unfold GoTime.FormatRFC3339 at 1.
  rewrite list_ascii_of_string_of_list_ascii.
  rewrite split_chars_app by (apply GoTimeFacts.format_chars_no_bar; assumption).
  rewrite split_chars_none by (apply has_bar_false; assumption).
  simpl. rewrite string_of_list_ascii_of_string. reflexivity.
Qed.




(** ** Canonicalize *)

(** The cases of [TestCanonicalize] and of the README. *)
Lemma Canonicalize_repository_tests :
  Canonicalize "https://EXAMPLE.com/"
    = Ok ("https://example.com"%string, "example.com"%string) /\
  Canonicalize "http://example.com:80/"
    = Ok ("http://example.com"%string, "example.com"%string) /\
  Canonicalize "https://example.com:443/"
    = Ok ("https://example.com"%string, "example.com"%string) /\
  Canonicalize "https://example.com/path/"
    = Ok ("https://example.com/path"%string, "example.com"%string) /\
  Canonicalize "https://example.com?b=2&a=1"
    = Ok ("https://example.com?a=1&b=2"%string, "example.com"%string) /\
  Canonicalize "HTTPS://EXAMPLE.COM/"
    = Ok ("https://example.com"%string, "example.com"%string).
Proof. repeat split; vm_compute; reflexivity. Qed.

(** C9 fails on the code: [normalizePath] takes one trailing slash off, so
    the canonical form of a plain URL whose path ends in two slashes still
    ends in a slash, and canonicalizing it once more gives another URL. *)
Theorem Canonicalize_twice_differs_on_double_slash :
  GoURL.plain "https://example.com/a//" = true /\
  Canonicalize "https://example.com/a//"
    = Ok ("https://example.com/a/"%string, "example.com"%string) /\
  GoURL.plain "https://example.com/a/" = true /\
  Canonicalize "https://example.com/a/"
    = Ok ("https://example.com/a"%string, "example.com"%string) /\
  normalizePath "/a//" = "/a/"%string /\
  normalizePath "/a/" = "/a"%string.
Proof. repeat split; vm_compute; reflexivity. Qed.

(** ** Further properties of the scheduler *)

(** In every reachable state the counter of the wait group is the number
    of scheduler loops and tasks that have not yet run their deferred
    [wg.Done()]; so it is never driven below zero, and it is zero exactly
    when all of them have finished. *)
Theorem waitgroup_counts_unfinished_goroutines :
  forall (st : DB) (ci ht sg mc : Z) (s : System),
    reachable st ci ht sg mc s ->
    wg (chk s)
      = (count sched_live (scheds s) + count task_live (tasks s))%nat /\
    (wg (chk s) = 0%nat <->
     (forall i pc, scheds s !! i = Some pc -> pc = SchedExited) /\
     (forall j t, tasks s !! j = Some t -> task_pc t = TaskExited)).
Proof.
  intros st ci ht sg mc s Hr.
  pose proof (wg_inv_reachable _ _ _ _ _ _ Hr) as Hwg. unfold wg_inv in Hwg.
  split; [exact Hwg|]. split.
  - eapply wg_zero_all_finished; eassumption.
  - intros [Hs Ht]. rewrite Hwg.
    assert (Hcs : count sched_live (scheds s) = 0%nat).
    { destruct (count sched_live (scheds s)) eqn:Hc; [reflexivity|].
      destruct (count_pos_elem sched_live (scheds s)) as (pc & Hin & Hp);
        [lia|].
      apply list_elem_of_In, list_elem_of_lookup in Hin as [i Hi].
      rewrite (Hs i pc Hi) in Hp. discriminate Hp. }
    assert (Hct : count task_live (tasks s) = 0%nat).
    { destruct (count task_live (tasks s)) eqn:Hc; [reflexivity|].
      destruct (count_pos_elem task_live (tasks s)) as (t & Hin & Hp);
        [lia|].
      apply list_elem_of_In, list_elem_of_lookup in Hin as [j Hj].
      unfold task_live in Hp. rewrite (Ht j t Hj) in Hp. discriminate Hp. }
    lia.
Qed.

(** The scenario: one scheduler loop and two tasks are under way. *)
Lemma waitgroup_counts_unfinished_goroutines_witness :
  wg (chk demo_state) = 3%nat.
Proof.
  assert (Hr : reachable demo_db 15000000000 5000000000 10000000000 2
                         demo_state).
  { apply (run_from_reachable _ _ _ _ _ demo_trace). vm_compute. reflexivity. }
  rewrite (proj1 (waitgroup_counts_unfinished_goroutines _ _ _ _ _ _ Hr)).
  vm_compute. reflexivity.
Defined.

(** When the store cannot list the targets, the pass ends there: the
    scheduler prints the failure and is back at the [select] of its loop,
    the checker is as before and no task was started. *)
Theorem failed_listing_ends_only_this_pass :
  forall (c : Checker) (fault : option string) (e : string),
    query_error (mkQueryEnv (ctx_done c) fault) = Some e ->
    sched_step (SevFetch fault) c SchedFetch
      = Some (c, SchedLoop, [],
              [("failed to fetch targets: " ++ "get targets: " ++ e)%string])
    /\ is_Some (sched_step SevTick c SchedLoop).
Proof.
  intros c fault e He. split.
  - simpl. unfold GetTargets. rewrite He. reflexivity.
  - eexists. reflexivity.
Qed.

(** A cancelled context makes the listing fail. *)
Lemma failed_listing_ends_only_this_pass_witness :
  sched_step (SevFetch None) (mkChecker demo_db 15 2 5 10 0 ∅ true 1)
             SchedFetch
    = Some (mkChecker demo_db 15 2 5 10 0 ∅ true 1, SchedLoop, [],
            ["failed to fetch targets: get targets: context canceled"%string]).
Proof.
  refine (proj1 (failed_listing_ends_only_this_pass
                   (mkChecker demo_db 15 2 5 10 0 ∅ true 1) None
                   "context canceled" _)).
  reflexivity.
Defined.

(** ** Pages of targets *)

Lemma string_compare_eq a b : String.compare a b = Eq <-> a = b.
Proof.
  split; [apply String.compare_eq_iff|]. intros ->. apply string_compare_refl.
Qed.

Lemma string_ltb_lt a b : String.ltb a b = true <-> String.compare a b = Lt.
Proof.
  unfold String.ltb. destruct (String.compare a b); split; congruence.
Qed.

Lemma string_ltb_trans a b c :
  String.ltb a b = true -> String.ltb b c = true -> String.ltb a c = true.
Proof. rewrite !string_ltb_lt. apply string_compare_lt_trans. Qed.

Lemma string_ltb_irrefl a : String.ltb a a = false.
Proof. unfold String.ltb. rewrite string_compare_refl. reflexivity. Qed.

Lemma string_leb_ltb_false a b :
  String.leb a b = true -> String.ltb b a = false.
Proof.
  unfold String.leb, String.ltb. rewrite (String.compare_antisym b a).
  destruct (String.compare a b); simpl; congruence.
Qed.

Lemma string_leb_neq_ltb a b :
  String.leb a b = true -> a <> b -> String.ltb a b = true.
Proof.
  unfold String.leb, String.ltb.
  destruct (String.compare a b) eqn:Hc; try congruence.
  apply string_compare_eq in Hc. congruence.
Qed.

(** [row_after] for the key of a row is the strict order of the rows. *)
Lemma row_after_of_le_false r x :
  row_le x r -> row_after (row_created_at r) (row_id r) x = false.
Proof.
  unfold row_le, row_leb, row_after, text_ltb. intros H.
  destruct (String.compare (row_created_at x) (row_created_at r)) eqn:Hc;
    try discriminate H.
  - apply string_compare_eq in Hc. rewrite Hc, string_ltb_irrefl.
    rewrite String.eqb_refl. simpl. apply string_leb_ltb_false. exact H.
  - assert (Hl : String.ltb (row_created_at r) (row_created_at x) = false).
    { apply string_leb_ltb_false. unfold String.leb. rewrite Hc. reflexivity. }
    rewrite Hl. simpl.
    destruct (String.eqb (row_created_at x) (row_created_at r)) eqn:He;
      [|reflexivity].
    apply String.eqb_eq in He. rewrite He, string_compare_refl in Hc.
    discriminate Hc.
Qed.

Lemma row_after_of_le_neq r x :
  row_le r x -> row_id r <> row_id x ->
  row_after (row_created_at r) (row_id r) x = true.
Proof.
  unfold row_le, row_leb, row_after, text_ltb. intros H Hne.
  destruct (String.compare (row_created_at r) (row_created_at x)) eqn:Hc;
    try discriminate H.
  - apply string_compare_eq in Hc. rewrite Hc, String.eqb_refl.
    rewrite (string_leb_neq_ltb _ _ H Hne). apply orb_true_r.
  - apply string_ltb_lt in Hc. rewrite Hc. reflexivity.
Qed.

Lemma row_after_trans ts id r x :
  row_after ts id r = true ->
  row_after (row_created_at r) (row_id r) x = true ->
  row_after ts id x = true.
Proof.
  unfold row_after, text_ltb. rewrite !orb_true_iff, !andb_true_iff.
  rewrite !String.eqb_eq.
  intros [H1 | [H1 H1']] [H2 | [H2 H2']].
  - left. eapply string_ltb_trans; eassumption.
  - left. rewrite H2. exact H1.
  - left. rewrite <- H1. exact H2.
  - right. split; [congruence|]. eapply string_ltb_trans; eassumption.
Qed.

Lemma NoDup_map_inj {A B} (f : A -> B) (l : list A) x y :
  NoDup (List.map f l) -> In x l -> In y l -> f x = f y -> x = y.
Proof.
  induction l as [|a l IH]; intros Hnd Hx Hy Hf; [destruct Hx|].
  simpl in Hnd. apply NoDup_cons in Hnd as [Ha Hnd].
  destruct Hx as [-> | Hx], Hy as [-> | Hy]; auto.
  - exfalso. apply Ha. rewrite Hf. apply list_elem_of_In, in_map. exact Hy.
  - exfalso. apply Ha. rewrite <- Hf. apply list_elem_of_In, in_map. exact Hx.
Qed.

Lemma row_le_antisym_id r1 r2 :
  row_le r1 r2 -> row_le r2 r1 -> row_id r1 = row_id r2.
Proof.
  unfold row_le, row_leb.
  rewrite (String.compare_antisym (row_created_at r2) (row_created_at r1)).
  destruct (String.compare (row_created_at r1) (row_created_at r2));
    simpl; intros H1 H2; try discriminate.
  apply String.leb_antisym; assumption.
Qed.

Lemma filter_Permutation {A} (p : A -> bool) (l l' : list A) :
  l ≡ₚ l' -> List.filter p l ≡ₚ List.filter p l'.
Proof.
  induction 1 as [|x l l' _ IH|x y l|l l' l'' _ IH1 _ IH2]; simpl.
  - reflexivity.
  - destruct (p x); [constructor|]; exact IH.
  - destruct (p x), (p y); try reflexivity. constructor.
  - etransitivity; eassumption.
Qed.

Lemma filter_StronglySorted {A} (R : relation A) (p : A -> bool) l :
  StronglySorted R l -> StronglySorted R (List.filter p l).
Proof.
  induction 1 as [|x l Hs IH Hx]; simpl; [constructor|].
  destruct (p x); [|exact IH]. constructor; [exact IH|].
  rewrite Forall_forall in Hx |- *. intros y Hy.
  apply list_elem_of_In, filter_In in Hy as [Hy _].
  apply Hx, list_elem_of_In. exact Hy.
Qed.

(** Sorting and filtering the rows of a table with distinct ids can be
    done in either order. *)
Lemma order_by_filter (p : TargetRow -> bool) (rows : list TargetRow) :
  NoDup (List.map row_id rows) ->
  List.filter p (order_by_created_at_id rows)
    = order_by_created_at_id (List.filter p rows).
Proof.
  intros Hnd. unfold order_by_created_at_id.
  apply (StronglySorted_unique_strong row_le).
  - intros x1 x2 H1 H2 H12 H21.
    apply list_elem_of_In, filter_In in H1 as [H1 _].
    apply list_elem_of_In in H1.
    rewrite (merge_sort_Permutation row_le rows) in H1.
    rewrite (merge_sort_Permutation row_le (List.filter p rows)) in H2.
    apply list_elem_of_In, filter_In in H2 as [H2 _].
    apply list_elem_of_In in H1.
    eapply (NoDup_map_inj row_id); try eassumption.
    apply row_le_antisym_id; assumption.
  - apply filter_StronglySorted. apply (StronglySorted_merge_sort row_le).
  - apply (StronglySorted_merge_sort row_le).
  - rewrite (merge_sort_Permutation row_le (List.filter p rows)).
    apply filter_Permutation. apply merge_sort_Permutation.
Qed.

Lemma filter_all_in {A} (p : A -> bool) (l : list A) :
  (forall x, In x l -> p x = true) -> List.filter p l = l.
Proof.
  induction l as [|x l IH]; intros H; simpl; [reflexivity|].
  rewrite (H x) by (left; reflexivity). rewrite IH; [reflexivity|].
  intros y Hy. apply H. right. exact Hy.
Qed.

Lemma filter_none_in {A} (p : A -> bool) (l : list A) :
  (forall x, In x l -> p x = false) -> List.filter p l = [].
Proof.
  induction l as [|x l IH]; intros H; simpl; [reflexivity|].
  rewrite (H x) by (left; reflexivity). apply IH.
  intros y Hy. apply H. right. exact Hy.
Qed.

(** In a sorted list of rows with distinct ids, the rows after a row in
    the order are those behind it in the list. *)
Lemma filter_row_after_split l1 r l2 :
  StronglySorted row_le (l1 ++ r :: l2) ->
  NoDup (List.map row_id (l1 ++ r :: l2)) ->
  List.filter (row_after (row_created_at r) (row_id r)) (l1 ++ r :: l2) = l2.
Proof.
  intros Hs Hnd. rewrite List.filter_app. simpl.
  apply StronglySorted_app in Hs as (H12 & _ & Hs2).
  apply StronglySorted_cons in Hs2 as [Hr2 _].
  assert (Hrr : row_after (row_created_at r) (row_id r) r = false).
  { apply row_after_of_le_false. destruct (row_le_total r r); assumption. }
  rewrite Hrr.
  replace (List.filter _ l1) with (@nil TargetRow).
  - simpl. apply filter_all_in. intros x Hx.
    apply row_after_of_le_neq.
    + rewrite Forall_forall in Hr2. apply Hr2, list_elem_of_In. exact Hx.
    + intros Heq. rewrite map_app in Hnd. simpl in Hnd.
      apply NoDup_app in Hnd as (_ & _ & Hnd).
      apply NoDup_cons in Hnd as [Hnd _]. apply Hnd. rewrite Heq.
      apply list_elem_of_In, in_map. exact Hx.
  - symmetry. apply filter_none_in. intros x Hx.
    apply row_after_of_le_false. apply H12.
    + apply list_elem_of_In. exact Hx.
    + left.
Qed.

Lemma targets_where_split hostFilter after afterID r :
  targets_where hostFilter after afterID r
    = host_matches hostFilter r
      && (if GoTime.IsZero after then true
          else row_after (formatTime after) afterID r).
Proof. reflexivity. Qed.

Lemma filter_filter_and {A} (p q : A -> bool) (l : list A) :
  List.filter p (List.filter q l) = List.filter (fun x => q x && p x) l.
Proof.
  induction l as [|x l IH]; simpl; [reflexivity|].
  destruct (q x); simpl; [destruct (p x)|]; rewrite IH; reflexivity.
Qed.

Lemma NoDup_map_filter {A B} (f : A -> B) (p : A -> bool) (l : list A) :
  NoDup (List.map f l) -> NoDup (List.map f (List.filter p l)).
Proof.
  induction l as [|x l IH]; simpl; intros Hnd; [constructor|].
  apply NoDup_cons in Hnd as [Hx Hnd].
  destruct (p x); simpl; [|auto].
  apply NoDup_cons. split; [|auto].
  intros Hin. apply Hx.
  apply list_elem_of_In, in_map_iff in Hin as (y & Hy & Hin).
  apply filter_In in Hin as [Hin _].
  rewrite <- Hy. apply list_elem_of_In, in_map. exact Hin.
Qed.

Lemma last_map {A B} (f : A -> B) (l : list A) :
  last (List.map f l) = f <$> last l.
Proof.
  induction l as [|x l IH]; [reflexivity|].
  destruct l as [|y l]; [reflexivity|]. exact IH.
Qed.

Lemma last_Some_split {A} (l : list A) x :
  last l = Some x -> exists l0, l = l0 ++ [x].
Proof.
  intros H. destruct (last_Some l x) as [Hl _]. exact (Hl H).
Qed.

Lemma sql_limit_beyond {A} n (rows : list A) :
  sql_limit n rows ++ beyond_limit n rows = rows.
Proof.
  unfold sql_limit, beyond_limit. destruct (n <? 0).
  - apply app_nil_r.
  - apply firstn_skipn.
Qed.

(** The rows a cursor taken from row [r] of a selection selects are the
    rows behind [r] in that selection. *)
Lemma rows_selected_after_row host after afterID db rows0 r rest :
  NoDup (List.map row_id (targets db)) ->
  canonical_row r = true ->
  rows_selected host after afterID db = rows0 ++ r :: rest ->
  rows_selected host (parseTime (row_created_at r)) (row_id r) db = rest.
Proof.
  intros Hnd Hcan Hsel.
  apply andb_true_iff in Hcan as [Hfmt Hnz].
  apply String.eqb_eq in Hfmt. apply negb_true_iff in Hnz.
  pose proof (NoDup_map_filter row_id (targets_where host after afterID)
                _ Hnd) as Hnd1.
  assert (Hr : In r (List.filter (targets_where host after afterID)
                                 (targets db))).
  { apply list_elem_of_In.
    rewrite <- (merge_sort_Permutation row_le).
    unfold rows_selected, order_by_created_at_id in Hsel. rewrite Hsel.
    apply list_elem_of_In, in_or_app. right. left. reflexivity. }
  apply filter_In in Hr as [_ Hr].
  rewrite targets_where_split in Hr. apply andb_true_iff in Hr as [_ Hcur].
  assert (Hfil :
    List.filter (targets_where host (parseTime (row_created_at r)) (row_id r))
                (targets db)
    = List.filter (row_after (row_created_at r) (row_id r))
        (List.filter (targets_where host after afterID) (targets db))).
  { rewrite filter_filter_and. apply filter_ext. intros x.
    rewrite !targets_where_split. rewrite Hnz, Hfmt.
    destruct (host_matches host x); simpl; [|reflexivity].
    destruct (row_after (row_created_at r) (row_id r) x) eqn:Hx;
      [|rewrite andb_false_r; reflexivity].
    destruct (GoTime.IsZero after); [reflexivity|].
    rewrite (row_after_trans _ _ r x Hcur Hx). reflexivity. }
  unfold rows_selected at 1. rewrite Hfil.
  rewrite <- order_by_filter by exact Hnd1.
  fold (rows_selected host after afterID db). rewrite Hsel.
  apply filter_row_after_split.
  - rewrite <- Hsel. apply (StronglySorted_merge_sort row_le).
  - rewrite <- Hsel. unfold rows_selected, order_by_created_at_id.
    assert (Hperm :
      List.map row_id
        (merge_sort row_le
           (List.filter (targets_where host after afterID) (targets db)))
      ≡ₚ List.map row_id
           (List.filter (targets_where host after afterID) (targets db))).
    { apply Permutation_map. apply merge_sort_Permutation. }
    rewrite Hperm. exact Hnd1.
Qed.

(** A page that comes with a cursor ends in a row of the table, and the
    cursor is read from that row. *)
Lemma GetTargets_page_cursor env host after afterID limit db page cur :
  GetTargets env host after afterID limit db = Ok (page, Some cur) ->
  exists rows0 r,
    page = List.map scan_target (rows0 ++ [r]) /\
    cur = mkCursor (parseTime (row_created_at r)) (row_id r) /\
    In r (targets db) /\
    rows_selected host after afterID db
      = rows0 ++ r :: beyond_limit limit (rows_selected host after afterID db)
    /\
    sql_limit limit (rows_selected host after afterID db) = rows0 ++ [r].
Proof.
  intros Hget.
  pose proof (GetTargets_inv _ _ _ _ _ _ _ _ Hget) as [Hq Hpage].
  set (A := rows_selected host after afterID db).
  change (select_targets host after afterID limit db)
    with (sql_limit limit A) in Hpage.
  unfold GetTargets in Hget. rewrite Hq in Hget.
  change (select_targets host after afterID limit db)
    with (sql_limit limit A) in Hget.
  destruct (last (List.map scan_target (sql_limit limit A))) as [l|] eqn:Hlast;
    [|discriminate Hget].
  inversion Hget; subst page cur. clear Hget.
  rewrite last_map in Hlast.
  destruct (last (sql_limit limit A)) as [r|] eqn:Hlr; [|discriminate Hlast].
  simpl in Hlast. inversion Hlast; subst l. clear Hlast. simpl.
  apply last_Some_split in Hlr as [rows0 Hrows].
  assert (HA : A = rows0 ++ r :: beyond_limit limit A).
  { rewrite <- (sql_limit_beyond limit A) at 1. rewrite Hrows.
    rewrite <- app_assoc. reflexivity. }
  exists rows0, r. rewrite Hrows.
  split; [reflexivity|]. split; [reflexivity|].
  split; [|split; [exact HA | reflexivity]].
  assert (Hr : r ∈ A).
  { rewrite HA. apply list_elem_of_In, in_or_app. right. left. reflexivity. }
  unfold A, rows_selected, order_by_created_at_id in Hr.
  rewrite (merge_sort_Permutation row_le) in Hr.
  apply list_elem_of_In, filter_In in Hr as [Hr _]. exact Hr.
Qed.



(** ** What [time.Parse] hands out *)

Lemma take_digit_range l d rest :
  GoTime.take_digit l = Some (d, rest) -> 0 <= d <= 9.
Proof.
  unfold GoTime.take_digit. destruct l as [|c l]; [discriminate|].
  unfold Chars.digit_val.
  destruct ((48 <=? Chars.to_Z c) && (Chars.to_Z c <=? 57)) eqn:Hc;
    simpl; [|discriminate].
  intros H. inversion H; subst. apply andb_true_iff in Hc as [H1 H2]. lia.
Qed.

Lemma take2_range l n rest :
  GoTime.take2 l = Some (n, rest) -> 0 <= n <= 99.
Proof.
  unfold GoTime.take2.
  destruct (GoTime.take_digit l) as [[a l1]|] eqn:Ha; simpl; [|discriminate].
  destruct (GoTime.take_digit l1) as [[b l2]|] eqn:Hb; simpl; [|discriminate].
  intros H. inversion H; subst.
  apply take_digit_range in Ha. apply take_digit_range in Hb. lia.
Qed.

Lemma take4_range l n rest :
  GoTime.take4 l = Some (n, rest) -> 0 <= n <= 9999.
Proof.
  unfold GoTime.take4.
  destruct (GoTime.take2 l) as [[a l1]|] eqn:Ha; simpl; [|discriminate].
  destruct (GoTime.take2 l1) as [[b l2]|] eqn:Hb; simpl; [|discriminate].
  intros H. inversion H; subst.
  apply take2_range in Ha. apply take2_range in Hb. lia.
Qed.

Lemma take_hour_range l n rest :
  GoTime.take_hour l = Some (n, rest) -> 0 <= n <= 99.
Proof.
  unfold GoTime.take_hour.
  destruct (GoTime.take_digit l) as [[a l1]|] eqn:Ha; simpl; [|discriminate].
  apply take_digit_range in Ha.
  destruct (GoTime.take_digit l1) as [[b l2]|] eqn:Hb;
    intros H; inversion H; subst; [|lia].
  apply take_digit_range in Hb. lia.
Qed.

Lemma parse_zone_range l z :
  GoTime.parse_zone l = Some z -> -1500 <= z <= 1500.
Proof.
  unfold GoTime.parse_zone. destruct l as [|c r]; [discriminate|].
  destruct (Ascii.eqb c "Z").
  { destruct r; [|discriminate]. intros H. inversion H. lia. }
  destruct (if Ascii.eqb c "+" then Some 1
            else if Ascii.eqb c "-" then Some (-1) else None)
    as [sign|] eqn:Hsign; simpl; [|discriminate].
  assert (Hs : sign = 1 \/ sign = -1).
  { destruct (Ascii.eqb c "+"); [inversion Hsign; auto|].
    destruct (Ascii.eqb c "-"); [inversion Hsign; auto|discriminate]. }
  destruct (GoTime.take2 r) as [[hh r1]|] eqn:Hhh; simpl; [|discriminate].
  destruct (GoTime.expect ":" r1) as [r2|]; simpl; [|discriminate].
  destruct (GoTime.take2 r2) as [[mm r3]|] eqn:Hmm; simpl; [|discriminate].
  apply take2_range in Hhh. apply take2_range in Hmm.
  destruct ((hh <=? 24) && (mm <=? 60) && (if r3 is [] then true else false))
    eqn:Hc; [|discriminate].
  rewrite !andb_true_iff, !Z.leb_le in Hc.
  intros H. inversion H. destruct Hs as [-> | ->]; lia.
Qed.

(** A time read from RFC 3339 text: its fields are in their ranges, its
    year has four digits, its zone is within 25 hours. *)
Lemma ParseRFC3339_shape s t :
  GoTime.ParseRFC3339 s = Some t ->
  GoTime.wall_ok (GoTime.year t) (GoTime.month t) (GoTime.day t)
                 (GoTime.hour t) (GoTime.minute t) (GoTime.second t) = true /\
  0 <= GoTime.hour t /\ 0 <= GoTime.minute t /\ 0 <= GoTime.second t /\
  0 <= GoTime.year t <= 9999 /\ -1500 <= GoTime.zone t <= 1500.
Proof.
  unfold GoTime.ParseRFC3339, GoTime.parse_chars.
  generalize (list_ascii_of_string s). intros l.
  destruct (GoTime.take4 l) as [[y l1]|] eqn:Hy; simpl; [|discriminate].
  destruct (GoTime.expect "-" l1) as [l2|]; simpl; [|discriminate].
  destruct (GoTime.take2 l2) as [[mo l3]|] eqn:Hmo; simpl; [|discriminate].
  destruct (GoTime.expect "-" l3) as [l4|]; simpl; [|discriminate].
  destruct (GoTime.take2 l4) as [[d l5]|] eqn:Hd; simpl; [|discriminate].
  destruct (GoTime.expect "T" l5) as [l6|]; simpl; [|discriminate].
  destruct (GoTime.take_hour l6) as [[h l7]|] eqn:Hh; simpl; [|discriminate].
  destruct (GoTime.expect ":" l7) as [l8|]; simpl; [|discriminate].
  destruct (GoTime.take2 l8) as [[mi l9]|] eqn:Hmi; simpl; [|discriminate].
  destruct (GoTime.expect ":" l9) as [l10|]; simpl; [|discriminate].
  destruct (GoTime.take2 l10) as [[sec l11]|] eqn:Hsec; simpl; [|discriminate].
  destruct (GoTime.take_fraction l11) as [ns l12].
  destruct (GoTime.parse_zone l12) as [z|] eqn:Hz; simpl; [|discriminate].
  destruct (GoTime.wall_ok y mo d h mi sec) eqn:Hw; [|discriminate].
  intros H. inversion H; subst. simpl.
  apply take4_range in Hy. apply take_hour_range in Hh.
  apply take2_range in Hmi. apply take2_range in Hsec.
  apply parse_zone_range in Hz.
  repeat split; try assumption; lia.
Qed.

(** ** [listTargets] *)

(** A token built from a time of whole seconds with a four-digit year and
    an id without [|] reads back. *)
Lemma token_reads_back t id :
  GoTime.valid t = true -> GoTime.nanosecond t = 0 ->
  0 <= GoTime.year t <= 9999 -> has_bar id = false ->
  parseCursorToken (buildCursorToken t id) = (t, id).
Proof.
  intros Hv Hns Hy Hid. unfold parseCursorToken, buildCursorToken.
  destruct (String.eqb _ "") eqn:Hempty.
  - apply String.eqb_eq in Hempty.
    apply Base64Facts.Encode_nonempty in Hempty; [destruct Hempty|].
    intros Heq. apply (f_equal list_ascii_of_string) in Heq.
    rewrite list_ascii_of_string_app in Heq. simpl in Heq.
    destruct (list_ascii_of_string (GoTime.FormatRFC3339 t));
      discriminate Heq.
  - rewrite Base64Facts.Decode_Encode.
    rewrite Split_time_bar_id by assumption.
    rewrite GoTimeFacts.Parse_Format by assumption. reflexivity.
Qed.

Lemma buildCursorToken_nonempty t id : buildCursorToken t id <> ""%string.
Proof.
  unfold buildCursorToken. apply Base64Facts.Encode_nonempty.
  intros Heq. apply (f_equal list_ascii_of_string) in Heq.
  rewrite list_ascii_of_string_app in Heq. simpl in Heq.
  destruct (list_ascii_of_string (GoTime.FormatRFC3339 t)); discriminate Heq.
Qed.

Lemma limit_param_bounds s dflt max :
  1 <= dflt <= max -> 1 <= limit_param s dflt max <= max.
Proof.
  intros Hd. unfold limit_param, parseInt.
  destruct (String.eqb s ""); [exact Hd|].
  destruct (Atoi s) as [v|]; [|exact Hd].
  destruct ((v <? 1) || (max <? v)) eqn:Hr; [exact Hd|].
  apply orb_false_iff in Hr as [H1 H2]. lia.
Qed.

Lemma Split_text_bar_id txt id :
  Forall (fun c => c <> "|"%char) (list_ascii_of_string txt) ->
  has_bar id = false ->
  Split (txt ++ "|" ++ id) "|" = [txt; id].
Proof.
  intros Htxt Hid. unfold Split.
  rewrite list_ascii_of_string_app. simpl.
  rewrite split_chars_app by assumption.
  rewrite split_chars_none by (apply has_bar_false; assumption).
  simpl. rewrite !string_of_list_ascii_of_string. reflexivity.
Qed.

(** So does the token built from the time a canonical [created_at] text
    reads as. *)
Lemma token_reads_back_text c id :
  String.eqb (formatTime (parseTime c)) c = true ->
  GoTime.IsZero (parseTime c) = false ->
  has_bar id = false ->
  parseCursorToken (buildCursorToken (parseTime c) id) = (parseTime c, id).
Proof.
  intros Hfmt Hnz Hid. apply String.eqb_eq in Hfmt.
  unfold parseTime in *.
  destruct (GoTime.ParseRFC3339 c) as [t|] eqn:Hp;
    [|vm_compute in Hnz; discriminate Hnz].
  unfold formatTime in Hfmt.
  destruct (ParseRFC3339_shape _ _ Hp) as (Hw & Hh & Hmi & Hs & Hy & Hz).
  unfold parseCursorToken, buildCursorToken.
  destruct (String.eqb _ "") eqn:Hempty.
  - apply String.eqb_eq in Hempty.
    apply Base64Facts.Encode_nonempty in Hempty; [destruct Hempty|].
    intros Heq. apply (f_equal list_ascii_of_string) in Heq.
    rewrite list_ascii_of_string_app in Heq. simpl in Heq.
    destruct (list_ascii_of_string (GoTime.FormatRFC3339 t));
      discriminate Heq.
  - rewrite Base64Facts.Decode_Encode. rewrite Hfmt.
    rewrite Split_text_bar_id; [rewrite Hp; reflexivity | | exact Hid].
    rewrite <- Hfmt. unfold GoTime.FormatRFC3339.
    rewrite list_ascii_of_string_of_list_ascii.
    apply GoTimeFacts.format_chars_no_bar_wide; assumption.
Qed.



(** Whatever the parameters, a successful [listTargets] returns at most
    100 items, each read from a row of the table and, with a host filter,
    of that host; the token is empty exactly when there are no items; and
    a page token that is empty or malformed is treated as no token. *)
Theorem listTargets_bounds_and_bad_tokens :
  forall (env : QueryEnv) (host limitParam pageToken : string) (db : DB),
    1 <= limit_param limitParam 20 100 <= 100 /\
    (forall resp,
       listTargets env host limitParam pageToken db = (200, Ok resp) ->
       (length (lt_items resp) <= 100)%nat /\
       (forall t, In t (lt_items resp) ->
          exists r, In r (targets db) /\ t = scan_target r /\
                    (host <> ""%string -> Host t = host)) /\
       (lt_next_page_token resp = ""%string <-> lt_items resp = [])) /\
    (pageToken = ""%string \/ malformed pageToken ->
     listTargets env host limitParam pageToken db
       = listTargets env host limitParam "" db).
Proof.
  intros env host lp token db.
  pose proof (limit_param_bounds lp 20 100 ltac:(lia)) as Hlim.
  split; [exact Hlim|]. split.
  - intros resp Hlist. unfold listTargets in Hlist.
    destruct (parseCursorToken token) as [after afterID].
    destruct (GetTargets env host after afterID (limit_param lp 20 100) db)
      as [[page cursor]|e] eqn:Hget; [|discriminate Hlist].
    inversion Hlist; subst resp. clear Hlist. simpl.
    pose proof (GetTargets_inv _ _ _ _ _ _ _ _ Hget) as [Hq Hpage].
    split; [|split].
    + subst page. rewrite length_map. unfold select_targets, sql_limit.
      destruct (limit_param lp 20 100 <? 0) eqn:Hneg; [lia|].
      rewrite length_firstn. lia.
    + intros t Ht. subst page. apply in_map_iff in Ht as (r & Hr & Hin).
      unfold select_targets, sql_limit in Hin.
      assert (Hin' : In r (order_by_created_at_id
                (List.filter (targets_where host after afterID) (targets db)))).
      { destruct (limit_param lp 20 100 <? 0); [exact Hin|].
        rewrite <- (firstn_skipn (Z.to_nat (limit_param lp 20 100))).
        apply in_or_app. left. exact Hin. }
      apply list_elem_of_In in Hin'.
      unfold order_by_created_at_id in Hin'.
      rewrite (merge_sort_Permutation row_le) in Hin'.
      apply list_elem_of_In, filter_In in Hin' as [Hin' Hw].
      exists r. split; [exact Hin'|]. split; [symmetry; exact Hr|].
      intros Hhost. subst t. simpl.
      rewrite targets_where_split in Hw. apply andb_true_iff in Hw as [Hw _].
      unfold host_matches in Hw.
      destruct (String.eqb host "") eqn:He.
      * apply String.eqb_eq in He. contradiction.
      * apply String.eqb_eq. exact Hw.
    + unfold GetTargets in Hget. rewrite Hq in Hget.
      destruct (last _) as [l|] eqn:Hlast.
      * inversion Hget; subst. split.
        -- intros Hb. apply buildCursorToken_nonempty in Hb. destruct Hb.
        -- intros Hnil. rewrite Hnil in Hlast. discriminate Hlast.
      * inversion Hget; subst. split; reflexivity.
  - intros Hbad. unfold listTargets.
    assert (Hz : parseCursorToken token = (GoTime.zero, ""%string)).
    { destruct Hbad as [-> | Hbad]; [reflexivity|].
      unfold parseCursorToken.
      destruct (String.eqb token ""); [reflexivity|].
      destruct Hbad as [Hdec | (decoded & Hdec & Hparts)]; rewrite Hdec;
        [reflexivity|].
      destruct Hparts as [Hlen | (p0 & p1 & Hsplit & Hparse)].
      + destruct (Split decoded "|") as [|p0 [|p1 [|p2 l]]];
          simpl in Hlen; try reflexivity. congruence.
      + rewrite Hsplit, Hparse. reflexivity. }
    rewrite Hz. reflexivity.
Qed.

(** ** Registering a target and finding it again *)

Lemma whole_seconds_format t :
  GoTime.FormatRFC3339 (whole_seconds t) = GoTime.FormatRFC3339 t.
Proof. reflexivity. Qed.

Lemma whole_seconds_valid t :
  GoTime.valid t = true -> GoTime.valid (whole_seconds t) = true.
Proof.
  unfold GoTime.valid, whole_seconds. simpl.
  rewrite !andb_true_iff, !Z.leb_le, !Z.ltb_lt. intros H.
  repeat split; lia.
Qed.

(** Reading back the text of a time gives the time to the second. *)
Lemma parseTime_formatTime t :
  GoTime.valid t = true -> 0 <= GoTime.year t <= 9999 ->
  parseTime (formatTime t) = whole_seconds t.
Proof.
  intros Hv Hy. unfold parseTime, formatTime.
  rewrite <- whole_seconds_format.
  rewrite GoTimeFacts.Parse_Format;
    [reflexivity | apply whole_seconds_valid; exact Hv | reflexivity
    | exact Hy].
Qed.

Lemma find_app_none {A} (p : A -> bool) (l : list A) x :
  List.find p l = None -> p x = true -> List.find p (l ++ [x]) = Some x.
Proof.
  induction l as [|y l IH]; simpl; intros Hn Hx.
  - rewrite Hx. reflexivity.
  - destruct (p y); [discriminate Hn|]. apply IH; assumption.
Qed.

(** The first registration of a URL creates the target with id ["t_"]
    followed by the UUID, and appends its row; registering the same URL
    afterwards, with whatever host argument, returns that id, URL and the
    host stored at first, [created = false], and the creation time cut to
    whole seconds, and leaves the database as it is.  The statements do
    not fail, the id is not yet in the table, and the clock shows a
    four-digit year. *)
Theorem UpsertTargetByURL_create_then_find :
  forall (env env' : UpsertEnv) (url host host' : string) (db : DB),
    select_target_by_url url db = None ->
    (forall r, In r (targets db) -> row_id r <> ("t_" ++ up_uuid env)%string) ->
    query_error (up_select env) = None ->
    query_error (up_insert env) = None ->
    GoTime.valid (up_now env) = true ->
    0 <= GoTime.year (up_now env) <= 9999 ->
    query_error (up_select env') = None ->
    let first := UpsertTargetByURL env url host db in
    first.1 = Ok (mkTarget ("t_" ++ up_uuid env) url host (up_now env), true)
    /\
    targets first.2
      = targets db ++ [mkTargetRow ("t_" ++ up_uuid env) url host
                                   (formatTime (up_now env))] /\
    check_results first.2 = check_results db /\
    UpsertTargetByURL env' url host' first.2
      = (Ok (mkTarget ("t_" ++ up_uuid env) url host
                      (whole_seconds (up_now env)), false),
         first.2).
Proof.
  intros env env' url host host' db Hsel Hfresh Hq1 Hq2 Hv Hy Hq' first.
  assert (Hex :
    existsb (fun r' =>
               String.eqb (row_id r') ("t_" ++ up_uuid env)
               || String.eqb (row_url r') url) (targets db) = false).
  { apply not_true_is_false. intros Hex.
    apply existsb_exists in Hex as (r & Hin & Hr).
    apply orb_true_iff in Hr as [Hr | Hr]; apply String.eqb_eq in Hr.
    - exact (Hfresh r Hin Hr).
    - unfold select_target_by_url in Hsel.
      pose proof (find_none _ _ Hsel r Hin) as Hn. simpl in Hn.
      rewrite Hr, String.eqb_refl in Hn. discriminate Hn. }
  assert (Hfirst :
    first = (Ok (mkTarget ("t_" ++ up_uuid env) url host (up_now env), true),
             mkDB (targets db ++ [mkTargetRow ("t_" ++ up_uuid env) url host
                                              (formatTime (up_now env))])
                  (check_results db) (results_seq db))).
  { unfold first, UpsertTargetByURL. rewrite Hq1, Hsel, Hq2.
    unfold insert_target. simpl. rewrite Hex. reflexivity. }
  rewrite Hfirst. simpl.
  split; [reflexivity|]. split; [reflexivity|]. split; [reflexivity|].
  unfold UpsertTargetByURL. rewrite Hq'.
  unfold select_target_by_url. simpl.
  rewrite (find_app_none _ _ _ Hsel) by (simpl; apply String.eqb_refl).
  unfold scan_target. simpl.
  rewrite parseTime_formatTime by assumption. reflexivity.
Qed.

(** The scenario: a fourth URL is registered at 2024-01-01T00:05:00 and a
    fraction, then registered again. *)
Lemma UpsertTargetByURL_create_then_find_witness :
  UpsertTargetByURL demo_upsert_env "https://example.com/c" "other.host"
    (UpsertTargetByURL demo_upsert_env "https://example.com/c" "example.com"
                       demo_db).2
  = (Ok (mkTarget "t_6ba7b810-9dad-11d1-80b4-00c04fd430c8"
                  "https://example.com/c" "example.com"
                  (GoTime.mkTime 2024 1 1 0 5 0 0 0), false),
     (UpsertTargetByURL demo_upsert_env "https://example.com/c" "example.com"
                        demo_db).2).
Proof.
  refine (proj2 (proj2 (proj2
    (UpsertTargetByURL_create_then_find
       demo_upsert_env demo_upsert_env "https://example.com/c" "example.com"
       "other.host" demo_db _ _ _ _ _ _ _)))).
  - reflexivity.
  - intros r Hin. simpl in Hin.
    repeat (destruct Hin as [<- | Hin]; [discriminate|]). destruct Hin.
  - reflexivity.
  - reflexivity.
  - reflexivity.
  - simpl. lia.
  - reflexivity.
Defined.

(** ** The results the checker stores *)

Lemma performCheck_row_ok id tg env :
  result_row_ok (result_row id (performCheck tg env)) = true.
Proof.
  unfold performCheck. destruct (probe_outcome env); reflexivity.
Qed.

Lemma InsertCheckResult_results_ok env r db :
  result_row_ok (result_row (results_seq db + 1) r) = true ->
  results_ok db -> results_ok (InsertCheckResult env r db).2.
Proof.
  intros Hr [Hall Hs]. unfold InsertCheckResult.
  destruct (query_error env); [split; assumption|]. simpl.
  fold (result_row (results_seq db + 1) r).
  split.
  - apply Forall_app. split.
    + eapply Forall_impl; [exact Hall|]. simpl. intros x [Hx Hid].
      split; [exact Hx | lia].
    + constructor; [|constructor]. split; [exact Hr | simpl; lia].
  - apply StronglySorted_app_2; [|exact Hs|repeat constructor].
    intros x1 x2 H1 H2. apply list_elem_of_singleton in H2. subst x2. simpl.
    rewrite Forall_forall in Hall. destruct (Hall x1 H1) as [_ Hid]. lia.
Qed.

Lemma UpsertTargetByURL_results env url host db :
  check_results (UpsertTargetByURL env url host db).2 = check_results db /\
  results_seq (UpsertTargetByURL env url host db).2 = results_seq db.
Proof.
  unfold UpsertTargetByURL.
  destruct (query_error (up_select env)); [split; reflexivity|].
  destruct (select_target_by_url url db); [split; reflexivity|].
  destruct (query_error (up_insert env)); [split; reflexivity|].
  unfold insert_target. destruct (existsb _ (targets db)); split; reflexivity.
Qed.

Lemma pending_inv_step a s s' :
  pending_inv s -> exec a s = Some s' -> pending_inv s'.
Proof.
  unfold pending_inv. intros Hpend H. exec_inv H; simpl.
  - assumption.
  - assumption.
  - apply sched_step_moves in Hst.
    intros j t r Hj Hpc'.
    apply lookup_app_Some in Hj as [Hj | [_ Hj]]; [eauto|].
    inversion Hst; subst; simpl in Hj;
      try (rewrite lookup_nil in Hj; discriminate Hj).
    destruct (j - length (tasks s))%nat; simpl in Hj;
      [|rewrite lookup_nil in Hj; discriminate Hj].
    inversion Hj; subst t. discriminate Hpc'.
  - pose proof (lookup_lt_Some _ _ _ Ht) as Hlen.
    apply task_step_moves in Hst as [Htg Hst].
    intros j t1 r Hj Hpc'.
    destruct (decide (i = j)) as [->|Hne].
    + rewrite list_lookup_insert_eq in Hj by assumption.
      inversion Hj; subst t1. rewrite Htg.
      inversion Hst; try congruence.
      match goal with
      | Hr : TaskSave _ = task_pc t0 |- _ =>
          rewrite Hpc' in Hr; inversion Hr; subst
      end.
      eexists. reflexivity.
    + rewrite list_lookup_insert_ne in Hj by assumption. eauto.
  - assumption.
  - assumption.
Qed.

Lemma pending_inv_reachable st ci ht sg mc s :
  reachable st ci ht sg mc s -> pending_inv s.
Proof.
  induction 1 as [c Hc | s a s' _ IH Hexec].
  - intros j t r Hj. simpl in Hj. rewrite lookup_nil in Hj. discriminate Hj.
  - eapply pending_inv_step; eassumption.
Qed.

Lemma results_ok_step a s s' :
  pending_inv s -> results_ok (store (chk s)) -> exec a s = Some s' ->
  results_ok (store (chk s')).
Proof.
  intros Hpend Hok H. exec_inv H; simpl.
  - assumption.
  - assumption.
  - apply sched_step_moves in Hst.
    inversion Hst; subst; simpl; assumption.
  - apply task_step_moves in Hst as [Htg Hst].
    inversion Hst; subst; simpl; try assumption.
    apply InsertCheckResult_results_ok; [|assumption].
    match goal with
    | Hr : TaskSave ?r = task_pc t |- _ =>
        destruct (Hpend i t r Ht (eq_sym Hr)) as [env ->]
    end.
    apply performCheck_row_ok.
  - apply shut_step_moves in Hst.
    inversion Hst; subst; simpl; assumption.
  - destruct (UpsertTargetByURL_results env url host (store (chk s)))
      as [Hc Hq]. rewrite Hup in Hc, Hq. simpl in Hc, Hq.
    destruct Hok as [Hall Hs]. unfold results_ok. simpl. rewrite Hc, Hq.
    split; assumption.
Qed.

(** The rows of [check_results] written by the checker: starting from a
    table whose rows have exactly one of status code and error and
    increasing ids not above the sequence, every state the program reaches
    has such a table again, whatever the probes and the statements did. *)
Theorem stored_results_stay_well_formed :
  forall (st : DB) (ci ht sg mc : Z) (s : System),
    results_ok st ->
    reachable st ci ht sg mc s ->
    results_ok (store (chk s)).
Proof.
  intros st ci ht sg mc s Hst Hr.
  induction Hr as [c Hc | s a s' Hr IH Hexec].
  - apply NewChecker_fields in Hc as [_ ->]. exact Hst.
  - eapply results_ok_step; [|exact IH|exact Hexec].
    eapply pending_inv_reachable; eassumption.
Qed.

Lemma demo_saved_reachable :
  reachable demo_db 15000000000 5000000000 10000000000 2 demo_saved_state.
Proof.
  apply (run_from_reachable _ _ _ _ _ demo_saved_trace).
  vm_compute. reflexivity.
Qed.

Lemma stored_results_stay_well_formed_witness :
  List.map res_id (check_results (store (chk demo_saved_state))) = [1] /\
  results_ok (store (chk demo_saved_state)).
Proof.
  split; [vm_compute; reflexivity|].
  apply (stored_results_stay_well_formed demo_db 15000000000 5000000000
           10000000000 2 demo_saved_state).
  - split; constructor.
  - exact demo_saved_reachable.
Defined.

(** ** One stored result per check at most *)

Lemma stored_inv_change st s s' :
  check_results (store (chk s')) = check_results (store (chk s)) ->
  (forall j t, tasks s !! j = Some t ->
     exists t', tasks s' !! j = Some t' /\ task_target t' = task_target t /\
                (task_past_save t = true -> task_past_save t' = true)) ->
  (count task_past_save (tasks s) <= count task_past_save (tasks s'))%nat ->
  stored_inv st s -> stored_inv st s'.
Proof.
  intros Hc Hk Hn (added & Heq & Hlen & Hall). exists added.
  rewrite Hc. split; [exact Heq|]. split; [lia|].
  eapply Forall_impl; [exact Hall|]. simpl.
  intros row (j & t & Hj & Hp & Hid).
  destruct (Hk j t Hj) as (t' & Hj' & Htg & Hp').
  exists j, t'. rewrite Htg. auto.
Qed.

Lemma stored_inv_step st a s s' :
  pending_inv s -> stored_inv st s -> exec a s = Some s' -> stored_inv st s'.
Proof.
  intros Hpend Hinv H. exec_inv H.
  - apply (stored_inv_change st s); simpl; eauto.
  - apply (stored_inv_change st s); simpl; eauto.
  - apply sched_step_moves in Hst.
    apply (stored_inv_change st s); simpl.
    + inversion Hst; subst; reflexivity.
    + intros j t Hj. exists t. split; [|auto].
      apply lookup_app_l_Some. exact Hj.
    + rewrite count_app. lia.
    + exact Hinv.
  - pose proof (lookup_lt_Some _ _ _ Ht) as Hlen.
    pose proof (count_insert task_past_save _ _ t0 _ Ht) as Hcnt.
    apply task_step_moves in Hst as [Htg Hst].
    assert (Hkeep : forall j t1, tasks s !! j = Some t1 ->
              (task_rank (task_pc t) <= task_rank (task_pc t0))%nat ->
              exists t', <[i := t0]> (tasks s) !! j = Some t' /\
                task_target t' = task_target t1 /\
                (task_past_save t1 = true -> task_past_save t' = true)).
    { intros j t1 Hj Hrank. destruct (decide (i = j)) as [->|Hne].
      - exists t0. rewrite list_lookup_insert_eq by assumption.
        rewrite Ht in Hj. inversion Hj; subst t1.
        split; [reflexivity|]. split; [exact Htg|].
        unfold task_past_save. rewrite !Nat.leb_le. lia.
      - exists t1. rewrite list_lookup_insert_ne by assumption. auto. }
    destruct t as [tg pc], t0 as [tg0 pc0]. simpl in Htg, Hst. subst tg0.
    inversion Hst; subst; simpl in Hkeep; cbn in Hcnt;
      try (apply (stored_inv_change st s); simpl;
           [reflexivity
           | intros j t1 Hj; apply (Hkeep j t1 Hj); lia
           | lia
           | exact Hinv]).
    (* the save *)
    destruct Hinv as (added & Heq & Hlen' & Hall).
    assert (Hold : Forall (fun row => exists j t,
                      <[i := mkTask tg TaskReleaseHost]> (tasks s) !! j = Some t
                      /\ task_past_save t = true
                      /\ res_target_id row = ID (task_target t)) added).
    { eapply Forall_impl; [exact Hall|]. simpl.
      intros row (j & t1 & Hj & Hp & Hid).
      destruct (Hkeep j t1 Hj) as (t' & Hj' & Htg' & Hp'); [simpl; lia|].
      exists j, t'. rewrite Htg'. auto. }
    unfold InsertCheckResult. simpl.
    destruct (query_error _).
    + exists added. simpl. split; [exact Heq|]. split; [lia|exact Hold].
    + exists (added ++ [result_row (results_seq (store (chk s)) + 1) r]).
      simpl. split; [|split].
      * rewrite Heq, <- app_assoc. reflexivity.
      * rewrite length_app. simpl. lia.
      * apply Forall_app. split; [exact Hold|].
        constructor; [|constructor].
        exists i, (mkTask tg TaskReleaseHost).
        rewrite list_lookup_insert_eq by assumption.
        split; [reflexivity|]. split; [reflexivity|]. simpl.
        destruct (Hpend i _ r Ht eq_refl) as [env ->]. simpl.
        unfold performCheck. destruct (probe_outcome env); reflexivity.
  - apply shut_step_moves in Hst.
    apply (stored_inv_change st s); simpl; eauto.
    inversion Hst; subst; reflexivity.
  - destruct (UpsertTargetByURL_results env url host (store (chk s)))
      as [Hc _]. rewrite Hup in Hc. simpl in Hc.
    apply (stored_inv_change st s); simpl; eauto.
Qed.

(** The checker only ever appends to [check_results], and stores at most
    one row for a run of [checkTarget]: in every reachable state the table
    is the one the checker started with followed by no more rows than there
    are tasks past their call of [InsertCheckResult], and each of these rows
    carries the id of the target of such a task. *)
Theorem at_most_one_stored_result_per_check :
  forall (st : DB) (ci ht sg mc : Z) (s : System),
    reachable st ci ht sg mc s ->
    exists added,
      check_results (store (chk s)) = check_results st ++ added /\
      (length added <= count task_past_save (tasks s))%nat /\
      Forall (fun row => exists j t, tasks s !! j = Some t /\
                           task_past_save t = true /\
                           res_target_id row = ID (task_target t)) added.
Proof.
  intros st ci ht sg mc s Hr.
  change (stored_inv st s).
  induction Hr as [c Hc | s a s' Hr IH Hexec].
  - apply NewChecker_fields in Hc as [_ ->]. exists []. simpl.
    rewrite app_nil_r. split; [reflexivity|]. split; [lia|constructor].
  - eapply stored_inv_step; [|exact IH|exact Hexec].
    eapply pending_inv_reachable; eassumption.
Qed.

Lemma at_most_one_stored_result_per_check_witness :
  exists added,
    check_results (store (chk demo_saved_state))
      = check_results demo_db ++ added /\
    (length added <= count task_past_save (tasks demo_saved_state))%nat /\
    Forall (fun row => exists j t, tasks demo_saved_state !! j = Some t /\
                         task_past_save t = true /\
                         res_target_id row = ID (task_target t)) added.
Proof.
  exact (at_most_one_stored_result_per_check demo_db 15000000000 5000000000
           10000000000 2 demo_saved_state demo_saved_reachable).
Defined.

(** ** Reading the results of a target *)

#[global] Instance res_newer_trans : Transitive res_newer.
Proof.
  intros r1 r2 r3 H12 H23. unfold res_newer in *.
  eapply string_leb_trans; eassumption.
Qed.

#[global] Instance res_newer_total : Total res_newer.
Proof. intros r1 r2. unfold res_newer. apply String.leb_total. Qed.

Lemma sql_limit_length {A} n (rows : list A) :
  0 <= n ->
  Z.of_nat (length (sql_limit n rows)) <= n /\
  (beyond_limit n rows <> [] -> Z.of_nat (length (sql_limit n rows)) = n).
Proof.
  intros Hn. unfold sql_limit, beyond_limit.
  destruct (n <? 0) eqn:Hneg; [apply Z.ltb_lt in Hneg; lia|].
  rewrite length_firstn. split; [lia|].
  intros Hrest.
  destruct (decide (Z.to_nat n <= length rows)%nat) as [Hle|Hgt]; [lia|].
  exfalso. apply Hrest. apply skipn_all2. lia.
Qed.



(** [getResults] answers 400 exactly when the target id is empty or a
    given [since] is not RFC 3339, and 500 exactly when, past these tests,
    the query fails; a 200 carries at most 200 results, each read from a
    stored row of the asked target. *)
Theorem getResults_statuses_and_bounds :
  forall (env : QueryEnv) (targetID sinceParam limitParam : string) (db : DB),
    let answer := getResults env targetID sinceParam limitParam db in
    let bad_request :=
      targetID = ""%string \/
      (sinceParam <> ""%string /\ GoTime.ParseRFC3339 sinceParam = None) in
    (answer.1 = 400 <-> bad_request) /\
    (answer.1 = 500 <-> ~ bad_request /\ query_error env <> None) /\
    (answer.1 = 200 <-> ~ bad_request /\ query_error env = None) /\
    (forall rs, answer = (200, Ok rs) ->
       (length rs <= 200)%nat /\
       forall r, In r rs ->
         TargetID r = targetID /\
         exists row, In row (check_results db) /\ r = scan_result row).
Proof.
  intros env targetID sinceParam lp db.
  assert (Hlim : 1 <= limit_param lp 50 200 <= 200)
    by (apply limit_param_bounds; lia).
  intros answer bad_request.
  unfold answer, getResults. clear answer.
  destruct (String.eqb targetID "") eqn:Hid.
  { apply String.eqb_eq in Hid.
    assert (Hbad : bad_request) by (left; exact Hid). simpl.
    split; [split; [intros _; exact Hbad | reflexivity]|].
    split; [split; [discriminate | intros [Hn _]; contradiction]|].
    split; [split; [discriminate | intros [Hn _]; contradiction]|].
    intros rs H. discriminate H. }
  apply String.eqb_neq in Hid.
  destruct (if String.eqb sinceParam "" then Some GoTime.zero
            else GoTime.ParseRFC3339 sinceParam) as [since|] eqn:Hsince.
  - assert (Hgood : ~ bad_request).
    { intros [Hbad | [Hne Hbad]]; [contradiction|].
      destruct (String.eqb sinceParam "") eqn:He;
        [apply String.eqb_eq in He; contradiction|congruence]. }
    unfold GetResults. destruct (query_error env) as [e|] eqn:Hq; simpl.
    + split; [split; [discriminate | intros Hb; contradiction]|].
      split; [split; [intros _; split; [exact Hgood | discriminate]
                     | reflexivity]|].
      split; [split; [discriminate | intros [_ Hn]; discriminate Hn]|].
      intros rs H. discriminate H.
    + split; [split; [discriminate | intros Hb; contradiction]|].
      split; [split; [discriminate | intros [_ Hn]; contradiction]|].
      split; [split; [intros _; split; [exact Hgood | reflexivity]
                     | reflexivity]|].
      intros rs H. inversion H; subst rs. clear H. split.
      * rewrite length_map. unfold select_results, sql_limit.
        destruct (limit_param lp 50 200 <? 0) eqn:Hneg;
          [apply Z.ltb_lt in Hneg; lia|].
        rewrite length_firstn. lia.
      * intros r Hr. apply in_map_iff in Hr as (row & <- & Hin).
        unfold select_results in Hin.
        assert (Hin' : row ∈ merge_sort res_newer
                  (List.filter (results_where targetID (formatTime since))
                               (check_results db))).
        { apply list_elem_of_In.
          rewrite <- (sql_limit_beyond (limit_param lp 50 200)).
          apply in_or_app. left. exact Hin. }
        rewrite merge_sort_Permutation in Hin'.
        apply list_elem_of_In, filter_In in Hin' as [Hin' Hw].
        unfold results_where in Hw. apply andb_true_iff in Hw as [Ht _].
        apply String.eqb_eq in Ht.
        split; [exact Ht|]. exists row. split; [exact Hin' | reflexivity].
  - assert (Hbad : bad_request).
    { right. destruct (String.eqb sinceParam "") eqn:He; [discriminate Hsince|].
      apply String.eqb_neq in He. auto. }
    simpl.
    split; [split; [intros _; exact Hbad | reflexivity]|].
    split; [split; [discriminate | intros [Hn _]; contradiction]|].
    split; [split; [discriminate | intros [Hn _]; contradiction]|].
    intros rs H. discriminate H.
Qed.

(** ** Idempotency keys *)

Lemma existsb_find_none {A} (p : A -> bool) (l : list A) :
  List.find p l = None -> existsb p l = false.
Proof.
  induction l as [|x l IH]; simpl; [reflexivity|].
  destruct (p x); [discriminate|exact IH].
Qed.

Lemma find_app_other {A} (p : A -> bool) (l : list A) x :
  p x = false -> List.find p (l ++ [x]) = List.find p l.
Proof.
  intros Hx. induction l as [|y l IH]; simpl.
  - rewrite Hx. reflexivity.
  - destruct (p y); [reflexivity|exact IH].
Qed.

(** What a call of [UpsertIdempotencyKey] that reports [created] did. *)
Lemma UpsertIdempotencyKey_created
    (Value : Type) (marshal : Value -> option string)
    (unmarshal : string -> option Value) env key h t c b keys keys' r :
  UpsertIdempotencyKey Value marshal unmarshal env key h t c b keys
    = (Ok (r, true), keys') ->
  select_idempotency key keys = None /\
  r = mkIdempotencyResponse c (Some b) /\
  keys' = keys ++ [mkIdemRow key h t c (default ""%string (marshal b))].
Proof.
  unfold UpsertIdempotencyKey.
  destruct (query_error (idem_select env)); [discriminate|].
  destruct (select_idempotency key keys) eqn:Hsel; [discriminate|].
  destruct (query_error (idem_insert env)); [discriminate|].
  unfold insert_idempotency.
  destruct (existsb _ keys); [discriminate|].
  intros H. inversion H. auto.
Qed.

(** The first response stored under a key is the one every later call
    gets: after a call of [UpsertIdempotencyKey] that created the entry,
    a call with the same key, whatever its request hash, target id, code
    and body, returns the first code and the stored body with
    [created = false] and leaves the table as it is; the other keys are
    not touched, and [GetIdempotencyKey] finds the entry when its body
    reads back. *)
Theorem idempotency_key_first_write_wins :
  forall (Value : Type) (marshal : Value -> option string)
         (unmarshal : string -> option Value) (env env' : IdemEnv)
         (key h t : string) (c : Z) (b : Value)
         (h' t' : string) (c' : Z) (b' : Value)
         (keys keys' : list IdemRow) (r : IdempotencyResponse Value),
    UpsertIdempotencyKey Value marshal unmarshal env key h t c b keys
      = (Ok (r, true), keys') ->
    query_error (idem_select env') = None ->
    r = mkIdempotencyResponse c (Some b) /\
    keys' = keys ++ [mkIdemRow key h t c (default ""%string (marshal b))] /\
    UpsertIdempotencyKey Value marshal unmarshal env' key h' t' c' b' keys'
      = (Ok (mkIdempotencyResponse c
               (unmarshal (default ""%string (marshal b))), false), keys') /\
    (forall k, k <> key ->
       select_idempotency k keys' = select_idempotency k keys) /\
    (forall qenv v,
       query_error qenv = None ->
       unmarshal (default ""%string (marshal b)) = Some v ->
       GetIdempotencyKey Value unmarshal qenv key keys'
         = Ok (Some (mkIdempotencyResponse c (Some v)))).
Proof.
  intros Value marshal unmarshal env env' key h t c b h' t' c' b' keys keys' r
         Hup Hq'.
  apply UpsertIdempotencyKey_created in Hup as (Hsel & Hr & Hkeys).
  assert (Hfind : select_idempotency key keys'
            = Some (mkIdemRow key h t c (default ""%string (marshal b)))).
  { subst keys'. unfold select_idempotency in *.
    apply find_app_none; [exact Hsel|]. simpl. apply String.eqb_refl. }
  split; [exact Hr|]. split; [exact Hkeys|]. split; [|split].
  - unfold UpsertIdempotencyKey. rewrite Hq', Hfind. reflexivity.
  - intros k Hk. subst keys'. unfold select_idempotency.
    apply find_app_other. simpl. apply String.eqb_neq. congruence.
  - intros qenv v Hq Hv. unfold GetIdempotencyKey.
    rewrite Hq, Hfind. simpl. rewrite Hv. reflexivity.
Qed.

(** A key used once for a 201 answers the same to a call made for another
    request. *)
Lemma idempotency_key_first_write_wins_witness :
  UpsertIdempotencyKey string Some Some
    (mkIdemEnv (mkQueryEnv false None) (mkQueryEnv false None))
    "key-1" "hash-b" "t_2" 200 "second"
    [mkIdemRow "key-1" "hash-a" "t_1" 201 "first"]
  = (Ok (mkIdempotencyResponse 201 (Some "first"%string), false),
     [mkIdemRow "key-1" "hash-a" "t_1" 201 "first"]).
Proof.
  refine (proj1 (proj2 (proj2
    (idempotency_key_first_write_wins string Some Some
       (mkIdemEnv (mkQueryEnv false None) (mkQueryEnv false None))
       (mkIdemEnv (mkQueryEnv false None) (mkQueryEnv false None))
       "key-1" "hash-a" "t_1" 201 "first" "hash-b" "t_2" 200 "second"
       [] [mkIdemRow "key-1" "hash-a" "t_1" 201 "first"]
       (mkIdempotencyResponse 201 (Some "first"%string)) _ _)))).
  - reflexivity.
  - reflexivity.
Defined.

(** ** Registering targets over HTTP *)

(** What a call of [UpsertTargetByURL] did, by its result. *)
Lemma UpsertTargetByURL_effect env url host db :
  match UpsertTargetByURL env url host db with
  | (Ok (t, true), db') =>
      select_target_by_url url db = None /\
      URL t = url /\ Host t = host /\
      db' = mkDB (targets db ++
                    [mkTargetRow (ID t) url host (formatTime (CreatedAt t))])
                 (check_results db) (results_seq db)
  | (Ok (t, false), db') =>
      db' = db /\
      exists r, select_target_by_url url db = Some r /\ t = scan_target r
  | (Err _, db') => db' = db
  end.
Proof.
  unfold UpsertTargetByURL.
  destruct (query_error (up_select env)); [reflexivity|].
  destruct (select_target_by_url url db) as [r|] eqn:Hsel.
  { split; [reflexivity|]. exists r. auto. }
  destruct (query_error (up_insert env)); [reflexivity|].
  unfold insert_target. simpl.
  destruct (existsb _ (targets db)); [reflexivity|]. simpl. auto.
Qed.

(** The table of keys after a call of [UpsertIdempotencyKey]. *)
Lemma UpsertIdempotencyKey_keys
    (Value : Type) (marshal : Value -> option string)
    (unmarshal : string -> option Value) env key h t c b keys :
  (UpsertIdempotencyKey Value marshal unmarshal env key h t c b keys).2 = keys
  \/
  (select_idempotency key keys = None /\
   (UpsertIdempotencyKey Value marshal unmarshal env key h t c b keys)
     = (Ok (mkIdempotencyResponse c (Some b), true),
        keys ++ [mkIdemRow key h t c (default ""%string (marshal b))])).
Proof.
  unfold UpsertIdempotencyKey.
  destruct (query_error (idem_select env)); [left; reflexivity|].
  destruct (select_idempotency key keys) eqn:Hsel; [left; reflexivity|].
  destruct (query_error (idem_insert env)); [left; reflexivity|].
  unfold insert_idempotency.
  destruct (existsb _ keys); [left; reflexivity|].
  right. auto.
Qed.

Ltac ct_auto :=
  repeat match goal with |- _ /\ _ => split end;
  try match goal with |- _ \/ _ \/ _ \/ _ => lia end;
  try reflexivity; try assumption;
  try (let Hx := fresh in
       intros Hx;
       first [discriminate Hx | contradiction | reflexivity
             | split; [reflexivity | eexists; reflexivity]]);
  try (let Hx := fresh in
       intros [Hx|Hx];
       first [discriminate Hx
             | split; [reflexivity | eexists; reflexivity]]);
  try (left; reflexivity).

(** What [createTarget] writes.  It answers 200, 201, 400 or 500; it
    never touches the check results; it answers 201 exactly when it added
    one row to [targets], the row of the returned target for the canonical
    form of the posted URL, which was not registered before, and otherwise
    leaves the targets as they are; with 400 or 500 it stores no key, and
    in any case at most one key, the one of the request, not used
    before. *)
Theorem createTarget_writes :
  forall (Value : Type) (marshal : Value -> option string)
         (unmarshal : string -> option Value)
         (target_value : Target -> Value)
         (createRequestHash : string -> string)
         (env : CreateEnv) (body : option string) (key : string)
         (st st' : Store) (status : Z) (resp : Body Value)
         (out : list string),
    createTarget Value marshal unmarshal target_value createRequestHash
                 env body key st = (status, resp, st', out) ->
    (status = 200 \/ status = 201 \/ status = 400 \/ status = 500) /\
    check_results (st_db st') = check_results (st_db st) /\
    results_seq (st_db st') = results_seq (st_db st) /\
    (status = 201 ->
     exists url t,
       body = Some url /\
       Canonicalize url = Ok (URL t, Host t) /\
       select_target_by_url (URL t) (st_db st) = None /\
       resp = BodyValue (Some (target_value t)) /\
       targets (st_db st')
         = targets (st_db st) ++
             [mkTargetRow (ID t) (URL t) (Host t)
                          (formatTime (CreatedAt t))]) /\
    (status <> 201 -> st_db st' = st_db st) /\
    (status = 400 \/ status = 500 ->
     st_keys st' = st_keys st /\ exists msg, resp = BodyError msg) /\
    (st_keys st' = st_keys st \/
     (key <> ""%string /\ select_idempotency key (st_keys st) = None /\
      exists row, idem_key row = key /\
                  idem_response_code row = status /\
                  st_keys st' = st_keys st ++ [row])).
Proof.
  intros Value marshal unmarshal target_value hash env body key st st'
         status resp out H.
  unfold createTarget in H.
  destruct body as [url|]; [|inversion H; subst; ct_auto].
  destruct (Canonicalize url) as [[curl host]|e] eqn:Hcan;
    [|inversion H; subst; ct_auto].
  destruct (if String.eqb key "" then Ok None
            else GetIdempotencyKey Value unmarshal (ce_check env) key
                                   (st_keys st)) as [[cached|]|e] eqn:Hc;
    [inversion H; subst; ct_auto | | inversion H; subst; ct_auto].
  pose proof (UpsertTargetByURL_effect (ce_upsert env) curl host (st_db st))
    as Heff.
  destruct (UpsertTargetByURL (ce_upsert env) curl host (st_db st))
    as [[[t created]|e] db];
    [|subst db; inversion H; subst; destruct st as [d k]; simpl; ct_auto].
  assert (Hkeys : forall status0 keys printed,
    (if String.eqb key "" then (st_keys st, [])
     else
       match UpsertIdempotencyKey Value marshal unmarshal (ce_store_key env)
               key (hash url) (ID t) status0 (target_value t) (st_keys st)
       with
       | (Err e, keys) =>
           (keys, [("Failed to store idempotency result: " ++ e)%string])
       | (Ok _, keys) => (keys, [])
       end) = (keys, printed) ->
    keys = st_keys st \/
    (key <> ""%string /\ select_idempotency key (st_keys st) = None /\
     exists row, idem_key row = key /\ idem_response_code row = status0 /\
                 keys = st_keys st ++ [row])).
  { intros status0 keys printed Hk.
    destruct (String.eqb key "") eqn:Hkey;
      [inversion Hk; left; reflexivity|].
    apply String.eqb_neq in Hkey.
    destruct (UpsertIdempotencyKey_keys Value marshal unmarshal
                (ce_store_key env) key (hash url) (ID t) status0
                (target_value t) (st_keys st)) as [Hsame | [Hsel Hnew]].
    - left.
      destruct (UpsertIdempotencyKey Value marshal unmarshal
                  (ce_store_key env) key (hash url) (ID t) status0
                  (target_value t) (st_keys st)) as [[ok|e] ks];
        simpl in Hsame; inversion Hk; subst; reflexivity.
    - right. rewrite Hnew in Hk. inversion Hk; subst keys printed.
      split; [exact Hkey|]. split; [exact Hsel|].
      exists (mkIdemRow key (hash url) (ID t) status0
                        (default ""%string (marshal (target_value t)))).
      split; [|split]; reflexivity. }
  destruct (if String.eqb key "" then (st_keys st, [])
            else _) as [keys printed] eqn:Hk in H.
  apply Hkeys in Hk. clear Hkeys.
  inversion H; subst status resp st' out. clear H. simpl.
  destruct created.
  - destruct Heff as (Hsel & Hu & Hh & Hdb). subst db curl host. simpl.
    split; [lia|]. split; [reflexivity|]. split; [reflexivity|].
    split; [intros _; exists url, t; auto|].
    split; [intros Hne; contradiction|].
    split; [intros [Hx|Hx]; discriminate Hx|]. exact Hk.
  - destruct Heff as (-> & r & Hsel & Ht).
    split; [lia|]. split; [reflexivity|]. split; [reflexivity|].
    split; [intros Hx; discriminate Hx|].
    split; [reflexivity|].
    split; [intros [Hx|Hx]; discriminate Hx|]. exact Hk.
Qed.

Lemma createTarget_writes_witness :
  demo_created.1.1.1 = 201 /\
  check_results (st_db demo_created.1.2) = check_results (st_db demo_store).
Proof.
  split; [vm_compute; reflexivity|].
  refine (proj1 (proj2
    (createTarget_writes string Some Some ID (fun u => u) demo_create_env
       (Some "HTTP://Example.com/c/"%string) "key-1" demo_store
       demo_created.1.2 201
       (BodyValue (Some "t_6ba7b810-9dad-11d1-80b4-00c04fd430c8"%string))
       demo_created.2 _))).
  vm_compute. reflexivity.
Defined.

(** What a 201 of [createTarget] means for the store. *)
Lemma createTarget_201
    (Value : Type) (marshal : Value -> option string)
    (unmarshal : string -> option Value) (target_value : Target -> Value)
    (hash : string -> string) env url key st st' resp out :
  createTarget Value marshal unmarshal target_value hash env (Some url) key st
    = (201, resp, st', out) ->
  exists t,
    Canonicalize url = Ok (URL t, Host t) /\
    select_target_by_url (URL t) (st_db st) = None /\
    resp = BodyValue (Some (target_value t)) /\
    st_db st'
      = mkDB (targets (st_db st) ++
                [mkTargetRow (ID t) (URL t) (Host t)
                             (formatTime (CreatedAt t))])
             (check_results (st_db st)) (results_seq (st_db st)).
Proof.
  intros H. unfold createTarget in H.
  destruct (Canonicalize url) as [[curl host]|e]; [|discriminate H].
  destruct (if String.eqb key "" then Ok None
            else GetIdempotencyKey Value unmarshal (ce_check env) key
                                   (st_keys st)) as [[cached|]|e];
    [discriminate H | | discriminate H].
  pose proof (UpsertTargetByURL_effect (ce_upsert env) curl host (st_db st))
    as Heff.
  destruct (UpsertTargetByURL (ce_upsert env) curl host (st_db st))
    as [[[t created]|e] db]; [|discriminate H].
  destruct (if String.eqb key "" then (st_keys st, []) else _)
    as [keys printed] in H.
  destruct created; [|discriminate H].
  destruct Heff as (Hsel & Hu & Hh & Hdb). subst curl host.
  inversion H; subst. exists t. simpl. auto.
Qed.

(** A URL is registered once: after a POST of a plain URL answered 201, a
    POST without a key of any plain URL with the same canonical form is
    answered 200 with a target of the same id, URL and host, and changes
    nothing in the store (the lookup of the second call does not fail). *)
Theorem createTarget_same_url_again :
  forall (Value : Type) (marshal : Value -> option string)
         (unmarshal : string -> option Value)
         (target_value : Target -> Value)
         (createRequestHash : string -> string)
         (env env2 : CreateEnv) (url url2 key : string)
         (st st' : Store) (resp : Body Value) (out : list string),
    GoURL.plain url = true ->
    GoURL.plain url2 = true ->
    createTarget Value marshal unmarshal target_value createRequestHash
                 env (Some url) key st = (201, resp, st', out) ->
    Canonicalize url2 = Canonicalize url ->
    query_error (up_select (ce_upsert env2)) = None ->
    exists t t2,
      resp = BodyValue (Some (target_value t)) /\
      createTarget Value marshal unmarshal target_value createRequestHash
                   env2 (Some url2) "" st'
        = (200, BodyValue (Some (target_value t2)), st', []) /\
      ID t2 = ID t /\ URL t2 = URL t /\ Host t2 = Host t.
Proof.
  intros Value marshal unmarshal target_value hash env env2 url url2 key
         st st' resp out _ _ H Hcan Hq.
  apply createTarget_201 in H as (t & Hc & Hsel & Hresp & Hdb).
  exists t,
    (scan_target (mkTargetRow (ID t) (URL t) (Host t)
                              (formatTime (CreatedAt t)))).
  split; [exact Hresp|]. split; [|simpl; auto].
  unfold createTarget. rewrite Hcan, Hc. simpl.
  unfold UpsertTargetByURL. rewrite Hq.
  unfold select_target_by_url. rewrite Hdb. simpl.
  rewrite (find_app_none _ _ _ Hsel) by (simpl; apply String.eqb_refl).
  rewrite <- Hdb. destruct st' as [d k]. reflexivity.
Qed.

Lemma createTarget_same_url_again_witness :
  exists t2,
    createTarget string Some Some ID (fun u => u) demo_create_env
                 (Some "http://example.com:80/c#top"%string) ""
                 demo_created.1.2
      = (200, BodyValue (Some (ID t2)), demo_created.1.2, []) /\
    ID t2 = "t_6ba7b810-9dad-11d1-80b4-00c04fd430c8"%string.
Proof.
  destruct (createTarget_same_url_again string Some Some ID (fun u => u)
              demo_create_env demo_create_env
              "HTTP://Example.com/c/" "http://example.com:80/c#top" "key-1"
              demo_store demo_created.1.2
              (BodyValue (Some "t_6ba7b810-9dad-11d1-80b4-00c04fd430c8"
                                 %string))
              demo_created.2)
    as (t & t2 & Hresp & Hcall & Hid & _ & _).
  - vm_compute. reflexivity.
  - vm_compute. reflexivity.
  - vm_compute. reflexivity.
  - vm_compute. reflexivity.
  - reflexivity.
  - exists t2. split; [exact Hcall|].
    rewrite Hid. inversion Hresp. reflexivity.
Defined.

(** A key replays the first answer: when a POST of a plain URL with a key
    not used before is answered 200 or 201 and prints nothing, every later
    POST with that key, of whatever plain URL that canonicalizes, is
    answered 200 with the body stored at first as it reads back, and
    changes nothing in the store, however the URL differs from the first
    one (the lookup of the key does not fail). *)
Theorem createTarget_key_replays_first_answer :
  forall (Value : Type) (marshal : Value -> option string)
         (unmarshal : string -> option Value)
         (target_value : Target -> Value)
         (createRequestHash : string -> string)
         (env : CreateEnv) (url key : string)
         (st st' : Store) (status : Z) (resp : Body Value),
    GoURL.plain url = true ->
    key <> ""%string ->
    select_idempotency key (st_keys st) = None ->
    createTarget Value marshal unmarshal target_value createRequestHash
                 env (Some url) key st = (status, resp, st', []) ->
    status = 200 \/ status = 201 ->
    exists t,
      resp = BodyValue (Some (target_value t)) /\
      forall (env2 : CreateEnv) (url2 : string) (v : Value),
        GoURL.plain url2 = true ->
        (exists cu, Canonicalize url2 = Ok cu) ->
        query_error (ce_check env2) = None ->
        unmarshal (default ""%string (marshal (target_value t))) = Some v ->
        createTarget Value marshal unmarshal target_value createRequestHash
                     env2 (Some url2) key st'
          = (200, BodyValue (Some v), st', []).
Proof.
  intros Value marshal unmarshal target_value hash env url key st st'
         status resp _ Hkey Hsel H Hstatus.
  apply String.eqb_neq in Hkey.
  unfold createTarget in H. rewrite Hkey in H.
  destruct (Canonicalize url) as [[curl host]|e];
    [|inversion H; subst; destruct Hstatus; discriminate].
  unfold GetIdempotencyKey in H. rewrite Hsel in H.
  destruct (query_error (ce_check env));
    [inversion H; subst; destruct Hstatus; discriminate|].
  destruct (UpsertTargetByURL (ce_upsert env) curl host (st_db st))
    as [[[t created]|e] db];
    [|inversion H; subst; destruct Hstatus; discriminate].
  set (status0 := if created then 201 else 200) in *.
  destruct (UpsertIdempotencyKey_keys Value marshal unmarshal
              (ce_store_key env) key (hash url) (ID t) status0
              (target_value t) (st_keys st)) as [Hsame | [_ Hnew]].
  { exfalso. revert Hsame H.
    unfold UpsertIdempotencyKey. rewrite Hsel.
    destruct (query_error (idem_select (ce_store_key env)));
      [intros _ H; inversion H|].
    destruct (query_error (idem_insert (ce_store_key env)));
      [intros _ H; inversion H|].
    unfold insert_idempotency.
    destruct (existsb _ (st_keys st)); [intros _ H; inversion H|].
    simpl. intros Hsame _.
    apply (f_equal (@length IdemRow)) in Hsame.
    rewrite length_app in Hsame. simpl in Hsame. lia. }
  rewrite Hnew in H. inversion H; subst status resp st'. clear H.
  exists t. split; [reflexivity|].
  intros env2 url2 v _ [[curl2 host2] Hcan2] Hq2 Hv.
  unfold createTarget. rewrite Hcan2, Hkey. simpl.
  unfold GetIdempotencyKey. rewrite Hq2.
  unfold select_idempotency in *.
  rewrite (find_app_none _ _ _ Hsel) by (simpl; apply String.eqb_refl).
  simpl. rewrite Hv. reflexivity.
Qed.

Lemma createTarget_key_replays_first_answer_witness :
  createTarget string Some Some ID (fun u => u) demo_create_env
               (Some "https://other.example.org/x"%string) "key-1"
               demo_created.1.2
    = (200, BodyValue (Some "t_6ba7b810-9dad-11d1-80b4-00c04fd430c8"%string),
       demo_created.1.2, []).
Proof.
  destruct (createTarget_key_replays_first_answer string Some Some ID
              (fun u => u) demo_create_env "HTTP://Example.com/c/" "key-1"
              demo_store demo_created.1.2 201
              (BodyValue (Some "t_6ba7b810-9dad-11d1-80b4-00c04fd430c8"
                                 %string)))
    as (t & Hresp & Hnext).
  - vm_compute. reflexivity.
  - discriminate.
  - reflexivity.
  - vm_compute. reflexivity.
  - right. reflexivity.
  - inversion Hresp as [Hid].
    apply (Hnext demo_create_env "https://other.example.org/x"%string).
    + vm_compute. reflexivity.
    + eexists. vm_compute. reflexivity.
    + reflexivity.
    + simpl. rewrite <- Hid. reflexivity.
Defined.

(** ** The configuration and the checker made from it *)

Lemma Atoi_range s v : Atoi s = Some v -> - 2 ^ 63 <= v < 2 ^ 63.
Proof.
  unfold Atoi. destruct (list_ascii_of_string s) as [|c r]; [discriminate|].
  destruct (if (Ascii.eqb c "-" || Ascii.eqb c "+")%bool then r else c :: r)
    as [|d ds]; [discriminate|].
  destruct (digits_value (d :: ds)) as [n|]; [|discriminate].
  cbn [mbind option_bind].
  destruct ((- 2 ^ 63 <=? (if Ascii.eqb c "-" then - n else n))
            && ((if Ascii.eqb c "-" then - n else n) <? 2 ^ 63)) eqn:Hr;
    [|discriminate].
  intros H. inversion H; subst v.
  apply andb_true_iff in Hr as [H1 H2]. lia.
Qed.

(** A configuration that [Load] accepts gives a checker: the number of
    slots is the default 8 when MAX_CONCURRENCY is not set and otherwise
    the positive integer it spells, so [NewChecker], as [main] calls it,
    makes a checker with that many free slots and at least one; the
    database URL is never empty. *)
Theorem Load_gives_checker_with_slots :
  forall (getenv : string -> string) (ParseDuration : string -> result Z)
         (cfg : Config) (st : DB),
    Load getenv ParseDuration = Ok cfg ->
    ((getenv "MAX_CONCURRENCY" = ""%string /\ MaxConcurrency cfg = 8) \/
     (getenv "MAX_CONCURRENCY" <> ""%string /\
      Atoi (getenv "MAX_CONCURRENCY") = Some (MaxConcurrency cfg))) /\
    1 <= MaxConcurrency cfg < 2 ^ 63 /\
    DatabaseURL cfg <> ""%string /\
    exists c,
      checker_of_config st cfg = Some c /\
      store c = st /\
      maxConcurrency c = MaxConcurrency cfg /\
      workers c = 0%nat /\ wg c = 0%nat /\ ctx_done c = false.
Proof.
  intros getenv ParseDuration cfg st H. unfold Load in H.
  destruct (getEnvDuration getenv ParseDuration "CHECK_INTERVAL"
                           defaultCheckInterval) as [ci|e]; [|discriminate H].
  destruct (getEnvInt getenv "MAX_CONCURRENCY" defaultMaxConcurrency)
    as [mc|e] eqn:Hmc; [|discriminate H].
  destruct (getEnvDuration getenv ParseDuration "HTTP_TIMEOUT"
                           defaultHTTPTimeout) as [ht|e]; [|discriminate H].
  destruct (getEnvDuration getenv ParseDuration "SHUTDOWN_GRACE"
                           defaultShutdownGrace) as [sg|e]; [|discriminate H].
  inversion H; subst cfg. clear H. simpl.
  assert (Hcases :
    (getenv "MAX_CONCURRENCY" = ""%string /\ mc = 8) \/
    (getenv "MAX_CONCURRENCY" <> ""%string /\
     Atoi (getenv "MAX_CONCURRENCY") = Some mc /\ 0 < mc)).
  { unfold getEnvInt in Hmc.
    destruct (String.eqb (getenv "MAX_CONCURRENCY") "") eqn:He.
    - apply String.eqb_eq in He. inversion Hmc. left. auto.
    - apply String.eqb_neq in He. right.
      destruct (Atoi (getenv "MAX_CONCURRENCY")) as [i|]; [|discriminate Hmc].
      destruct (i <=? 0) eqn:Hi; [discriminate Hmc|].
      inversion Hmc; subst i. apply Z.leb_gt in Hi. auto. }
  assert (Hrange : 1 <= mc < 2 ^ 63).
  { destruct Hcases as [[_ ->] | (_ & Ha & Hpos)]; [lia|].
    apply Atoi_range in Ha. lia. }
  split; [destruct Hcases as [?|(? & ? & ?)]; auto|].
  split; [exact Hrange|]. split.
  - unfold getEnvString.
    destruct (String.eqb (getenv "DATABASE_URL") "") eqn:He.
    + discriminate.
    + apply String.eqb_neq in He. exact He.
  - unfold checker_of_config, NewChecker. simpl.
    destruct (mc <? 0) eqn:Hneg; [apply Z.ltb_lt in Hneg; lia|].
    eexists. split; [reflexivity|]. simpl. auto.
Qed.

Lemma Load_gives_checker_with_slots_witness :
  exists cfg c,
    Load demo_getenv demo_ParseDuration = Ok cfg /\
    checker_of_config demo_db cfg = Some c /\
    maxConcurrency c = 4.
Proof.
  destruct (Load_gives_checker_with_slots demo_getenv demo_ParseDuration
              (mkConfig defaultDBURL defaultCheckInterval 4 (2 * second_ns)
                        defaultShutdownGrace) demo_db)
    as (_ & _ & _ & c & Hc & _ & Hmc & _).
  - vm_compute. reflexivity.
  - eexists. exists c. split; [vm_compute; reflexivity|].
    split; [exact Hc | exact Hmc].
Defined.

(** ** More on [Canonicalize] *)

Lemma cut_absent sep l :
  GoURL.contains sep l = false -> GoURL.cut sep l = (l, [], false).
Proof.
  unfold GoURL.contains. induction l as [|c l IH]; simpl; [reflexivity|].
  rewrite orb_false_iff. intros [Hc Hl].
  rewrite Ascii.eqb_sym in Hc. rewrite Hc, (IH Hl). reflexivity.
Qed.

Lemma cut_first sep l r :
  GoURL.contains sep l = false -> GoURL.cut sep (l ++ sep :: r) = (l, r, true).
Proof.
  unfold GoURL.contains. induction l as [|c l IH]; simpl.
  - rewrite Ascii.eqb_refl. reflexivity.
  - rewrite orb_false_iff. intros [Hc Hl].
    rewrite Ascii.eqb_sym in Hc. rewrite Hc, (IH Hl). reflexivity.
Qed.

Lemma Canonicalize_canonical_of raw :
  Canonicalize raw
    = match GoURL.Parse raw with
      | Err e => Err ("invalid URL: " ++ e)%string
      | Ok parsed => canonical_of parsed
      end.
Proof. reflexivity. Qed.

Lemma lower_scheme_host_set_Fragment f u :
  lower_scheme_host (GoURL.set_Fragment f u)
    = GoURL.set_Fragment f (lower_scheme_host u).
Proof. destruct u. reflexivity. Qed.

Lemma drop_port_set_Fragment scheme port f u :
  drop_port scheme port (GoURL.set_Fragment f u)
    = GoURL.set_Fragment f (drop_port scheme port u).
Proof.
  destruct u as [sch op ho pa rq fq oh fr]. unfold drop_port.
  change (GoURL.Scheme (GoURL.set_Fragment f
            (GoURL.mkURL sch op ho pa rq fq oh fr))) with sch.
  change (GoURL.Port (GoURL.set_Fragment f
            (GoURL.mkURL sch op ho pa rq fq oh fr)))
    with (GoURL.Port (GoURL.mkURL sch op ho pa rq fq oh fr)).
  change (GoURL.Scheme (GoURL.mkURL sch op ho pa rq fq oh fr)) with sch.
  destruct (String.eqb sch scheme
            && String.eqb (GoURL.Port (GoURL.mkURL sch op ho pa rq fq oh fr))
                          port);
    reflexivity.
Qed.

Lemma set_Fragment_twice f g u :
  GoURL.set_Fragment f (GoURL.set_Fragment g u) = GoURL.set_Fragment f u.
Proof. destruct u. reflexivity. Qed.

Lemma canonical_of_set_Fragment f u :
  canonical_of (GoURL.set_Fragment f u) = canonical_of u.
Proof.
  unfold canonical_of.
  rewrite lower_scheme_host_set_Fragment, !drop_port_set_Fragment,
    set_Fragment_twice.
  destruct u. reflexivity.
Qed.

(** The fragment plays no part: a plain URL followed by [#] and a plain
    fragment canonicalizes as the URL without them does (same canonical
    URL and host, or same error). *)
Theorem Canonicalize_ignores_fragment :
  forall (raw frag : string),
    GoURL.plain raw = true ->
    GoURL.plain frag = true ->
    GoURL.contains "#" (GoURL.chars raw) = false ->
    Canonicalize (raw ++ "#" ++ frag) = Canonicalize raw.
Proof.
  intros raw frag _ _ Hhash.
  rewrite !Canonicalize_canonical_of.
  unfold GoURL.Parse, GoURL.chars in *.
  rewrite list_ascii_of_string_app.
  change (list_ascii_of_string ("#" ++ frag))
    with ("#"%char :: list_ascii_of_string frag).
  rewrite (cut_first _ _ _ Hhash), (cut_absent _ _ Hhash).
  destruct (GoURL.parse (list_ascii_of_string raw)) as [url|e];
    [|reflexivity].
  rewrite !canonical_of_set_Fragment. reflexivity.
Qed.

Lemma Canonicalize_ignores_fragment_witness :
  Canonicalize "https://example.com/a?x=1#section-2"
    = Canonicalize "https://example.com/a?x=1".
Proof.
  apply (Canonicalize_ignores_fragment "https://example.com/a?x=1"
                                       "section-2");
    vm_compute; reflexivity.
Defined.

Lemma lower_lower c : Chars.lower (Chars.lower c) = Chars.lower c.
Proof.
  destruct c as [[] [] [] [] [] [] [] []]; vm_compute; reflexivity.
Qed.

Lemma chars_str l : GoURL.chars (GoURL.str l) = l.
Proof. apply list_ascii_of_string_of_list_ascii. Qed.

Lemma str_chars s : GoURL.str (GoURL.chars s) = s.
Proof. apply string_of_list_ascii_of_string. Qed.

Lemma ToLower_idem s : GoURL.ToLower (GoURL.ToLower s) = GoURL.ToLower s.
Proof.
  unfold GoURL.ToLower. rewrite chars_str, map_map. f_equal.
  apply map_ext. intros c. apply lower_lower.
Qed.

Lemma ToLower_lowered_prefix s i :
  GoURL.ToLower (GoURL.str (firstn i (GoURL.chars (GoURL.ToLower s))))
    = GoURL.str (firstn i (GoURL.chars (GoURL.ToLower s))).
Proof.
  unfold GoURL.ToLower. rewrite !chars_str. f_equal.
  rewrite <- firstn_map, map_map.
  f_equal. apply map_ext. intros c. apply lower_lower.
Qed.

Lemma Hostname_lowered s :
  GoURL.ToLower
    (GoURL.str (GoURL.splitHostPort (GoURL.chars (GoURL.ToLower s))).1)
  = GoURL.str (GoURL.splitHostPort (GoURL.chars (GoURL.ToLower s))).1.
Proof.
  unfold GoURL.splitHostPort.
  destruct (GoURL.last_index ":" (GoURL.chars (GoURL.ToLower s))) as [i|];
    [destruct (GoURL.validOptionalPort _)|]; cbn [fst].
  - apply ToLower_lowered_prefix.
  - rewrite str_chars. apply ToLower_idem.
  - rewrite str_chars. apply ToLower_idem.
Qed.

Lemma append_assoc (a b c : string) : ((a ++ b) ++ c = a ++ (b ++ c))%string.
Proof.
  induction a as [|x a IH]; [reflexivity|].
  change (String x ((a ++ b) ++ c) = String x (a ++ (b ++ c)))%string.
  f_equal. exact IH.
Qed.

(** The scheme and the host after the statements of [Canonicalize]. *)
Lemma canonical_scheme u :
  GoURL.Scheme
    (normalize_path
       (sort_query
          (GoURL.set_Fragment ""
             (drop_port "https" "443"
                (drop_port "http" "80" (lower_scheme_host u))))))
  = GoURL.ToLower (GoURL.Scheme u).
Proof.
  assert (Hd : forall sc po x, GoURL.Scheme (drop_port sc po x) = GoURL.Scheme x).
  { intros sc po x. unfold drop_port.
    destruct (_ && _); [destruct x|]; reflexivity. }
  assert (Hq : forall x, GoURL.Scheme (sort_query x) = GoURL.Scheme x).
  { intros x. unfold sort_query. destruct (negb _); [destruct x|]; reflexivity. }
  assert (Hp : forall x, GoURL.Scheme (normalize_path x) = GoURL.Scheme x).
  { intros x. destruct x. reflexivity. }
  assert (Hf : forall x, GoURL.Scheme (GoURL.set_Fragment "" x) = GoURL.Scheme x).
  { intros x. destruct x. reflexivity. }
  rewrite Hp, Hq, Hf, !Hd. destruct u. reflexivity.
Qed.

Lemma canonical_host_lowered u :
  let h :=
    GoURL.Host
      (normalize_path
         (sort_query
            (GoURL.set_Fragment ""
               (drop_port "https" "443"
                  (drop_port "http" "80" (lower_scheme_host u)))))) in
  GoURL.ToLower h = h.
Proof.
  assert (Hq : forall x, GoURL.Host (sort_query x) = GoURL.Host x).
  { intros x. unfold sort_query. destruct (negb _); [destruct x|]; reflexivity. }
  assert (Hp : forall x, GoURL.Host (normalize_path x) = GoURL.Host x).
  { intros x. destruct x. reflexivity. }
  assert (Hf : forall x, GoURL.Host (GoURL.set_Fragment "" x) = GoURL.Host x).
  { intros x. destruct x. reflexivity. }
  assert (Hd : forall sc po x,
            GoURL.ToLower (GoURL.Host x) = GoURL.Host x ->
            GoURL.ToLower (GoURL.Host (drop_port sc po x))
              = GoURL.Host (drop_port sc po x)).
  { intros sc po x Hx. unfold drop_port.
    destruct (_ && _); [|exact Hx].
    destruct x as [sch op ho pa rq fq oh fr].
    change (GoURL.Host (GoURL.mkURL sch op ho pa rq fq oh fr)) with ho in Hx.
    change (GoURL.ToLower
              (GoURL.str (GoURL.splitHostPort (GoURL.chars ho)).1)
            = GoURL.str (GoURL.splitHostPort (GoURL.chars ho)).1).
    rewrite <- Hx. apply Hostname_lowered. }
  intros h. unfold h. rewrite Hp, Hq, Hf.
  apply Hd, Hd. destruct u. apply ToLower_idem.
Qed.

Lemma String_starts_with_scheme u :
  GoURL.Scheme u <> ""%string ->
  exists rest, GoURL.String u = (GoURL.Scheme u ++ ":" ++ rest)%string.
Proof.
  destruct u as [sch op ho pa rq fq oh fr]. intros Hs.
  change (sch <> ""%string) in Hs. apply String.eqb_neq in Hs.
  unfold GoURL.String.
  cbn [GoURL.Scheme GoURL.Opaque GoURL.Host GoURL.Path GoURL.RawQuery
       GoURL.ForceQuery GoURL.OmitHost GoURL.Fragment].
  rewrite Hs. cbn [negb orb].
  repeat match goal with
         | |- context [if ?c then _ else _] => destruct c
         end;
    rewrite ?append_assoc; eexists; reflexivity.
Qed.

(** What [Canonicalize] returns for a plain URL it accepts: a URL that
    starts with [http:] or [https:], whatever the case of the scheme given,
    and a host without upper-case letters. *)
Theorem Canonicalize_result_shape :
  forall (raw u h : string),
    GoURL.plain raw = true ->
    Canonicalize raw = Ok (u, h) ->
    GoURL.ToLower h = h /\
    exists rest, (u = "http:" ++ rest \/ u = "https:" ++ rest)%string.
Proof.
  intros raw u h _ H. rewrite Canonicalize_canonical_of in H.
  destruct (GoURL.Parse raw) as [url|e]; [|discriminate H].
  unfold canonical_of in H.
  destruct (negb (String.eqb (GoURL.Scheme url) "http")
            && negb (String.eqb (GoURL.Scheme url) "https")) eqn:Hsch;
    [discriminate H|].
  pose proof (canonical_scheme url) as Hs.
  pose proof (canonical_host_lowered url) as Hh. cbv zeta in Hh.
  set (p := normalize_path
              (sort_query
                 (GoURL.set_Fragment ""
                    (drop_port "https" "443"
                       (drop_port "http" "80" (lower_scheme_host url))))))
    in *.
  cbv zeta in H. inversion H; subst u h. clear H.
  split; [exact Hh|].
  assert (Hcases : GoURL.Scheme p = "http"%string
                   \/ GoURL.Scheme p = "https"%string).
  { rewrite Hs.
    destruct (String.eqb (GoURL.Scheme url) "http") eqn:H1.
    - apply String.eqb_eq in H1. rewrite H1. left. reflexivity.
    - destruct (String.eqb (GoURL.Scheme url) "https") eqn:H2;
        [|discriminate Hsch].
      apply String.eqb_eq in H2. rewrite H2. right. reflexivity. }
  destruct (String_starts_with_scheme p) as [rest Hrest].
  { destruct Hcases as [-> | ->]; discriminate. }
  exists rest. rewrite Hrest.
  destruct Hcases as [-> | ->]; [left | right]; reflexivity.
Qed.

Lemma Canonicalize_result_shape_witness :
  GoURL.ToLower "example.com:8080" = "example.com:8080"%string /\
  exists rest,
    ("http://example.com:8080/a?b=1&c=2" = "http:" ++ rest \/
     "http://example.com:8080/a?b=1&c=2" = "https:" ++ rest)%string.
Proof.
  apply (Canonicalize_result_shape "HTTP://Example.COM:8080/a/?c=2&b=1").
  - vm_compute. reflexivity.
  - vm_compute. reflexivity.
Defined.

Lemma has_suffix_absent c l :
  GoURL.contains c l = false -> GoURL.has_suffix [c] l = false.
Proof.
  intros Hc. unfold GoURL.has_suffix, GoURL.has_prefix. simpl.
  destruct (decide (firstn 1 (rev l) = [c])) as [Heq|]; [|reflexivity].
  exfalso. destruct (rev l) as [|x r] eqn:Hr; [discriminate Heq|].
  simpl in Heq. inversion Heq; subst x.
  assert (Hin : In c l).
  { apply in_rev. rewrite Hr. left. reflexivity. }
  unfold GoURL.contains in Hc.
  assert (Hex : existsb (Ascii.eqb c) l = true).
  { apply existsb_exists. exists c. split; [exact Hin|apply Ascii.eqb_refl]. }
  congruence.
Qed.

Lemma parse_rootless (sch rest : string) :
  sch = "http"%string \/ sch = "https"%string ->
  GoURL.has_prefix (GoURL.chars "/") (GoURL.chars rest) = false ->
  GoURL.contains "?" (GoURL.chars rest) = false ->
  GoURL.parse (GoURL.chars sch ++ ":"%char :: GoURL.chars rest)
    = Ok (GoURL.mkURL sch rest "" "" "" false false "").
Proof.
  intros Hsch Hslash Hq. unfold GoURL.parse.
  destruct (decide (GoURL.chars sch ++ ":"%char :: GoURL.chars rest
                    = GoURL.chars "*")) as [Heq|_].
  { destruct Hsch as [-> | ->]; discriminate Heq. }
  assert (Hsc : GoURL.getScheme
                  (GoURL.chars sch ++ ":"%char :: GoURL.chars rest)
                = Ok (GoURL.chars sch, GoURL.chars rest)).
  { destruct Hsch as [-> | ->]; reflexivity. }
  rewrite Hsc.
  assert (Hlow : GoURL.ToLower (GoURL.str (GoURL.chars sch)) = sch).
  { destruct Hsch as [-> | ->]; reflexivity. }
  rewrite Hlow.
  change (GoURL.chars "?") with ["?"%char].
  rewrite (has_suffix_absent _ _ Hq). cbn [andb].
  rewrite (cut_absent _ _ Hq). rewrite Hslash. cbn [negb andb].
  assert (Hne : String.eqb sch "" = false)
    by (destruct Hsch as [-> | ->]; reflexivity).
  rewrite Hne. cbn [negb]. rewrite str_chars. reflexivity.
Qed.

(** [Canonicalize] does not ask for a host: a plain text without [/] at its
    start and without [?] and [#], put behind [http:] or [https:], is
    accepted as it stands, with the empty host. *)
Theorem Canonicalize_accepts_URL_without_host :
  forall (rest : string),
    GoURL.plain rest = true ->
    GoURL.has_prefix (GoURL.chars "/") (GoURL.chars rest) = false ->
    GoURL.contains "?" (GoURL.chars rest) = false ->
    GoURL.contains "#" (GoURL.chars rest) = false ->
    Canonicalize ("http:" ++ rest) = Ok ("http:" ++ rest, "")%string /\
    Canonicalize ("https:" ++ rest) = Ok ("https:" ++ rest, "")%string.
Proof.
  intros rest _ Hslash Hq Hh.
  assert (Hparse : forall sch : string,
            sch = "http"%string \/ sch = "https"%string ->
            GoURL.Parse (sch ++ ":" ++ rest)
              = Ok (GoURL.mkURL sch rest "" "" "" false false "")).
  { intros sch Hsch. unfold GoURL.Parse.
    assert (Hchars : GoURL.chars (sch ++ ":" ++ rest)
                     = GoURL.chars sch ++ ":"%char :: GoURL.chars rest).
    { unfold GoURL.chars. rewrite list_ascii_of_string_app. reflexivity. }
    rewrite Hchars.
    rewrite cut_absent.
    - rewrite (parse_rootless sch rest Hsch Hslash Hq). reflexivity.
    - unfold GoURL.contains, GoURL.chars in *.
      destruct Hsch as [-> | ->]; simpl; exact Hh. }
  assert (Hcanon : forall sch : string,
            sch = "http"%string \/ sch = "https"%string ->
            canonical_of (GoURL.mkURL sch rest "" "" "" false false "")
              = Ok ((sch ++ ":" ++ rest)%string, ""%string)).
  { intros sch Hsch.
    destruct Hsch as [-> | ->]; destruct rest as [|c rest']; reflexivity. }
  split.
  - rewrite Canonicalize_canonical_of.
    change ("http:" ++ rest)%string with ("http" ++ ":" ++ rest)%string.
    rewrite (Hparse "http"%string (or_introl eq_refl)).
    exact (Hcanon "http"%string (or_introl eq_refl)).
  - rewrite Canonicalize_canonical_of.
    change ("https:" ++ rest)%string with ("https" ++ ":" ++ rest)%string.
    rewrite (Hparse "https"%string (or_intror eq_refl)).
    exact (Hcanon "https"%string (or_intror eq_refl)).
Qed.

Lemma Canonicalize_accepts_URL_without_host_witness :
  Canonicalize "http:example.com" = Ok ("http:example.com", "")%string /\
  Canonicalize "https:example.com" = Ok ("https:example.com", "")%string.
Proof.
  apply (Canonicalize_accepts_URL_without_host "example.com");
    vm_compute; reflexivity.
Defined.

(** ** The order of query parameters *)

Lemma distinct_elem (k : string) l : k ∈ distinct l <-> k ∈ l.
Proof.
  induction l as [|x l IH]; simpl; [reflexivity|].
  destruct (existsb (String.eqb x) l) eqn:Hex.
  - rewrite IH, elem_of_cons. split; [auto|].
    intros [-> | Hin]; [|exact Hin].
    apply existsb_exists in Hex as (y & Hy & Heq).
    apply String.eqb_eq in Heq. subst y. apply list_elem_of_In. exact Hy.
  - rewrite !elem_of_cons, IH. reflexivity.
Qed.

Lemma distinct_NoDup l : NoDup (distinct l).
Proof.
  induction l as [|x l IH]; simpl; [constructor|].
  destruct (existsb (String.eqb x) l) eqn:Hex; [exact IH|].
  constructor; [|exact IH].
  rewrite distinct_elem. intros Hin.
  assert (existsb (String.eqb x) l = true); [|congruence].
  apply existsb_exists. exists x.
  split; [apply list_elem_of_In; exact Hin | apply String.eqb_refl].
Qed.

Lemma key_elem_filter (k : string) (vs : list (string * string)) :
  k ∈ List.map fst vs <->
  List.filter (fun kv => String.eqb (fst kv) k) vs <> [].
Proof.
  induction vs as [|[k0 v0] vs IH]; simpl.
  - split; [intros H; inversion H | congruence].
  - rewrite elem_of_cons. destruct (String.eqb k0 k) eqn:He.
    + apply String.eqb_eq in He. split; [discriminate | auto].
    + apply String.eqb_neq in He. rewrite <- IH.
      split; [intros [-> | H]; [contradiction | exact H] | auto].
Qed.

#[global] Instance string_le_antisym : AntiSymm (=) string_le.
Proof. intros a b Hab Hba. apply String.leb_antisym; assumption. Qed.

(** [sortQueryParams] looks at a plain query only through the values each
    key has, in their order: two plain queries that [url.ParseQuery] reads
    and that give every key the same values in the same order are
    rewritten to the same text, wherever the keys stand in them. *)
Theorem sortQueryParams_ignores_key_order :
  forall (q q' : string) (vs vs' : list (string * string)),
    GoURL.plain q = true ->
    GoURL.plain q' = true ->
    GoURL.ParseQuery q = Some vs ->
    GoURL.ParseQuery q' = Some vs' ->
    (forall k, List.filter (fun kv => String.eqb (fst kv) k) vs
               = List.filter (fun kv => String.eqb (fst kv) k) vs') ->
    sortQueryParams q = sortQueryParams q'.
Proof.
  intros q q' vs vs' _ _ Hq Hq' Hsame. unfold sortQueryParams.
  rewrite Hq, Hq'.
  assert (Hkeys : merge_sort string_le (distinct (List.map fst vs))
                  = merge_sort string_le (distinct (List.map fst vs'))).
  { apply (StronglySorted_unique string_le).
    - apply StronglySorted_merge_sort; apply _.
    - apply StronglySorted_merge_sort; apply _.
    - rewrite !merge_sort_Permutation.
      apply NoDup_Permutation; [apply distinct_NoDup..|].
      intros k. rewrite !distinct_elem, !key_elem_filter, Hsame.
      reflexivity. }
  rewrite Hkeys. f_equal. f_equal.
  apply map_ext. intros k. rewrite Hsame. reflexivity.
Qed.

Lemma sortQueryParams_ignores_key_order_witness :
  sortQueryParams "b=2&a=1&b=3" = sortQueryParams "b=2&b=3&a=1".
Proof.
  apply (sortQueryParams_ignores_key_order "b=2&a=1&b=3" "b=2&b=3&a=1"
           [("b", "2"); ("a", "1"); ("b", "3")]%string
           [("b", "2"); ("b", "3"); ("a", "1")]%string).
  - vm_compute. reflexivity.
  - vm_compute. reflexivity.
  - vm_compute. reflexivity.
  - vm_compute. reflexivity.
  - intros k. cbn [List.filter fst].
    destruct (String.eqb "b" k) eqn:Hb, (String.eqb "a" k) eqn:Ha;
      try reflexivity.
    apply String.eqb_eq in Hb, Ha. congruence.
Defined.

(** ** Winding down after cancellation *)

Lemma total_app {A} (f : A -> nat) (l1 l2 : list A) :
  total f (l1 ++ l2) = (total f l1 + total f l2)%nat.
Proof.
  induction l1 as [|x l1 IH]; simpl; [reflexivity|]. rewrite IH. lia.
Qed.

Lemma total_insert {A} (f : A -> nat) (l : list A) (i : nat) (x y : A) :
  l !! i = Some y ->
  (total f (<[i := x]> l) + f y = total f l + f x)%nat.
Proof.
  revert i. induction l as [|z l IH]; intros i Hi; [discriminate|].
  destruct i as [|i]; simpl in *.
  - inversion Hi; subst. lia.
  - specialize (IH i Hi). lia.
Qed.

Lemma total_pos_lookup {A} (f : A -> nat) (l : list A) :
  (0 < total f l)%nat -> exists i x, l !! i = Some x /\ (0 < f x)%nat.
Proof.
  induction l as [|y l IH]; simpl; [lia|].
  intros H. destruct (f y) as [|n] eqn:Hy.
  - destruct (IH H) as (i & x & Hi & Hx). exists (S i), x. auto.
  - exists 0%nat, y. split; [reflexivity|lia].
Qed.

Lemma total_zero_lookup {A} (f : A -> nat) (l : list A) i x :
  total f l = 0%nat -> l !! i = Some x -> f x = 0%nat.
Proof.
  revert i. induction l as [|y l IH]; intros i Hz Hi; [discriminate|].
  simpl in Hz. destruct i as [|i]; simpl in Hi.
  - inversion Hi; subst. lia.
  - apply (IH i); [lia|exact Hi].
Qed.

Lemma count_lookup_pos {A} (p : A -> bool) (l : list A) i x :
  l !! i = Some x -> p x = true -> (0 < count p l)%nat.
Proof.
  revert i. induction l as [|y l IH]; intros i Hi Hp; [discriminate|].
  simpl. destruct i as [|i]; simpl in Hi.
  - inversion Hi; subst. rewrite Hp. lia.
  - specialize (IH i Hi Hp). lia.
Qed.

(** A task that has not finished can take its next step once the context
    is cancelled. *)
Lemma cancelled_task_moves st ci ht sg mc s j t :
  reachable st ci ht sg mc s ->
  ctx_done (chk s) = true ->
  tasks s !! j = Some t ->
  (0 < task_weight t)%nat ->
  exists ev c' t' lines,
    task_step ev (chk s) t = Some (c', t', lines) /\
    ctx_done c' = true /\
    (task_weight t' < task_weight t)%nat.
Proof.
  intros Hr Hd Hj Hw.
  pose proof (global_inv_reachable _ _ _ _ _ _ Hr) as (_ & Hg & _).
  pose proof (host_inv_reachable _ _ _ _ _ _ Hr) as Hh.
  pose proof (wg_inv_reachable _ _ _ _ _ _ Hr) as Hwg. unfold wg_inv in Hwg.
  destruct t as [tg pc]. unfold task_weight in *. simpl in Hw.
  destruct pc; simpl in Hw; try lia.
  - exists TevLookup. do 3 eexists. split; [reflexivity|].
    split; [exact Hd | simpl; lia].
  - exists TevCtxDone. unfold task_step. cbn [task_pc task_target].
    rewrite Hd. do 3 eexists.
    split; [reflexivity|]. split; [exact Hd | simpl; lia].
  - exists (TevProbe demo_probe_env). do 3 eexists.
    split; [reflexivity|]. split; [exact Hd | simpl; lia].
  - exists (TevSave None). unfold task_step. cbn [task_pc task_target].
    destruct (InsertCheckResult _ r (store (chk s))) as [[e|] db];
      do 3 eexists; (split; [reflexivity|]);
      (split; [exact Hd | simpl; lia]).
  - exists TevDeferred. unfold task_step. cbn [task_pc task_target].
    destruct (hostSemaphores (chk s) !! Host tg) as [[|n]|] eqn:Hsem.
    + exfalso. destruct (Hh (Host tg)) as [Hlen _].
      unfold host_len in Hlen. rewrite Hsem in Hlen. simpl in Hlen.
      assert (0 < host_holders (Host tg) s)%nat; [|lia].
      apply (count_lookup_pos _ _ _ _ Hj). unfold task_holds_host. simpl.
      rewrite String.eqb_refl. reflexivity.
    + do 3 eexists. split; [reflexivity|]. split; [exact Hd | simpl; lia].
    + do 3 eexists. split; [reflexivity|]. split; [exact Hd | simpl; lia].
  - exists TevDeferred. unfold task_step. cbn [task_pc task_target].
    destruct (workers (chk s)) as [|n] eqn:Hwk.
    + exfalso. assert (0 < global_holders s)%nat; [|lia].
      apply (count_lookup_pos _ _ _ _ Hj). reflexivity.
    + do 3 eexists. split; [reflexivity|]. split; [exact Hd | simpl; lia].
  - exists TevDeferred. unfold task_step. cbn [task_pc task_target].
    destruct (wg (chk s)) as [|n] eqn:Hn.
    + exfalso. assert (0 < count task_live (tasks s))%nat; [|lia].
      apply (count_lookup_pos _ _ _ _ Hj). reflexivity.
    + do 3 eexists. split; [reflexivity|]. split; [exact Hd | simpl; lia].
Qed.

(** So can a scheduler; the task it starts on the way is counted. *)
Lemma cancelled_sched_moves st ci ht sg mc s i pc :
  reachable st ci ht sg mc s ->
  ctx_done (chk s) = true ->
  scheds s !! i = Some pc ->
  (0 < sched_weight pc)%nat ->
  exists ev c' pc' spawned lines,
    sched_step ev (chk s) pc = Some (c', pc', spawned, lines) /\
    ctx_done c' = true /\
    (sched_weight pc' + total task_weight spawned < sched_weight pc)%nat.
Proof.
  intros Hr Hd Hi Hw.
  pose proof (wg_inv_reachable _ _ _ _ _ _ Hr) as Hwg. unfold wg_inv in Hwg.
  destruct pc as [| |rest|t rest| |]; simpl in Hw; try lia.
  - exists SevCtxDone. unfold sched_step. rewrite Hd. do 4 eexists.
    split; [reflexivity|]. split; [exact Hd | simpl; lia].
  - exists (SevFetch None). unfold sched_step.
    destruct (GetTargets _ "" GoTime.zero "" 1000 (store (chk s)))
      as [[targets cur]|e];
      do 4 eexists; (split; [reflexivity|]);
      (split; [exact Hd | simpl; lia]).
  - destruct rest as [|t rest].
    + exists SevRangeEnd. do 4 eexists.
      split; [reflexivity|]. split; [exact Hd | simpl; lia].
    + exists SevCtxDone. unfold sched_step. rewrite Hd. do 4 eexists.
      split; [reflexivity|]. split; [exact Hd | simpl; lia].
  - exists SevGo. do 4 eexists.
    split; [reflexivity|]. split; [exact Hd | simpl; lia].
  - exists SevDeferred. unfold sched_step.
    destruct (wg (chk s)) as [|n] eqn:Hn.
    + exfalso. assert (0 < count sched_live (scheds s))%nat; [|lia].
      apply (count_lookup_pos _ _ _ _ Hi). reflexivity.
    + do 4 eexists. split; [reflexivity|]. split; [exact Hd | simpl; lia].
Qed.

Lemma cancelled_progress st ci ht sg mc s :
  reachable st ci ht sg mc s ->
  ctx_done (chk s) = true ->
  (0 < work_left s)%nat ->
  exists a s',
    goroutine_step a = true /\
    exec a s = Some s' /\
    ctx_done (chk s') = true /\
    (work_left s' < work_left s)%nat.
Proof.
  intros Hr Hd Hw. unfold work_left in Hw.
  destruct (total sched_weight (scheds s)) as [|n] eqn:Hs.
  - destruct (total_pos_lookup task_weight (tasks s)) as (j & t & Hj & Ht);
      [lia|].
    destruct (cancelled_task_moves _ _ _ _ _ _ _ _ Hr Hd Hj Ht)
      as (ev & c' & t' & lines & Hstep & Hd' & Hlt).
    exists (ActTask j ev). eexists. split; [reflexivity|].
    simpl. rewrite Hj. simpl. rewrite Hstep. simpl.
    split; [reflexivity|]. split; [exact Hd'|].
    unfold work_left. simpl.
    pose proof (total_insert task_weight _ _ t' _ Hj). lia.
  - destruct (total_pos_lookup sched_weight (scheds s)) as (i & pc & Hi & Hp);
      [lia|].
    destruct (cancelled_sched_moves _ _ _ _ _ _ _ _ Hr Hd Hi Hp)
      as (ev & c' & pc' & spawned & lines & Hstep & Hd' & Hlt).
    exists (ActSched i ev). eexists. split; [reflexivity|].
    simpl. rewrite Hi. simpl. rewrite Hstep. simpl.
    split; [reflexivity|]. split; [exact Hd'|].
    unfold work_left. simpl. rewrite total_app.
    pose proof (total_insert sched_weight _ _ pc' _ Hi). lia.
Qed.

Lemma cancelled_runs_out st ci ht sg mc (n : nat) :
  forall s,
    reachable st ci ht sg mc s ->
    ctx_done (chk s) = true ->
    (work_left s <= n)%nat ->
    exists acts s',
      forallb goroutine_step acts = true /\
      run acts s = Some s' /\
      reachable st ci ht sg mc s' /\
      work_left s' = 0%nat.
Proof.
  induction n as [|n IH]; intros s Hr Hd Hn.
  - exists [], s. split; [reflexivity|]. split; [reflexivity|].
    split; [exact Hr | lia].
  - destruct (work_left s) as [|m] eqn:Hw.
    + exists [], s. split; [reflexivity|]. split; [reflexivity|].
      split; [exact Hr | exact Hw].
    + destruct (cancelled_progress _ _ _ _ _ _ Hr Hd) as
        (a & s1 & Ha & Hexec & Hd1 & Hlt); [lia|].
      destruct (IH s1) as (acts & s' & Hacts & Hrun & Hr' & Hz);
        [eapply reach_step; eassumption | exact Hd1 | lia|].
      exists (a :: acts), s'. simpl. rewrite Ha, Hacts, Hexec.
      split; [reflexivity|]. split; [exact Hrun|]. split; assumption.
Qed.

(** Once the context is cancelled nothing can keep the goroutines from
    finishing: from every reachable state with a cancelled context there
    is a run of steps of the schedulers and tasks alone after which all of
    them have exited, the wait group is at zero (so [wg.Wait()] in
    [Shutdown] returns) and every global slot is free. *)
Theorem cancelled_checker_can_wind_down :
  forall (st : DB) (ci ht sg mc : Z) (s : System),
    reachable st ci ht sg mc s ->
    ctx_done (chk s) = true ->
    exists acts s',
      forallb goroutine_step acts = true /\
      run acts s = Some s' /\
      (forall i pc, scheds s' !! i = Some pc -> pc = SchedExited) /\
      (forall j t, tasks s' !! j = Some t -> task_pc t = TaskExited) /\
      wg (chk s') = 0%nat /\
      workers (chk s') = 0%nat.
Proof.
  intros st ci ht sg mc s Hr Hd.
  destruct (cancelled_runs_out st ci ht sg mc (work_left s) s Hr Hd)
    as (acts & s' & Hacts & Hrun & Hr' & Hz); [lia|].
  exists acts, s'. split; [exact Hacts|]. split; [exact Hrun|].
  unfold work_left in Hz.
  assert (Hz1 : total sched_weight (scheds s') = 0%nat) by lia.
  assert (Hz2 : total task_weight (tasks s') = 0%nat) by lia.
  assert (Hs : forall i pc, scheds s' !! i = Some pc -> pc = SchedExited).
  { intros i pc Hi.
    assert (Hp : sched_weight pc = 0%nat)
      by (apply (total_zero_lookup _ _ _ _ Hz1 Hi)).
    destruct pc; simpl in Hp; try lia. reflexivity. }
  assert (Ht : forall j t, tasks s' !! j = Some t -> task_pc t = TaskExited).
  { intros j t Hj.
    assert (Hp : task_weight t = 0%nat)
      by (apply (total_zero_lookup _ _ _ _ Hz2 Hj)).
    unfold task_weight in Hp.
    destruct (task_pc t); simpl in Hp; try lia. reflexivity. }
  split; [exact Hs|]. split; [exact Ht|].
  pose proof (wg_inv_reachable _ _ _ _ _ _ Hr') as Hwg. unfold wg_inv in Hwg.
  pose proof (global_inv_reachable _ _ _ _ _ _ Hr') as (_ & Hg & _).
  assert (Hc1 : count sched_live (scheds s') = 0%nat).
  { destruct (count sched_live (scheds s')) eqn:Hc; [reflexivity|].
    destruct (count_pos_elem sched_live (scheds s')) as (pc & Hin & Hp);
      [lia|].
    apply list_elem_of_In, list_elem_of_lookup in Hin as [i Hi].
    rewrite (Hs i pc Hi) in Hp. discriminate Hp. }
  assert (Hc2 : count task_live (tasks s') = 0%nat).
  { destruct (count task_live (tasks s')) eqn:Hc; [reflexivity|].
    destruct (count_pos_elem task_live (tasks s')) as (t & Hin & Hp); [lia|].
    apply list_elem_of_In, list_elem_of_lookup in Hin as [j Hj].
    unfold task_live in Hp. rewrite (Ht j t Hj) in Hp. discriminate Hp. }
  assert (Hc3 : count sched_holds_global (scheds s') = 0%nat).
  { destruct (count sched_holds_global (scheds s')) eqn:Hc; [reflexivity|].
    destruct (count_pos_elem sched_holds_global (scheds s'))
      as (pc & Hin & Hp); [lia|].
    apply list_elem_of_In, list_elem_of_lookup in Hin as [i Hi].
    rewrite (Hs i pc Hi) in Hp. discriminate Hp. }
  assert (Hc4 : global_holders s' = 0%nat).
  { unfold global_holders.
    destruct (count task_holds_global (tasks s')) eqn:Hc; [reflexivity|].
    destruct (count_pos_elem task_holds_global (tasks s'))
      as (t & Hin & Hp); [lia|].
    apply list_elem_of_In, list_elem_of_lookup in Hin as [j Hj].
    unfold task_holds_global in Hp. rewrite (Ht j t Hj) in Hp.
    discriminate Hp. }
  split; lia.
Qed.

Lemma demo_cancelled_reachable :
  reachable demo_db 15000000000 5000000000 10000000000 2 demo_cancelled_state.
Proof.
  apply (run_from_reachable _ _ _ _ _ demo_cancelled_trace).
  vm_compute. reflexivity.
Qed.

(** In the scenario two tasks and the scheduler are under way when the
    context is cancelled. *)
Lemma cancelled_checker_can_wind_down_witness :
  wg (chk demo_cancelled_state) = 3%nat /\
  exists acts s',
    forallb goroutine_step acts = true /\
    run acts demo_cancelled_state = Some s' /\
    (forall i pc, scheds s' !! i = Some pc -> pc = SchedExited) /\
    (forall j t, tasks s' !! j = Some t -> task_pc t = TaskExited) /\
    wg (chk s') = 0%nat /\
    workers (chk s') = 0%nat.
Proof.
  split; [vm_compute; reflexivity|].
  apply (cancelled_checker_can_wind_down demo_db 15000000000 5000000000
           10000000000 2 demo_cancelled_state demo_cancelled_reachable).
  vm_compute. reflexivity.
Defined.

(** ** Storing a result and reading it back *)

Lemma firstn_all_le {A} (n : nat) (l : list A) :
  (length l <= n)%nat -> firstn n l = l.
Proof. intros H. apply firstn_all2. exact H. Qed.



(** ** The map of host channels *)

Lemma host_entry_kept a s s' h :
  exec a s = Some s' ->
  is_Some (hostSemaphores (chk s) !! h) ->
  is_Some (hostSemaphores (chk s') !! h).
Proof.
  intros H Hh. exec_inv H; simpl; try assumption.
  - apply sched_step_moves in Hst. inversion Hst; subst; simpl; assumption.
  - apply task_step_moves in Hst as [_ Hst].
    inversion Hst; subst; simpl; try assumption.
    + unfold lookup_or_create.
      destruct (hostSemaphores (chk s) !! Host (task_target t));
        [assumption|].
      apply lookup_insert_is_Some.
      destruct (decide (Host (task_target t) = h)); auto.
    + apply lookup_insert_is_Some.
      destruct (decide (Host (task_target t) = h)); auto.
    + apply lookup_insert_is_Some.
      destruct (decide (Host (task_target t) = h)); auto.
  - apply shut_step_moves in Hst. inversion Hst; subst; simpl; assumption.
Qed.

(** The channel of a host is made by the first task of that host that
    gets to [acquireHostSemaphore] and is never taken out of the map: in
    every reachable state the hosts with a channel are those for which a
    task has been past its lookup, whether or not it has finished since,
    and no step removes an entry. *)
Theorem host_channels_are_kept :
  forall (st : DB) (ci ht sg mc : Z) (s : System) (h : string),
    reachable st ci ht sg mc s ->
    (is_Some (hostSemaphores (chk s) !! h) <->
     exists j t, tasks s !! j = Some t /\ Host (task_target t) = h /\
                 task_pc t <> TaskStart) /\
    (forall acts s',
       run acts s = Some s' ->
       is_Some (hostSemaphores (chk s) !! h) ->
       is_Some (hostSemaphores (chk s') !! h)).
Proof.
  intros st ci ht sg mc s h Hr. split.
  - exact (host_dom_inv_reachable _ _ _ _ _ _ Hr h).
  - intros acts. clear Hr. revert s.
    induction acts as [|a acts IH]; intros s s' Hrun Hh; simpl in Hrun.
    + inversion Hrun; subst. exact Hh.
    + destruct (exec a s) as [s1|] eqn:Hexec; [|discriminate Hrun].
      apply (IH s1 s' Hrun). eapply host_entry_kept; eassumption.
Qed.

(** In the scenario [example.com] has its channel, and keeps it when the
    checker has wound down. *)
Lemma host_channels_are_kept_witness :
  is_Some (hostSemaphores (chk demo_cancelled_state) !! "example.com"%string)
  /\
  forall acts s',
    run acts demo_cancelled_state = Some s' ->
    is_Some (hostSemaphores (chk demo_cancelled_state)
               !! "example.com"%string) ->
    is_Some (hostSemaphores (chk s') !! "example.com"%string).
Proof.
  split.
  - apply (proj1 (host_channels_are_kept demo_db 15000000000 5000000000
                    10000000000 2 demo_cancelled_state "example.com"
                    demo_cancelled_reachable)).
    exists 0%nat. eexists. split; [vm_compute; reflexivity|].
    split; [reflexivity | discriminate].
  - exact (proj2 (host_channels_are_kept demo_db 15000000000 5000000000
                    10000000000 2 demo_cancelled_state "example.com"
                    demo_cancelled_reachable)).
Defined.
